(** * prime-gap: the combined sieve and the gap statistics

    A shallow embedding of the parts of [combined_sieve.cpp] and of the
    statistics program ([gap_stats.cpp]) that the specification makes
    claims about, and the proofs that settle those claims.

    Conventions.
    - C++ unsigned integers are [Z] with the wrap-around written out
      ([u32], [u64]); [int] values that can only hold small numbers are [Z].
    - [double] is Rocq's primitive binary64 [float]; a C++ [float] is a
      binary64 value that went through [to_float] (round to binary32).
    - [std::vector] is [list], read with [vget] (an access out of range is
      undefined behaviour, reported as [Undefined]); [std::map] is [gmap].
    - A function that can abort, exit or throw returns [Res]. *)

From Stdlib Require Import ZArith List Lia Floats Uint63 String Ascii Bool Sorted.
From Stdlib.Strings Require Import Byte.
From stdpp Require Import base gmap list strings.
Import ListNotations.
Open Scope Z_scope.

Set Warnings "-inexact-float".

(* ================================================================== *)
(** * Results of running C++ code *)
(* ================================================================== *)

(** How a run can end other than by returning. *)
Inductive Fault : Type :=
| Assertion (what : string)   (* assert(...) failed: abort() *)
| Undefined (what : string)   (* vector access out of range, front() of an empty vector *)
| OutOfRange (what : string)  (* std::map::at threw std::out_of_range and nobody caught it *)
| Diverge.                    (* a loop that never ends *)

Inductive Res (A : Type) : Type :=
| Ok (a : A)
| Err (f : Fault).
Arguments Ok {A} a.
Arguments Err {A} f.

Definition bind {A B} (m : Res A) (k : A -> Res B) : Res B :=
  match m with
  | Ok a => k a
  | Err f => Err f
  end.

Notation "'let*' x ':=' m 'in' k" := (bind m (fun x => k))
  (at level 10, x pattern, m at level 200, k at level 200).

Definition assert (b : bool) (what : string) : Res unit :=
  if b then Ok tt else Err (Assertion what).

Definition is_ok {A} (r : Res A) : bool :=
  match r with Ok _ => true | Err _ => false end.

(** Monadic left fold: the body of a [for] loop run over the values of its
    loop variable, threading the loop-carried state. *)
Fixpoint foldM {A St : Type} (f : St -> A -> Res St) (l : list A) (s : St) : Res St :=
  match l with
  | [] => Ok s
  | x :: l' => let* s' := f s x in foldM f l' s'
  end.

(* ================================================================== *)
(** * Machine integers and vectors *)
(* ================================================================== *)

Definition u32 (x : Z) : Z := x mod 2 ^ 32.
Definition u64 (x : Z) : Z := x mod 2 ^ 64.

(** Conversion of an unsigned value to [int32_t]. *)
Definition i32 (x : Z) : Z :=
  let y := x mod 2 ^ 32 in if y <? 2 ^ 31 then y else y - 2 ^ 32.

(** [v[i]]: reading a vector out of range is undefined behaviour. *)
Definition vget {A} (what : string) (v : list A) (i : Z) : Res A :=
  if i <? 0 then Err (Undefined what)
  else match v !! Z.to_nat i with
       | Some x => Ok x
       | None => Err (Undefined what)
       end.

(** [v[i] = x]. *)
Definition vset {A} (what : string) (v : list A) (i : Z) (x : A) : Res (list A) :=
  if (0 <=? i) && (i <? Z.of_nat (length v)) then Ok (<[Z.to_nat i := x]> v)
  else Err (Undefined what).

Definition size {A} (v : list A) : Z := Z.of_nat (length v).

(** The bytes of a string literal. *)
Definition chars (s : string) : list Z :=
  map (fun b => Z.of_N (Byte.to_N b)) (list_byte_of_string s).

(* ================================================================== *)
(** * Floating point *)
(* ================================================================== *)

(** Conversion of a [double] to [float]: round to nearest even in binary32
    (24 bits of precision, exponents up to 128); overflow gives infinity. *)
Definition to_float (x : float) : float :=
  match Prim2SF x with
  | S754_finite s m e => SF2Prim (binary_round 24 128 s m e)
  | _ => x
  end.

(** Conversion of a (non-negative, below 2^53) integer to [double]. *)
Definition of_int (n : Z) : float := PrimFloat.of_uint63 (Uint63.of_Z n).

Definition fgt (a b : float) : bool := PrimFloat.ltb b a.
Definition fge (a b : float) : bool := PrimFloat.leb b a.

(* ================================================================== *)
(** * Configuration (struct Config of gap_common.h, the fields used here) *)
(* ================================================================== *)

Record Config : Type := mkConfig {
  valid : Z;
  p : Z;
  d : Z;
  mstart : Z;
  minc : Z;
  sieve_length : Z;
  max_prime : Z;
  min_merit : float;
  save_unknowns : Z;
  rle : bool;
  method1 : bool;
  verbose : Z;
  unknown_filename : string
}.

Definition set_max_prime (c : Config) (v : Z) : Config :=
  mkConfig (valid c) (p c) (d c) (mstart c) (minc c) (sieve_length c) v
           (min_merit c) (save_unknowns c) (rle c) (method1 c) (verbose c)
           (unknown_filename c).

Definition set_unknown_filename (c : Config) (fn : string) : Config :=
  mkConfig (valid c) (p c) (d c) (mstart c) (minc c) (sieve_length c) (max_prime c)
           (min_merit c) (save_unknowns c) (rle c) (method1 c) (verbose c) fn.

Definition set_rle (c : Config) (b : bool) : Config :=
  mkConfig (valid c) (p c) (d c) (mstart c) (minc c) (sieve_length c) (max_prime c)
           (min_merit c) (save_unknowns c) b (method1 c) (verbose c)
           (unknown_filename c).

(* ================================================================== *)
(** * Text streams *)
(* ================================================================== *)

(** ** Output: [ostream << n] for an unsigned integer *)

(** Decimal digits of [n], most significant first, in front of [acc]. *)
Fixpoint dec_digits (fuel : nat) (n : Z) (acc : list Z) : list Z :=
  match fuel with
  | O => acc
  | S fuel' =>
      let acc' := (48 + n mod 10) :: acc in
      if n <? 10 then acc' else dec_digits fuel' (n / 10) acc'
  end.

(** [os << n]: at most 20 digits for a 64-bit value. *)
Definition put_uint (n : Z) : list Z := dec_digits 20 n [].

(** ** Input: [std::ifstream] *)

(** The unread bytes, and whether the stream is still [good()] (neither
    failbit nor eofbit is set).  Once it is not, every extraction fails. *)
Record istream : Type := mkIn { buf : list Z; good : bool }.

Definition is_space (c : Z) : bool :=
  (c =? 32) || ((9 <=? c) && (c <=? 13)).

Definition is_digit (c : Z) : bool := (48 <=? c) && (c <=? 57).

Fixpoint skip_ws (l : list Z) : list Z :=
  match l with
  | c :: l' => if is_space c then skip_ws l' else l
  | [] => []
  end.

(** The digits at the head of [l], folded into [acc]; the number of digits
    read and the rest. *)
Fixpoint scan_digits (l : list Z) (acc : Z) (n : nat) : Z * nat * list Z :=
  match l with
  | c :: l' =>
      if is_digit c then scan_digits l' (10 * acc + (c - 48)) (S n)
      else (acc, n, l)
  | [] => (acc, n, [])
  end.

(** [is >> x] for [int x]: [None] when [x] is left as it was (the stream
    was not good, or only white space was left); a failed conversion
    stores 0, a value out of range the nearest [int]. *)
Definition get_int (s : istream) : option Z * istream :=
  if negb (good s) then (None, s)
  else
    match skip_ws (buf s) with
    | [] => (None, mkIn [] false)
    | c :: rest =>
        let '(neg, body) :=
          if c =? 45 then (true, rest)
          else if c =? 43 then (false, rest)
          else (false, c :: rest) in
        let '(v, n, rest') := scan_digits body 0 0 in
        match n with
        | O => (Some 0, mkIn body false)
        | S _ =>
            let v' := if neg then - v else v in
            let at_end := match rest' with [] => true | _ => false end in
            if v' <? - 2 ^ 31 then (Some (- 2 ^ 31), mkIn rest' false)
            else if 2 ^ 31 - 1 <? v' then (Some (2 ^ 31 - 1), mkIn rest' false)
            else (Some v', mkIn rest' (negb at_end))
        end
    end.

(** The bytes up to the next white space, and the rest. *)
Fixpoint scan_word (l : list Z) : list Z * list Z :=
  match l with
  | c :: l' =>
      if is_space c then ([], l)
      else let '(w, r) := scan_word l' in (c :: w, r)
  | [] => ([], [])
  end.

(** [is >> str] for [std::string str]. *)
Definition get_word (s : istream) : option (list Z) * istream :=
  if negb (good s) then (None, s)
  else
    match skip_ws (buf s) with
    | [] => (None, mkIn [] false)
    | l =>
        let '(w, r) := scan_word l in
        (Some w, mkIn r (match r with [] => false | _ => true end))
    end.

(** [is.get()]: the next byte, or EOF (-1). *)
Definition get_char (s : istream) : Z * istream :=
  if negb (good s) then (-1, s)
  else
    match buf s with
    | [] => (-1, mkIn [] false)
    | c :: r => (c, mkIn r true)
    end.

(* ================================================================== *)
(** * The unknown-line codec *)
(* ================================================================== *)

(** ** Writer: [save_unknowns_method2] (combined_sieve.cpp) *)

(** [!comp[i_reindex_m[a]]] *)
Definition is_unknown (comp : list bool) (i_reindex_m : list Z) (a : Z) : Res bool :=
  let* idx := vget "i_reindex_m[a]" i_reindex_m a in
  let* c := vget "comp[i_reindex_m[a]]" comp idx in
  Ok (negb c).

(** The counting loop over the whole interval: positions up to and
    including the centre count for the low side. *)
Definition count_unknowns (SL : Z) (comp : list bool) (i_reindex_m : list Z)
  : Res (Z * Z) :=
  foldM (fun '(unknown_l, unknown_u) i =>
           let* unk := is_unknown comp i_reindex_m i in
           Ok (if unk then
                 if i <=? SL then (unknown_l + 1, unknown_u)
                 else (unknown_l, unknown_u + 1)
               else (unknown_l, unknown_u)))
        (seqZ 0 (size i_reindex_m)) (0, 0).

(** [int a = SL + (2*d - 1) * i]: [SL] is a [uint32_t] and [i] a
    [size_t], so the sum is taken in [size_t] and then converted to
    [int]. *)
Definition side_index (SL d i : Z) : Z := i32 (u64 (SL + (2 * d - 1) * i)).

(** One side ([d = 0]: below the centre, [d = 1]: above) in the run-length
    form: two bytes per unknown, the distance to the previous one.
    The state is (bytes written, found, last); [last] and [delta] are
    [int]s, [i] is a [size_t]. *)
Definition rle_side (SL : Z) (comp : list bool) (i_reindex_m : list Z) (d : Z)
  : Res (list Z * Z) :=
  let* (out, found, _) :=
    foldM (fun '(out, found, last) i =>
             let a := side_index SL d i in
             let* unk := is_unknown comp i_reindex_m a in
             if unk then
               let delta := i32 (u64 (i - last)) in
               let* _ := assert ((0 <=? delta) && (delta <? 128 * 128))
                                "0 <= delta && delta < (128L*128)" in
               let upper := 48 + delta / 128 in
               let lower := 48 + delta mod 128 in
               Ok (out ++ [upper; lower], found + 1, i32 i)
             else Ok (out, found, last))
          (seqZ 1 SL) (chars " ", 0, 0) in
  Ok (out, found).

(** One side in the sparse form: a blank, the sign and the distance. *)
Definition sparse_side (SL : Z) (comp : list bool) (i_reindex_m : list Z) (d : Z)
  : Res (list Z * Z) :=
  let prefix := if d =? 0 then 45 else 43 in
  foldM (fun '(out, found) i =>
           let a := side_index SL d i in
           let* unk := is_unknown comp i_reindex_m a in
           if unk then Ok (out ++ chars " " ++ [prefix] ++ put_uint i, found + 1)
           else Ok (out, found))
        (seqZ 1 SL) ([], 0).

Definition write_side (rle : bool) := if rle then rle_side else sparse_side.

(** The body of the loop over [valid_mi]: the line of one [mi].  [SL] is
    a [uint32_t], and so is [2 * SL + 1]. *)
Definition save_unknowns_line (rle : bool) (SL mi : Z)
    (comp : list bool) (i_reindex_m : list Z) : Res (list Z) :=
  let* _ := assert (size i_reindex_m =? u32 (2 * SL + 1))
                   "i_reindex_m.size() == 2 * SL + 1" in
  let* (unknown_l, unknown_u) := count_unknowns SL comp i_reindex_m in
  let header := put_uint mi ++ chars " : -" ++ put_uint unknown_l
                ++ chars " +" ++ put_uint unknown_u ++ chars " |" in
  let* (out0, found0) := write_side rle SL comp i_reindex_m 0 in
  let* _ := assert (found0 =? unknown_l) "found == unknown_l" in
  let* (out1, found1) := write_side rle SL comp i_reindex_m 1 in
  let* _ := assert (found1 =? unknown_u) "found == unknown_u" in
  Ok (header ++ out0 ++ chars " |" ++ out1 ++ [10]).

(** The whole file.  [composite] is indexed by [m_reindex[mi]];
    [i_reindex_wheel] by [m % reindex_m_wheel]. *)
Definition save_unknowns_method2 (config : Config)
    (valid_mi m_reindex i_reindex : list Z) (reindex_m_wheel : Z)
    (i_reindex_wheel : list (list Z)) (composite : list (list bool))
  : Res (list Z) :=
  let M_start := u32 (mstart config) in
  let D := u32 (d config) in
  let SL := u32 (sieve_length config) in
  foldM (fun out mi =>
           let m := u64 (M_start + mi) in
           let* _ := assert (Z.gcd m D =? 1) "gcd(m, D) == 1" in
           let* mii := vget "m_reindex[mi]" m_reindex mi in
           let* _ := assert (0 <=? mii) "mii >= 0" in
           let* comp := vget "composite[mii]" composite mii in
           let* i_reindex_m :=
             if 1 <? reindex_m_wheel
             then vget "i_reindex_wheel[m % reindex_m_wheel]" i_reindex_wheel
                       (m mod reindex_m_wheel)
             else Ok i_reindex in
           let* line := save_unknowns_line (rle config) SL mi comp i_reindex_m in
           Ok (out ++ line))
        valid_mi [].

(** ** Reader: [read_unknown_line] (gap_stats.cpp) *)

(** The loop reading one side: [k] more values, [c] the running value.
    In the run-length form two bytes are added to [c]; in the sparse form
    a number is read into [c] (and negated on the low side).  A failed
    read leaves [c] as it was. *)
Fixpoint read_side (rle negate : bool) (k : nat) (c : Z) (s : istream)
    (acc : list Z) : list Z * istream :=
  match k with
  | O => (acc, s)
  | S k' =>
      if rle then
        let '(a, s1) := get_char s in
        let '(b, s2) := get_char s1 in
        let c' := c + ((a mod 256 - 48) * 128 + (b mod 256 - 48)) in
        read_side rle negate k' c' s2 (acc ++ [u32 c'])
      else
        let '(o, s1) := get_int s in
        let c1 := match o with Some v => v | None => c end in
        let c' := if negate then - c1 else c1 in
        read_side rle negate k' c' s1 (acc ++ [u32 c'])
  end.

Definition read_unknown_line (rle : bool) (mi : Z) (unknown_file : istream)
  : Res (list Z * list Z * istream) :=
  let '(o, s) := get_int unknown_file in
  let* mtest := match o with
                | Some v => Ok v
                | None => Err (Undefined "mtest is read before it was set")
                end in
  let* _ := assert (0 <=? mtest) "mtest >= 0" in
  let* _ := assert (mtest =? mi) "(size_t) mtest == mi" in
  let '(o, s) := get_word s in
  let delim := match o with Some w => w | None => [] end in
  let* _ := assert (bool_decide (delim = chars ":")) "delim == :" in
  let '(o, s) := get_int s in
  let unknown_l := - match o with Some v => v | None => 0 end in
  let '(o, s) := get_int s in
  let unknown_u := match o with Some v => v | None => 0 end in
  let '(o, s) := get_word s in
  let delim := match o with Some w => w | None => delim end in
  let* _ := assert (bool_decide (delim = chars "|")) "delim == |" in
  let '(delim_char, s) := get_char s in
  let* _ := assert (delim_char =? 32) "delim_char == ' '" in
  let '(unknown_low, s) := read_side rle true (Z.to_nat unknown_l) 0 s [] in
  let '(o, s) := get_word s in
  let delim := match o with Some w => w | None => delim end in
  let* _ := assert (bool_decide (delim = chars "|")) "delim == |" in
  let '(delim_char, s) := get_char s in
  let* _ := assert (delim_char =? 32) "delim_char == ' '" in
  let '(unknown_high, s) := read_side rle false (Z.to_nat unknown_u) 0 s [] in
  Ok (unknown_low, unknown_high, s).

(* ================================================================== *)
(** * Primes, and K = P#/D *)
(* ================================================================== *)

Definition is_prime (n : Z) : bool :=
  (2 <=? n) && forallb (fun k => negb (n mod k =? 0)) (seqZ 2 (Z.sqrt n - 1)).

(** Modelled from the spec: [get_sieve_primes] is in gap_common.cpp, which
    is not under src/; it is the small-prime generator, the primes up to
    [n] in ascending order. *)
Definition get_sieve_primes (n : Z) : list Z := List.filter is_prime (seqZ 2 (n - 1)).

(** Modelled from the spec: [K = P#/D], the primorial of [P] divided by
    [D] ([init_K] is in gap_common.cpp, which is not under src/). *)
Definition K_of (config : Config) : Z :=
  fold_right Z.mul 1 (get_sieve_primes (p config)) / d config.

Fixpoint first_prime_from (fuel : nat) (n : Z) : Z :=
  match fuel with
  | O => n
  | S fuel' => if is_prime n then n else first_prime_from fuel' (n + 1)
  end.

(** [primesieve::iterator]: the state is the bound from which the next
    prime is looked for; [next_prime()] returns the first prime at or above
    it.  The search of the model gives up after 1600 candidates, more than
    the largest gap between primes below 2^64. *)
Definition next_prime (it : Z) : Z * Z :=
  let q := first_prime_from 1600 it in (q, q + 1).

Fixpoint last_prime_upto (fuel : nat) (n : Z) : option Z :=
  match fuel with
  | O => None
  | S fuel' => if is_prime n then Some n else last_prime_upto fuel' (n - 1)
  end.

(** [mpz_prevprime(test, test)]: the greatest prime below [n]; [test] is
    left as it was when there is none. *)
Definition prev_prime (n : Z) : Z :=
  match last_prime_upto 1600 (n - 1) with
  | Some q => q
  | None => n
  end.

(* ================================================================== *)
(** * The combined sieve, method 2 (combined_sieve.cpp) *)
(* ================================================================== *)

(** ** Print intervals: [class method2_stats], [method2_increment_print] *)

(** The fields that steer the control flow; the timers and the counters
    that are only printed are left out. *)
Record method2_stats : Type := mkStats { next_print : Z; next_mult : Z }.

Definition new_method2_stats (threshold : Z) : method2_stats :=
  mkStats 0 (if threshold <=? 100000 then 10000 else 100000).

Definition method2_increment_print (prime LAST_PRIME : Z) (stats : method2_stats)
  : method2_stats :=
  if next_print stats <=? prime then
    let max_mult := 100000000000 in
    let all_ten := if 1000000000 <? prime then 1 else 0 in
    let next_next_mult := (5 + 4 * all_ten) * next_mult stats in
    let '(mult, print) :=
      if (next_next_mult <=? max_mult) && (next_print stats =? next_next_mult)
      then (next_mult stats * 10, 0)
      else (next_mult stats, next_print stats) in
    mkStats (Z.min (print + mult) LAST_PRIME) mult
  else stats.

(** ** Loops with a stride *)

(** [for (size_t x = first; x < bound; x += shift) body(x)].  With
    [bound + 1] steps of fuel the loop runs out of fuel only when [shift]
    is 0, and then the C++ loop does not end either. *)
Fixpoint for_stride {St : Type} (fuel : nat) (x shift bound : Z)
    (body : St -> Z -> Res St) (s : St) : Res St :=
  match fuel with
  | O => Err Diverge
  | S fuel' =>
      if x <? bound then
        let* s' := body s x in
        for_stride fuel' (x + shift) shift bound body s'
      else Ok s
  end.

(** ** Phase A: [method2_small_primes] *)

(** [composite_mii[i_reindex_m[x]] = true] *)
Definition mark_composite (i_reindex_m : list Z) (composite_mii : list bool) (x : Z)
  : Res (list bool) :=
  let* idx := vget "i_reindex_m[x]" i_reindex_m x in
  vset "composite_mii[i_reindex_m[x]]" composite_mii idx true.

(** [first]: the first offset in the interval whose number [a_prime] divides. *)
Definition small_prime_first (SIEVE_LENGTH m a_prime base_r : Z) : Z :=
  let modulo := u64 (base_r * m) mod a_prime in
  let flip := u32 (modulo + a_prime - (u32 (SIEVE_LENGTH + 1) mod a_prime)) in
  let flip := if a_prime <=? flip then u32 (flip - a_prime) else flip in
  u32 (a_prime - flip - 1).

(** [lowIsEven]: whether the number at offset 0 is even. *)
Definition low_is_even (SIEVE_LENGTH D m : Z) : bool :=
  let centerOdd := (Z.land D 1 =? 0) && (Z.land m 1 =? 1) in
  Bool.eqb centerOdd (Z.land SIEVE_LENGTH 1 =? 1).

(** Where the crossing off starts and its stride, for a prime whose
    [first] is inside the interval: for a prime above 2 an even first
    multiple is skipped and only every second multiple is visited. *)
Definition small_prime_start (SIEVE_LENGTH D m a_prime first : Z)
    (i_reindex_m : list Z) (composite_mii : list bool) : Res (Z * Z) :=
  let SIEVE_INTERVAL := u32 (2 * SIEVE_LENGTH + 1) in
  let shift := u32 a_prime in
  if 2 <? a_prime then
    let evenFromLow := Z.land first 1 =? 0 in
    let firstIsEven := Bool.eqb (low_is_even SIEVE_LENGTH D m) evenFromLow in
    let* first' :=
      if firstIsEven then
        let* _ :=
          if SIEVE_INTERVAL <=? first then Ok tt
          else
            let* idx := vget "i_reindex_m[first]" i_reindex_m first in
            let* c := vget "composite_mii[i_reindex_m[first]]" composite_mii idx in
            assert c "(first >= SIEVE_INTERVAL) || composite_mii[i_reindex_m[first]]" in
        Ok (u32 (first + a_prime))
      else Ok first in
    Ok (first', u32 (shift * 2))
  else Ok (first, shift).

(** The body of the loop over [p_and_r], with the action on each visited
    offset as a parameter ([mark_composite] in the sieve). *)
Definition small_prime_visit {St : Type} (SIEVE_LENGTH D m : Z) (i_reindex_m : list Z)
    (composite_mii : list bool) (body : St -> Z -> Res St) (s : St) (pr : Z * Z)
  : Res St :=
  let '(a_prime, base_r) := pr in
  let SIEVE_INTERVAL := u32 (2 * SIEVE_LENGTH + 1) in
  let first := small_prime_first SIEVE_LENGTH m a_prime base_r in
  let* _ := assert (first <? a_prime) "first < a_prime" in
  if first <? SIEVE_INTERVAL then
    let* (first', shift) :=
      small_prime_start SIEVE_LENGTH D m a_prime first i_reindex_m composite_mii in
    for_stride (S (Z.to_nat SIEVE_INTERVAL)) first' shift SIEVE_INTERVAL body s
  else Ok s.

Definition small_prime_crossoff (SIEVE_LENGTH D m : Z) (i_reindex_m : list Z)
    (composite_mii : list bool) (pr : Z * Z) : Res (list bool) :=
  small_prime_visit SIEVE_LENGTH D m i_reindex_m composite_mii
                    (mark_composite i_reindex_m) composite_mii pr.

(** The offsets the crossing off of one prime visits, in order. *)
Definition small_prime_offsets (SIEVE_LENGTH D m : Z) (i_reindex_m : list Z)
    (composite_mii : list bool) (pr : Z * Z) : Res (list Z) :=
  small_prime_visit SIEVE_LENGTH D m i_reindex_m composite_mii
                    (fun seen x => Ok (seen ++ [x])) [] pr.

(** The inner [for] over the prime iterator: the primes up to the
    threshold that are not handled elsewhere are collected with [K mod
    prime] until one reaches the next print point.  Returns the batch, the
    prime the loop stopped at and the iterator. *)
Fixpoint collect_small_primes (fuel : nat) (P D reindex_m_wheel K SMALL_THRESHOLD : Z)
    (print_at : Z) (it : Z) (p_and_r : list (Z * Z)) : Res (list (Z * Z) * Z * Z) :=
  match fuel with
  | O => Err Diverge
  | S fuel' =>
      let '(prime, it') := next_prime it in
      if prime <=? SMALL_THRESHOLD then
        if negb (D mod prime =? 0) && (prime <=? P) then
          collect_small_primes fuel' P D reindex_m_wheel K SMALL_THRESHOLD
                               print_at it' p_and_r
        else if reindex_m_wheel mod prime =? 0 then
          collect_small_primes fuel' P D reindex_m_wheel K SMALL_THRESHOLD
                               print_at it' p_and_r
        else
          let p_and_r' := p_and_r ++ [(u32 prime, u32 (K mod prime))] in
          if print_at <=? prime then Ok (p_and_r', prime, it')
          else collect_small_primes fuel' P D reindex_m_wheel K SMALL_THRESHOLD
                                    print_at it' p_and_r'
      else Ok (p_and_r, prime, it')
  end.

(** The loop over [valid_mi] for one batch of primes. *)
Definition small_primes_batch (config : Config) (valid_mi m_reindex : list Z)
    (reindex_m_wheel : Z) (i_reindex_wheel : list (list Z))
    (p_and_r : list (Z * Z)) (composite : list (list bool))
  : Res (list (list bool)) :=
  let D := u32 (d config) in
  let SIEVE_LENGTH := u32 (sieve_length config) in
  foldM (fun composite mi =>
           let* mii := vget "m_reindex[mi]" m_reindex mi in
           let* _ := assert (0 <=? mii) "mii >= 0" in
           let m := u64 (mstart config + mi) in
           let* i_reindex_m :=
             vget "i_reindex_wheel[m % reindex_m_wheel]" i_reindex_wheel
                  (m mod reindex_m_wheel) in
           let* composite_mii := vget "composite[mii]" composite mii in
           let* composite_mii' :=
             foldM (small_prime_crossoff SIEVE_LENGTH D m i_reindex_m)
                   p_and_r composite_mii in
           vset "composite[mii]" composite mii composite_mii')
        valid_mi composite.

(** The outer [while (prime <= SMALL_THRESHOLD)]. *)
Fixpoint small_primes_loop (fuel : nat) (config : Config) (K : Z)
    (valid_mi m_reindex : list Z) (reindex_m_wheel : Z)
    (i_reindex_wheel : list (list Z)) (SMALL_THRESHOLD : Z)
    (prime it : Z) (temp_stats : method2_stats) (composite : list (list bool))
  : Res (list (list bool)) :=
  match fuel with
  | O => Err Diverge
  | S fuel' =>
      if prime <=? SMALL_THRESHOLD then
        let* (p_and_r, prime', it') :=
          collect_small_primes (S (Z.to_nat SMALL_THRESHOLD))
            (u32 (p config)) (u32 (d config)) reindex_m_wheel K SMALL_THRESHOLD
            (next_print temp_stats) it [] in
        let* composite' :=
          small_primes_batch config valid_mi m_reindex reindex_m_wheel
                             i_reindex_wheel p_and_r composite in
        let temp_stats' :=
          if next_print temp_stats <=? prime'
          then method2_increment_print prime' (max_prime config) temp_stats
          else temp_stats in
        small_primes_loop fuel' config K valid_mi m_reindex reindex_m_wheel
                          i_reindex_wheel SMALL_THRESHOLD prime' it' temp_stats'
                          composite'
      else Ok composite
  end.

Definition method2_small_primes (config : Config) (K : Z)
    (valid_mi m_reindex : list Z) (reindex_m_wheel : Z)
    (i_reindex_wheel : list (list Z)) (SMALL_THRESHOLD : Z)
    (composite : list (list bool)) : Res (list (list bool)) :=
  small_primes_loop (S (Z.to_nat SMALL_THRESHOLD)) config K valid_mi m_reindex
                    reindex_m_wheel i_reindex_wheel SMALL_THRESHOLD
                    0 0 (new_method2_stats SMALL_THRESHOLD) composite.

(** ** The process and its surroundings *)

(** A row of the table [range], as [insert_range_db] writes it. *)
Record RangeRow : Type := mkRange {
  range_P : Z; range_D : Z; range_m_start : Z; range_m_inc : Z;
  range_sieve_length : Z; range_max_prime : Z; range_min_merit : float;
  range_num_m : Z; range_time_sieve : float
}.

(** The three prime phases of the sieve (ghost state: which of them ran
    to their end). *)
Inductive Phase : Type := SmallPrimes | MediumPrimes | LargePrimes.

Record World : Type := mkWorld {
  g_control_c : bool;                 (* the global flag of the SIGINT handler *)
  files : gmap string (list Z);       (* the files written *)
  range_table : gmap Z RangeRow;      (* the table range, by rid *)
  phases_done : list Phase
}.

Definition set_control_c (w : World) (b : bool) : World :=
  mkWorld b (files w) (range_table w) (phases_done w).
Definition write_file (w : World) (fn : string) (content : list Z) : World :=
  mkWorld (g_control_c w) (<[fn := content]> (files w)) (range_table w) (phases_done w).
Definition upsert_range (w : World) (rid : Z) (row : RangeRow) : World :=
  mkWorld (g_control_c w) (files w) (<[rid := row]> (range_table w)) (phases_done w).
Definition phase_done (w : World) (ph : Phase) : World :=
  mkWorld (g_control_c w) (files w) (range_table w) (phases_done w ++ [ph]).

(** What the sieve takes from code that is not under src/ and from the
    machine it runs on. *)
Record Env : Type := mkEnv {
  gen_unknown_fn : Config -> string;     (* Args::gen_unknown_fn(config, ".txt") *)
  config_hash : Config -> Z;             (* DB::config_hash *)
  thresholds : Z * Z;                    (* calculate_thresholds_method2 *)
  sieve_secs : float;                    (* the clock: seconds since the start *)
  range_insert_ok : bool;                (* whether sqlite3_exec succeeds *)
  sigints : Z -> nat;                    (* SIGINTs delivered while the large-prime
                                            loop works on a prime *)
  sigints_late : nat                     (* SIGINTs delivered after that loop *)
}.

(** How the process can stop: by a fault, or by [exit(code)]. *)
Inductive Halt : Type :=
| Faulted (f : Fault)
| Exited (code : Z).

Inductive Outcome (A : Type) : Type :=
| Returned (a : A)
| Halted (h : Halt).
Arguments Returned {A} a.
Arguments Halted {A} h.

(** Code that runs in the process: it reads and changes the world, and
    returns, aborts or exits. *)
Definition Run (A : Type) : Type := World -> Outcome A * World.

Definition ret {A} (a : A) : Run A := fun w => (Returned a, w).
Definition lift {A} (r : Res A) : Run A :=
  fun w => match r with
           | Ok a => (Returned a, w)
           | Err f => (Halted (Faulted f), w)
           end.
Definition exit {A} (code : Z) : Run A := fun w => (Halted (Exited code), w).
Definition bindR {A B} (m : Run A) (k : A -> Run B) : Run B :=
  fun w => match m w with
           | (Returned a, w') => k a w'
           | (Halted h, w') => (Halted h, w')
           end.
Definition modify (f : World -> World) : Run unit := fun w => (Returned tt, f w).

Notation "'run*' x ':=' m 'in' k" := (bindR m (fun x => k))
  (at level 10, x pattern, m at level 200, k at level 200).

(** A loop body either goes on to the next iteration or leaves the loop. *)
Inductive Flow (St : Type) : Type :=
| Continue (s : St)
| Break (s : St).
Arguments Continue {St} s.
Arguments Break {St} s.

(** At most [fuel] iterations of [body]; [Continue] when the fuel ran out. *)
Fixpoint loop_fuel {St : Type} (fuel : positive) (body : St -> Run (Flow St)) (s : St)
  : Run (Flow St) :=
  match fuel with
  | xH => body s
  | xO fuel' =>
      fun w => match loop_fuel fuel' body s w with
               | (Returned (Continue s'), w') => loop_fuel fuel' body s' w'
               | r => r
               end
  | xI fuel' =>
      fun w => match body s w with
               | (Returned (Continue s'), w') =>
                   match loop_fuel fuel' body s' w' with
                   | (Returned (Continue s''), w'') => loop_fuel fuel' body s'' w''
                   | r => r
                   end
               | r => r
               end
  end.

Definition while_loop {St : Type} (fuel : positive) (body : St -> Run (Flow St)) (s : St)
  : Run St :=
  fun w => match loop_fuel fuel body s w with
           | (Returned (Break s'), w') => (Returned s', w')
           | (Returned (Continue _), w') => (Halted (Faulted Diverge), w')
           | (Halted h, w') => (Halted h, w')
           end.

(** [signal_callback_handler] *)
Definition signal_callback_handler : Run unit :=
  fun w => if g_control_c w then (Halted (Exited 2), w)
           else (Returned tt, set_control_c w true).

Fixpoint deliver_sigints (n : nat) : Run unit :=
  match n with
  | O => ret tt
  | S n' => run* _ := signal_callback_handler in deliver_sigints n'
  end.

(** ** Set-up of [prime_gap_parallel]: the valid m and the reindexing *)

(** [valid_mi], [m_reindex] and [m_not_coprime]. *)
Definition index_valid_m (M_start M_inc D : Z) : list Z * list Z * list bool :=
  fold_left (fun '(valid_mi, m_reindex, m_not_coprime) mi =>
               if Z.gcd (u32 (M_start + mi)) D =? 1
               then (valid_mi ++ [mi],
                     <[Z.to_nat mi := size valid_mi]> m_reindex,
                     <[Z.to_nat mi := false]> m_not_coprime)
               else (valid_mi, m_reindex, m_not_coprime))
            (seqZ 0 M_inc)
            ([], replicate (Z.to_nat M_inc) (-1), replicate (Z.to_nat M_inc) true).

(** [coprime_composite]: the offsets whose distance to the centre has no
    factor in common with K. *)
Definition build_coprime_composite (P_primes : list Z) (D SIEVE_LENGTH : Z)
  : Res (list bool) :=
  let SIEVE_INTERVAL := u32 (2 * SIEVE_LENGTH + 1) in
  foldM (fun cc prime =>
           if negb (D mod prime =? 0) then
             let first := SIEVE_LENGTH mod prime in
             let* _ := assert ((0 <=? first) && (first <? prime))
                              "0 <= first && first < prime" in
             let* _ := assert ((SIEVE_LENGTH - first) mod prime =? 0)
                              "(SIEVE_LENGTH - first) % prime == 0" in
             for_stride (S (Z.to_nat SIEVE_INTERVAL)) first prime SIEVE_INTERVAL
                        (fun cc x => vset "coprime_composite[x]" cc x false) cc
           else Ok cc)
        P_primes (replicate (Z.to_nat SIEVE_INTERVAL) true).

(** [i_reindex] and [coprime_X]. *)
Definition build_i_reindex (coprime_composite : list bool) : list Z * list Z :=
  let '(i_reindex, coprime_X, _) :=
    fold_left (fun '(i_reindex, coprime_X, coprime_count) '(X, c) =>
                 if (c : bool)
                 then (i_reindex ++ [coprime_count + 1], coprime_X ++ [X],
                       coprime_count + 1)
                 else (i_reindex ++ [0], coprime_X, coprime_count))
              (zip (seqZ 0 (size coprime_composite)) coprime_composite)
              ([], [], 0) in
  (i_reindex, coprime_X).

(** [i_reindex_wheel[m_wheel]] and its count, for one residue. *)
Definition build_wheel_residue (coprime_composite : list bool)
    (K SL reindex_m_wheel m_wheel : Z) : list Z * Z :=
  let mod_center := u32 (m_wheel * (K mod reindex_m_wheel)) in
  let mod_low :=
    u32 (mod_center + reindex_m_wheel - SL mod reindex_m_wheel) mod reindex_m_wheel in
  fold_left (fun '(row, coprime_count) '(i, c) =>
               if (c : bool) && (Z.gcd (mod_low + i) reindex_m_wheel =? 1)
               then (row ++ [coprime_count + 1], coprime_count + 1)
               else (row ++ [0], coprime_count))
            (zip (seqZ 0 (size coprime_composite)) coprime_composite)
            ([], 0).

(** [i_reindex_wheel] and [i_reindex_wheel_count]: residues that share a
    factor with the wheel keep an empty vector and the count 0. *)
Definition build_i_reindex_wheel (coprime_composite : list bool)
    (K SL reindex_m_wheel : Z) : list (list Z) * list Z :=
  let rows :=
    map (fun m_wheel =>
           if 1 <? Z.gcd reindex_m_wheel m_wheel then ([], 0)
           else build_wheel_residue coprime_composite K SL reindex_m_wheel m_wheel)
        (seqZ 0 reindex_m_wheel) in
  (map fst rows, map snd rows).

(** The allocation of [composite]: one bitmap per valid m, bit 0 set. *)
Definition allocate_composite (M_start reindex_m_wheel : Z)
    (valid_mi i_reindex_wheel_count : list Z) : Res (list (list bool)) :=
  foldM (fun composite mi =>
           let m_wheel := u32 (M_start + mi) mod reindex_m_wheel in
           let* _ := assert (Z.gcd m_wheel reindex_m_wheel =? 1)
                            "gcd(m_wheel, reindex_m_wheel) == 1" in
           let* count := vget "i_reindex_wheel_count[m_wheel]"
                              i_reindex_wheel_count m_wheel in
           Ok (composite ++ [true :: replicate (Z.to_nat count) false]))
        valid_mi [].

(** Everything the phases share. *)
Record Sieve : Type := mkSieve {
  sv_K : Z;
  sv_LAST_PRIME : Z;
  sv_valid_mi : list Z;
  sv_m_reindex : list Z;
  sv_m_not_coprime : list bool;
  sv_coprime_composite : list bool;
  sv_i_reindex : list Z;
  sv_coprime_X : list Z;
  sv_reindex_m_wheel : Z;
  sv_i_reindex_wheel : list (list Z);
  sv_SMALL_THRESHOLD : Z;
  sv_MEDIUM_THRESHOLD : Z
}.

(** [prime_gap_parallel] up to the allocation of [composite]. *)
Definition sieve_setup (env : Env) (config : Config)
  : Res (Sieve * list (list bool)) :=
  let M_start := u32 (mstart config) in
  let M_inc := u32 (minc config) in
  let P := u32 (p config) in
  let D := u32 (d config) in
  let SL := u32 (sieve_length config) in
  let SIEVE_INTERVAL := u32 (2 * SL + 1) in
  let MAX_PRIME := max_prime config in
  let LAST_PRIME := prev_prime MAX_PRIME in
  let* _ := assert ((LAST_PRIME <=? MAX_PRIME) && (MAX_PRIME <? LAST_PRIME + 500))
                   "LAST_PRIME <= MAX_PRIME && LAST_PRIME + 500 > MAX_PRIME" in
  let P_primes := get_sieve_primes P in
  let* back := match last P_primes with
               | Some q => Ok q
               | None => Err (Undefined "P_primes.back()")
               end in
  let* _ := assert (back =? P) "P_primes.back() == P" in
  let K := K_of config in
  let '(valid_mi, m_reindex, m_not_coprime) := index_valid_m M_start M_inc D in
  let valid_ms := size valid_mi in
  let reindex_m_wheel := Z.gcd D (if SIEVE_INTERVAL <? 80000 then 30 else 6) in
  let* coprime_composite := build_coprime_composite P_primes D SL in
  let* centre := vget "coprime_composite[SL]" coprime_composite SL in
  let* _ := assert (negb centre) "coprime_composite[SL] == 0" in
  let '(i_reindex, coprime_X) := build_i_reindex coprime_composite in
  let '(i_reindex_wheel, i_reindex_wheel_count) :=
    build_i_reindex_wheel coprime_composite K SL reindex_m_wheel in
  let count_coprime_sieve := size coprime_X in
  let* _ := assert (count_coprime_sieve mod 2 =? 0) "count_coprime_sieve % 2 == 0" in
  let '(SMALL_THRESHOLD, MEDIUM_THRESHOLD) := thresholds env in
  let* _ := assert (SIEVE_INTERVAL <=? SMALL_THRESHOLD)
                   "SMALL_THRESHOLD >= SIEVE_INTERVAL" in
  let* _ := assert (SMALL_THRESHOLD <=? MEDIUM_THRESHOLD)
                   "MEDIUM_THRESHOLD >= SMALL_THRESHOLD" in
  let* _ := assert (MEDIUM_THRESHOLD <=? max_prime config)
                   "MEDIUM_THRESHOLD <= config.max_prime" in
  let* guess :=
    if 1 <? reindex_m_wheel then
      let* c1 := vget "i_reindex_wheel_count[1]" i_reindex_wheel_count 1 in
      Ok (valid_ms * (c1 + 1) / 8 / 1024 / 1024)
    else Ok (valid_ms * (count_coprime_sieve + 1) / 8 / 1024 / 1024) in
  let* _ := assert (guess <? 7 * 1024) "guess < 7 * 1024" in
  let* composite :=
    allocate_composite M_start reindex_m_wheel valid_mi i_reindex_wheel_count in
  Ok (mkSieve K LAST_PRIME valid_mi m_reindex m_not_coprime coprime_composite
              i_reindex coprime_X reindex_m_wheel i_reindex_wheel
              SMALL_THRESHOLD MEDIUM_THRESHOLD,
      composite).

(** ** Phase B: the medium primes *)

(** [composite[mii][i_reindex_wheel[m % reindex_m_wheel][X]] = true] *)
Definition mark_m_X (sv : Sieve) (M_start mi X : Z) (composite : list (list bool))
  : Res (list (list bool)) :=
  let m := M_start + mi in
  let* mii := vget "m_reindex[mi]" (sv_m_reindex sv) mi in
  let* _ := assert (0 <=? mii) "mii >= 0" in
  let* i_reindex_m :=
    vget "i_reindex_wheel[m % reindex_m_wheel]" (sv_i_reindex_wheel sv)
         (m mod sv_reindex_m_wheel sv) in
  let* composite_mii := vget "composite[mii]" composite mii in
  let* composite_mii' := mark_composite i_reindex_m composite_mii X in
  vset "composite[mii]" composite mii composite_mii'.

(** The work of one medium prime: for every offset coprime to K, the m
    at which the prime divides the number there. *)
Definition medium_prime_work (sv : Sieve) (config : Config) (prime : Z)
    (composite : list (list bool)) : Res (list (list bool)) :=
  let M_start := u32 (mstart config) in
  let M_inc := u32 (minc config) in
  let SIEVE_LENGTH := u32 (sieve_length config) in
  let K_odd := Z.odd (sv_K sv) in
  let base_r := sv_K sv mod prime in
  let inv_K := Z.invmod base_r prime in
  let* _ := assert (Z.gcd base_r prime =? 1) "mpz_invert(test, test, test2) > 0" in
  let* _ := assert ((inv_K * base_r) mod prime =? 1) "(inv_K * base_r) % prime == 1" in
  let m_start_shift := i32 ((prime - M_start mod prime) mod prime) in
  let M_X_parity := xorb (Z.odd M_start) (Z.odd SIEVE_LENGTH) in
  foldM (fun composite X =>
           let dist := X - SIEVE_LENGTH in
           let mi_0 := u64 (u64 (prime - dist) * inv_K + m_start_shift) mod prime in
           let* _ := assert (K_odd || Z.odd dist) "K_odd || (dist&1)" in
           let shift := u32 ((1 + (if K_odd then 1 else 0)) * prime) in
           let mi_0 :=
             if K_odd && Bool.eqb (Z.odd (dist + mi_0)) M_X_parity
             then mi_0 + prime else mi_0 in
           for_stride (S (Z.to_nat M_inc)) mi_0 shift M_inc
             (fun composite mi =>
                let* not_coprime := vget "m_not_coprime[mi]" (sv_m_not_coprime sv) mi in
                if (not_coprime : bool) then Ok composite
                else mark_m_X sv M_start mi X composite)
             composite)
        (sv_coprime_X sv) composite.

(** The state of the two loops over the second prime iterator. *)
Record LoopState : Type := mkLoop {
  ls_prime : Z;
  ls_it : Z;
  ls_stats : method2_stats;
  ls_composite : list (list bool);
  ls_config : Config
}.

Fixpoint medium_primes_loop (fuel : nat) (sv : Sieve) (st : LoopState) : Res LoopState :=
  match fuel with
  | O => Err Diverge
  | S fuel' =>
      let prime := ls_prime st in
      if prime <=? sv_MEDIUM_THRESHOLD sv then
        let* composite' := medium_prime_work sv (ls_config st) prime (ls_composite st) in
        let stats' :=
          if next_print (ls_stats st) <=? prime
          then method2_increment_print prime (sv_LAST_PRIME sv) (ls_stats st)
          else ls_stats st in
        let '(prime', it') := next_prime (ls_it st) in
        medium_primes_loop fuel' sv
          (mkLoop prime' it' stats' composite' (ls_config st))
      else Ok st
  end.

(** ** Phase C: the large primes *)

(** Modelled from the spec: [modulo_search_euclid_all_large] is in
    modulo_search.cpp, which is not under src/.  It calls back, in
    ascending order, for every [mi] in [[0, M_inc)] with
    [((M_start + mi) * base_r + SL) mod prime <= 2 * SL], with that residue
    as [first]. *)
Definition modulo_search_euclid_all_large (M_start M_inc SL prime base_r : Z)
  : list (Z * Z) :=
  omap (fun mi =>
          let first := ((M_start + mi) * base_r + SL) mod prime in
          if first <=? 2 * SL then Some (mi, first) else None)
       (seqZ 0 M_inc).

(** The callback: the cheap tests on the parity and on 3, 5 and 7 first,
    then the bit of the offset. *)
Definition large_prime_callback (sv : Sieve) (config : Config)
    (composite : list (list bool)) (hit : Z * Z) : Res (list (list bool)) :=
  let '(mi, first) := hit in
  let M_start := u32 (mstart config) in
  let M_inc := u32 (minc config) in
  let D := u32 (d config) in
  let SL := u32 (sieve_length config) in
  let K := sv_K sv in
  let* _ := assert (mi <? M_inc) "mi < M_inc" in
  let m := u32 (M_start + mi) in
  if Z.odd K && (Z.land m 1 =? 0) then Ok composite
  else
    let* not_coprime := vget "m_not_coprime[mi]" (sv_m_not_coprime sv) mi in
    if (not_coprime : bool) then Ok composite
    else
      let* _ := assert (first <=? 2 * SL) "first <= 2*SL" in
      let first := 2 * SL - first in
      let dist := first - SL in
      if (D mod 2 =? 0) && Z.odd dist then Ok composite
      else if (D mod 3 =? 0) && (Z.rem (dist + u32 (K mod 3 * m)) 3 =? 0) then Ok composite
      else if (D mod 5 =? 0) && (Z.rem (dist + u32 (K mod 5 * m)) 5 =? 0) then Ok composite
      else if (D mod 7 =? 0) && (Z.rem (dist + u32 (K mod 7 * m)) 7 =? 0) then Ok composite
      else
        let* coprime := vget "coprime_composite[first]" (sv_coprime_composite sv) first in
        if negb coprime then Ok composite
        else mark_m_X sv M_start mi first composite.

Definition large_prime_work (sv : Sieve) (config : Config) (prime : Z)
    (composite : list (list bool)) : Res (list (list bool)) :=
  let base_r := sv_K sv mod prime in
  foldM (large_prime_callback sv config)
        (modulo_search_euclid_all_large (u32 (mstart config)) (u32 (minc config))
           (u32 (sieve_length config)) prime base_r)
        composite.

(** What the loop does with the cancel flag at a print point, after the
    counters were printed: nothing when the flag is not set or the prime is
    the last one; below a million the process exits; otherwise [max_prime]
    is cut to the million below the prime and the loop is left. *)
Definition cancel_check (prime LAST_PRIME : Z) (config : Config)
  : Run (Flow Config) :=
  fun w =>
    if g_control_c w && negb (prime =? LAST_PRIME) then
      if prime <? 1000000 then (Halted (Exited 2), w)
      else
        let config := set_unknown_filename config "" in
        let config := set_max_prime config (prime - prime mod 1000000) in
        (Returned (Break config), w)
    else (Returned (Continue config), w).

(** One iteration of [for (; prime <= MAX_PRIME; prime = it.next_prime())];
    the loop is left when its condition fails, too. *)
Definition large_prime_body (env : Env) (sv : Sieve) (MAX_PRIME : Z) (st : LoopState)
  : Run (Flow LoopState) :=
  let prime := ls_prime st in
  if prime <=? MAX_PRIME then
    run* _ := deliver_sigints (sigints env prime) in
    run* composite' :=
      lift (large_prime_work sv (ls_config st) prime (ls_composite st)) in
    let '(prime', it') := next_prime (ls_it st) in
    if next_print (ls_stats st) <=? prime then
      let stats' := method2_increment_print prime (sv_LAST_PRIME sv) (ls_stats st) in
      run* flow := cancel_check prime (sv_LAST_PRIME sv) (ls_config st) in
      match flow with
      | Break config' => ret (Break (mkLoop prime (ls_it st) stats' composite' config'))
      | Continue config' =>
          ret (Continue (mkLoop prime' it' stats' composite' config'))
      end
    else ret (Continue (mkLoop prime' it' (ls_stats st) composite' (ls_config st)))
  else ret (Break st).

Definition large_primes_loop (env : Env) (sv : Sieve) (MAX_PRIME : Z) (st : LoopState)
  : Run LoopState :=
  while_loop (Z.to_pos (MAX_PRIME + 2)) (large_prime_body env sv MAX_PRIME) st.

(** ** After the loops: the unknown file and the range row *)

Definition insert_range_db (env : Env) (config : Config) (num_rows : Z)
    (time_sieve : float) : Run unit :=
  if range_insert_ok env then
    modify (fun w =>
      let rid := config_hash env config in
      match range_table w !! rid with
      | Some row =>
          upsert_range w rid
            (mkRange (range_P row) (range_D row) (range_m_start row)
                     (range_m_inc row) (range_sieve_length row)
                     (range_max_prime row) (range_min_merit row)
                     (range_num_m row) time_sieve)
      | None =>
          upsert_range w rid
            (mkRange (p config) (d config) (mstart config) (minc config)
                     (sieve_length config) (max_prime config) (min_merit config)
                     num_rows time_sieve)
      end)
  else exit 1.

Definition save_and_record (env : Env) (sv : Sieve) (st : LoopState) : Run unit :=
  let config := ls_config st in
  if negb (save_unknowns config =? 0) then
    run* content :=
      lift (save_unknowns_method2 config (sv_valid_mi sv) (sv_m_reindex sv)
              (sv_i_reindex sv) (sv_reindex_m_wheel sv) (sv_i_reindex_wheel sv)
              (ls_composite st)) in
    run* _ := modify (fun w => write_file w (gen_unknown_fn env config) content) in
    insert_range_db env config (size (sv_valid_mi sv)) (sieve_secs env)
  else ret tt.

(** The code after the loop of the large primes. *)
Definition after_large_primes (env : Env) (sv : Sieve) (st : LoopState) : Run Config :=
  run* _ := modify (fun w => phase_done w LargePrimes) in
  run* _ := deliver_sigints (sigints_late env) in
  run* _ := save_and_record env sv st in
  ret (ls_config st).

(** From the installation of the SIGINT handler to the end of
    [prime_gap_parallel]. *)
Definition large_primes_and_save (env : Env) (sv : Sieve) (MAX_PRIME : Z)
    (st : LoopState) : Run Config :=
  run* st' := large_primes_loop env sv MAX_PRIME st in
  after_large_primes env sv st'.

(** ** [prime_gap_parallel] *)

(** The code of [prime_gap_parallel] below the loop over the slices of
    the small primes: the second prime iterator, the medium primes, the
    large primes and the saving. *)
Definition medium_and_large_primes (env : Env) (config : Config) (sv : Sieve)
    (stats : method2_stats) (composite : list (list bool)) : Run Config :=
  let MAX_PRIME := max_prime config in
  let '(prime, it) := next_prime (sv_SMALL_THRESHOLD sv) in
  run* _ := lift (assert (sv_SMALL_THRESHOLD sv <? prime) "prime > SMALL_THRESHOLD") in
  run* _ := lift (assert (u32 (2 * u32 (sieve_length config) + 1) <? prime)
                         "SIEVE_INTERVAL < prime") in
  run* st :=
    lift (medium_primes_loop (S (Z.to_nat (sv_MEDIUM_THRESHOLD sv))) sv
            (mkLoop prime it stats composite config)) in
  run* _ := modify (fun w => phase_done w MediumPrimes) in
  large_primes_and_save env sv MAX_PRIME st.

Definition prime_gap_parallel (env : Env) (config : Config) : Run Config :=
  run* (sv, composite) := lift (sieve_setup env config) in
  let stats := new_method2_stats (sv_SMALL_THRESHOLD sv) in
  (* THREADS = 1: the one slice holds every valid mi, and the loop over
     the slices runs once *)
  run* composite :=
    lift (method2_small_primes config (sv_K sv) (sv_valid_mi sv) (sv_m_reindex sv)
            (sv_reindex_m_wheel sv) (sv_i_reindex_wheel sv)
            (sv_SMALL_THRESHOLD sv) composite) in
  run* _ := modify (fun w => phase_done w SmallPrimes) in
  run* _ := exit (A := unit) 1 in
  medium_and_large_primes env config sv stats composite.

(* ================================================================== *)
(** * The gap statistics (gap_stats.cpp) *)
(* ================================================================== *)

(** ** Loops that can be left early *)

(** [for (x : l) body], where [body] may [break]. *)
Fixpoint for_each {A St : Type} (body : St -> A -> Res (Flow St)) (l : list A) (s : St)
  : Res St :=
  match l with
  | [] => Ok s
  | x :: l' =>
      let* r := body s x in
      match r with
      | Continue s' => for_each body l' s'
      | Break s' => Ok s'
      end
  end.

(** At most [fuel] iterations of a loop without effects on the world. *)
Fixpoint loop_res {St : Type} (fuel : positive) (body : St -> Res (Flow St)) (s : St)
  : Res (Flow St) :=
  match fuel with
  | xH => body s
  | xO fuel' =>
      match loop_res fuel' body s with
      | Ok (Continue s') => loop_res fuel' body s'
      | r => r
      end
  | xI fuel' =>
      match body s with
      | Ok (Continue s') =>
          match loop_res fuel' body s' with
          | Ok (Continue s'') => loop_res fuel' body s''
          | r => r
          end
      | r => r
      end
  end.

(** ** The constants *)

Definition MAX_GAP : Z := 1000000.
(** [std::numeric_limits<float>::max()] *)
Definition GAP_INF : float := 0x1.fffffep+127%float.
Definition MISSING_GAPS_LOW : Z := 113326.
Definition MISSING_GAPS_HIGH : Z := 132928.
Definition DOUBLE_NTH_PRIME_CUTOFF : float := 1e-13%float.

(** What the statistics take from libm and from gap_common.cpp:
    [calc_log_K(config)] (and the [K_log] of [K_stats]), [log] on the
    integers it is applied to, [exp(GAMMA)], and [Args::is_rle_unknowns]. *)
Record StatsEnv : Type := mkStatsEnv {
  calc_log_K : Config -> float;
  flog : Z -> float;
  exp_GAMMA : float;
  is_rle_unknowns : list Z -> bool
}.

(** Conversion of a [float] or [double] to [size_t]: the fraction is cut
    off; a value that is negative, not a number or too large has no
    defined result. *)
Definition trunc_to_size (x : float) : Res Z :=
  match Prim2SF x with
  | S754_zero _ => Ok 0
  | S754_finite false m e =>
      let v := if 0 <=? e then Z.pos m * 2 ^ e else Z.pos m / 2 ^ (- e) in
      if v <? 2 ^ 64 then Ok v else Err (Undefined "float to size_t conversion")
  | S754_finite true m e =>
      let v := if 0 <=? e then Z.pos m * 2 ^ e else Z.pos m / 2 ^ (- e) in
      if v =? 0 then Ok 0 else Err (Undefined "float to size_t conversion")
  | _ => Err (Undefined "float to size_t conversion")
  end.

(** ** [main] *)

(** Where [main] goes. *)
Inductive Dispatch : Type :=
| ShowUsage                (* return 1 *)
| RangeAlreadyProcessed    (* return 1 *)
| ProbRecordVsPlimit       (* prob_record_vs_plimit(config); return 0 *)
| PrimeGapStats.           (* prime_gap_stats(config); return 0 *)

(** [already_processed] is the answer of [is_range_already_processed],
    a query to the database. *)
Definition stats_main (config : Config) (already_processed : bool) : Dispatch :=
  if valid config =? 0 then ShowUsage
  else if negb (save_unknowns config =? 0) && already_processed
  then RangeAlreadyProcessed
  else if (minc config =? 1) && negb (mstart config =? 1) then ProbRecordVsPlimit
  else PrimeGapStats.

(** ** The record table *)

(** [get_record_gaps]: the rows (gapsize, merit) of the table [gaps]. *)
Definition get_record_gaps (config : Config) (rows : list (Z * float)) : list float :=
  let sieve_interval := u32 (2 * sieve_length config + 1) in
  let records_size := Z.max MAX_GAP sieve_interval in
  (* [records->size()] is [records_size] throughout *)
  fold_left (fun records '(gap, merit) =>
               let gap := u64 gap in
               if gap <? records_size
               then <[Z.to_nat gap := to_float (of_int gap / merit)]> records
               else records)
            rows (replicate (Z.to_nat records_size) GAP_INF).

(** [std::is_sorted(begin, end)] *)
Fixpoint is_sorted (l : list Z) : bool :=
  match l with
  | a :: (b :: _) as l' => negb (b <? a) && is_sorted l'
  | _ => true
  end.

(** The loop of [load_possible_records]: [g] is the loop variable and
    [records_size] is [records.size()]. *)
Definition possible_record_step (N_log : float) (records : list float)
    (records_size : Z) (st : Z * list Z) : Res (Flow (Z * list Z)) :=
  let '(g, poss_record_gaps) := st in
  if g <? records_size then
    if fgt (of_int g / N_log) 35 then Ok (Break st)
    else
      let* r := vget "records[g]" records g in
      Ok (Continue (g + 2, if fgt r N_log then poss_record_gaps ++ [u32 g]
                           else poss_record_gaps))
  else Ok (Break st).

Definition load_possible_records (N_log : float) (records : list float)
    (poss_record_gaps : list Z) : Res (list Z) :=
  let records_size := size records in
  let* r := loop_res (Z.to_pos (records_size + 1))
                     (possible_record_step N_log records records_size)
                     (2, poss_record_gaps) in
  let poss_record_gaps := match r with Continue st | Break st => snd st end in
  let* _ := assert (is_sorted poss_record_gaps)
                   "is_sorted(poss_record_gaps.begin(), poss_record_gaps.end())" in
  let* front := match poss_record_gaps with
                | g :: _ => Ok g
                | [] => Err (Undefined "poss_record_gaps.front()")
                end in
  let* _ := assert (front <=? MISSING_GAPS_LOW)
                   "poss_record_gaps.front() <= MISSING_GAPS_LOW" in
  Ok poss_record_gaps.

(** ** The probability tables *)

Record ProbNth : Type := mkProbNth {
  prime_nth_sieve : list float;
  great_nth_sieve : list float;
  combined_sieve : list float;
  wheel_d : Z;
  extended_record_high : gmap Z (list float);
  extended_extended_record : gmap Z float;
  average_coprime : float;
  prob_greater_extended : float
}.

Definition nth_prob_or_zero (prob_nth : list float) (nth : Z) : float :=
  match prob_nth !! Z.to_nat nth with
  | Some x => x
  | None => 0%float
  end.

(** A vector of [float] holds at most 2^61 elements. *)
Definition max_floats : positive := Z.to_pos (2 ^ 61).

Definition length_error {A} : Res A :=
  Err (OutOfRange "vector::push_back: the vector cannot grow").

(** [prob_nth_prime]: the state is (prob_still_prime, prob_prime_nth, prob_great_nth). *)
Definition prob_nth_prime (prob_prime : float)
    (prob_prime_nth prob_great_nth : list float) : Res (list float * list float) :=
  let* r :=
    loop_res max_floats
      (fun '(prob_still_prime, prob_prime_nth, prob_great_nth) =>
         if fgt prob_still_prime DOUBLE_NTH_PRIME_CUTOFF then
           Ok (Continue ((prob_still_prime * (1 - prob_prime))%float,
                         prob_prime_nth ++ [to_float (prob_still_prime * prob_prime)],
                         prob_great_nth ++ [to_float prob_still_prime]))
         else Ok (Break (prob_still_prime, prob_prime_nth, prob_great_nth)))
      (1%float, prob_prime_nth, prob_great_nth) in
  match r with
  | Break (_, prob_prime_nth, prob_great_nth) => Ok (prob_prime_nth, prob_great_nth)
  | Continue _ => length_error
  end.

(** [prob_combined_gap] *)
Definition prob_combined_gap (prob_prime : float) (prob_combined : list float)
  : Res (list float) :=
  let* r :=
    loop_res max_floats
      (fun '(prob, prob_combined) =>
         if fgt prob 2.5e-16 then
           Ok (Continue ((prob * (1 - prob_prime))%float, prob_combined ++ [to_float prob]))
         else Ok (Break (prob, prob_combined)))
      ((prob_prime * prob_prime)%float, prob_combined) in
  match r with
  | Break (_, prob_combined) => Ok prob_combined
  | Continue _ => length_error
  end.

(** ** [prob_extended_gap] *)

Definition count_true (l : list bool) : Z := size (List.filter (fun b => b) l).

(** [is_coprime]: the distances below [2 * SL] with no factor in common
    with K. *)
Definition sieve_is_coprime (K_primes : list Z) (d EXT_SIZE : Z) : Res (list bool) :=
  foldM (fun is_coprime prime =>
           if d mod prime =? 0 then Ok is_coprime
           else for_stride (S (Z.to_nat EXT_SIZE)) 0 prime EXT_SIZE
                  (fun v i => vset "is_coprime[i]" v i false) is_coprime)
        K_primes (replicate (Z.to_nat EXT_SIZE) true).

(** The loop over the wheel primes 2, 3, 5, 7: [wheel], the corrected
    probability and [k_mod_p]. *)
Definition build_wheel (K_primes : list Z) (d : Z) (prob_prime_coprime : float)
  : Z * float * gmap Z Z :=
  fold_left (fun '(wheel, prob_prime_coprime, k_mod_p) p =>
               if d mod p =? 0 then
                 let k_mod :=
                   fold_left (fun k_mod k =>
                                if negb (d mod k =? 0) then u32 (k_mod * k) mod p
                                else k_mod)
                             K_primes 1 in
                 (u32 (wheel * p),
                  (prob_prime_coprime / (1 - 1 / of_int p))%float,
                  <[p := k_mod]> k_mod_p)
               else (wheel, prob_prime_coprime, k_mod_p))
            [2; 3; 5; 7] (1, prob_prime_coprime, ∅).

(** [is_coprime_m]: the multiples of the wheel primes struck out for the
    residue [m]. *)
Definition wheel_is_coprime (is_coprime : list bool) (d EXT_SIZE m : Z)
    (k_mod_p : gmap Z Z) : Res (list bool) :=
  foldM (fun is_coprime_m p =>
           if negb (d mod p =? 0) then Ok is_coprime_m
           else
             let first := u32 (m * default 0 (k_mod_p !! p)) mod p in
             for_stride (S (Z.to_nat EXT_SIZE)) (p - first) p EXT_SIZE
               (fun v i => vset "is_coprime_m[i]" v i false) is_coprime_m)
        [2; 3; 5; 7] is_coprime.

(** The first loop over the residues: [coprime_ms] and the two sums. *)
Definition build_coprime_ms (config : Config) (is_coprime : list bool)
    (SL EXT_SIZE wheel : Z) (k_mod_p : gmap Z Z)
  : Res (gmap Z (list bool) * float * float) :=
  foldM (fun '(coprime_ms, average_inner_coprime, average_extended_coprime) m =>
           if (minc config =? 1)
              && negb (mstart config mod wheel =? m)
              && negb (mstart config mod wheel =? u32 (wheel - m))
           then Ok (coprime_ms, average_inner_coprime, average_extended_coprime)
           else if 1 <? Z.gcd m wheel
           then Ok (coprime_ms, average_inner_coprime, average_extended_coprime)
           else
             let* is_coprime_m :=
               wheel_is_coprime is_coprime (d config) EXT_SIZE m k_mod_p in
             let inner_coprime := count_true (take (Z.to_nat SL) is_coprime_m) in
             let extended_coprime := count_true (drop (Z.to_nat SL) is_coprime_m) in
             Ok (<[m := is_coprime_m]> coprime_ms,
                 to_float (average_inner_coprime + to_float (of_int inner_coprime)),
                 to_float (average_extended_coprime
                           + to_float (of_int extended_coprime))))
        (seqZ 0 wheel) (∅, 0%float, 0%float).

(** [count_coprime_m] and [extended_coprime]: the running count of the
    coprime distances above [SL], and those distances. *)
Definition count_extended (is_coprime_m : list bool) (SL EXT_SIZE : Z)
  : Res (list Z * list Z) :=
  let* (count_coprime_m, extended_coprime, _) :=
    foldM (fun '(count_coprime_m, extended_coprime, count) x =>
             let* c := vget "is_coprime_m[x]" is_coprime_m x in
             let count' := count + (if (c : bool) then 1 else 0) in
             let* count_coprime_m' :=
               vset "count_coprime_m[x]" count_coprime_m x count' in
             Ok (count_coprime_m',
                 if c then extended_coprime ++ [x] else extended_coprime,
                 count'))
          (seqZ (SL + 1) (EXT_SIZE - SL - 1))
          (replicate (Z.to_nat EXT_SIZE) 0, [], 0) in
  Ok (count_coprime_m, extended_coprime).

(** The sum over the possible record gaps for one [gap_prev]. *)
Definition extended_record_sum (SL gap_prev : Z) (poss_record_gaps : list Z)
    (is_coprime_m : list bool) (count_coprime_m : list Z)
    (prob_prime_nth_out : list float) : Res float :=
  for_each (fun prob_record record_gap =>
              let dist := u32 (record_gap - gap_prev) in
              if dist <=? SL then Ok (Continue prob_record)
              else if size is_coprime_m <=? dist then Ok (Break prob_record)
              else
                let* c := vget "is_coprime_m[dist]" is_coprime_m dist in
                if negb c then Ok (Continue prob_record)
                else
                  let* num_coprime := vget "count_coprime_m[dist]" count_coprime_m dist in
                  if size prob_prime_nth_out <=? num_coprime then Ok (Break prob_record)
                  else
                    let* pn := vget "prob_prime_nth_out[num_coprime]"
                                    prob_prime_nth_out num_coprime in
                    Ok (Continue (prob_record + pn)%float))
           poss_record_gaps 0%float.

(** [prob_extended_record]: for every [gap_prev] in [[1, SL]], not a
    number where the distance cannot hold a prime on the previous side. *)
Definition extended_record_row (SL EXT_SIZE MIN_RECORD : Z) (poss_record_gaps : list Z)
    (is_coprime_m is_coprime_m_prev : list bool) (count_coprime_m : list Z)
    (prob_prime_nth_out : list float) : Res (list float) :=
  foldM (fun prob_extended_record gap_prev =>
           let* c := vget "is_coprime_m_prev[gap_prev]" is_coprime_m_prev gap_prev in
           if negb c then
             vset "prob_extended_record[gap_prev]" prob_extended_record gap_prev nan
           else if gap_prev + EXT_SIZE <? MIN_RECORD then Ok prob_extended_record
           else
             let* prob_record :=
               extended_record_sum SL gap_prev poss_record_gaps is_coprime_m
                                   count_coprime_m prob_prime_nth_out in
             let* _ := assert (fge prob_record 0 && PrimFloat.ltb prob_record 1)
                              "prob_record >= 0 && prob_record < 1" in
             vset "prob_extended_record[gap_prev]" prob_extended_record gap_prev
                  (to_float prob_record))
        (seqZ 1 SL) (replicate (Z.to_nat (SL + 1)) 0%float).

(** [while (max_e_c_i && gap_prev + extended_coprime[max_e_c_i] > MAX_RECORD)] *)
Fixpoint lower_max (fuel : nat) (extended_coprime : list Z) (gap_prev MAX_RECORD : Z)
    (max_e_c_i : Z) : Res Z :=
  match fuel with
  | O => Err Diverge
  | S fuel' =>
      if max_e_c_i =? 0 then Ok 0
      else
        let* e := vget "extended_coprime[max_e_c_i]" extended_coprime max_e_c_i in
        if MAX_RECORD <? gap_prev + e
        then lower_max fuel' extended_coprime gap_prev MAX_RECORD (max_e_c_i - 1)
        else Ok max_e_c_i
  end.

(** [while (min_e_c_i && gap_prev + extended_coprime[min_e_c_i - 1] >= MIN_RECORD)] *)
Fixpoint lower_min (fuel : nat) (extended_coprime : list Z) (gap_prev MIN_RECORD : Z)
    (min_e_c_i : Z) : Res Z :=
  match fuel with
  | O => Err Diverge
  | S fuel' =>
      if min_e_c_i =? 0 then Ok 0
      else
        let* e := vget "extended_coprime[min_e_c_i - 1]" extended_coprime
                       (min_e_c_i - 1) in
        if MIN_RECORD <=? gap_prev + e
        then lower_min fuel' extended_coprime gap_prev MIN_RECORD (min_e_c_i - 1)
        else Ok min_e_c_i
  end.

(** The four assertions on the window [[min_e_c_i, max_e_c_i]]. *)
Definition window_asserts (extended_coprime : list Z)
    (gap_prev MIN_RECORD MAX_RECORD min_e_c_i max_e_c_i : Z) : Res unit :=
  let* e := vget "extended_coprime[min_e_c_i]" extended_coprime min_e_c_i in
  let* _ := assert (MIN_RECORD <=? gap_prev + e)
                   "gap_prev + extended_coprime[min_e_c_i] >= MIN_RECORD" in
  let* e := vget "extended_coprime[max_e_c_i]" extended_coprime max_e_c_i in
  let* _ := assert (gap_prev + e <=? MAX_RECORD)
                   "gap_prev + extended_coprime[max_e_c_i] <= MAX_RECORD" in
  let* _ :=
    if min_e_c_i =? 0 then Ok tt
    else
      let* e := vget "extended_coprime[min_e_c_i-1]" extended_coprime (min_e_c_i - 1) in
      assert (gap_prev + e <? MIN_RECORD)
             "gap_prev + extended_coprime[min_e_c_i-1] < MIN_RECORD" in
  if max_e_c_i =? u64 (size extended_coprime - 1) then Ok tt
  else
    let* e := vget "extended_coprime[max_e_c_i+1]" extended_coprime (max_e_c_i + 1) in
    assert (MAX_RECORD <? gap_prev + e)
           "gap_prev + extended_coprime[max_e_c_i+1] > MAX_RECORD".

(** [prob_e2_record]: both primes beyond the sieve.  The state of the
    loop over [gap_prev] is (prob_e2_record, min_e_c_i, max_e_c_i,
    extended_coprimes_prev). *)
Definition extended2_record (SL EXT_SIZE MIN_RECORD MAX_RECORD : Z) (N_log : float)
    (records : list float) (is_coprime_m_prev : list bool) (extended_coprime : list Z)
    (prob_prime_nth_out prob_great_nth_out : list float) : Res float :=
  let fuel := S (length extended_coprime) in
  let* (prob_e2_record, _, _, _) :=
    for_each
      (fun '(prob_e2_record, min_e_c_i, max_e_c_i, extended_coprimes_prev) gap_prev =>
         let st := (prob_e2_record, min_e_c_i, max_e_c_i, extended_coprimes_prev) in
         let* c := vget "is_coprime_m_prev[gap_prev]" is_coprime_m_prev gap_prev in
         if negb c then Ok (Continue st)
         else
           let extended_coprimes_prev := extended_coprimes_prev + 1 in
           if size prob_prime_nth_out <=? extended_coprimes_prev
           then Ok (Break (prob_e2_record, min_e_c_i, max_e_c_i, extended_coprimes_prev))
           else
             let* max_e_c_i :=
               lower_max fuel extended_coprime gap_prev MAX_RECORD max_e_c_i in
             let* min_e_c_i :=
               lower_min fuel extended_coprime gap_prev MIN_RECORD min_e_c_i in
             if max_e_c_i =? 0 then
               let* _ := assert (min_e_c_i =? 0) "min_e_c_i == 0" in
               let* _ := assert (1 <=? extended_coprimes_prev)
                                "extended_coprimes_prev >= 1" in
               let* g := vget "prob_great_nth_out[extended_coprimes_prev - 1]"
                              prob_great_nth_out (extended_coprimes_prev - 1) in
               Ok (Break ((prob_e2_record + g)%float, min_e_c_i, max_e_c_i,
                          extended_coprimes_prev))
             else
               let* _ := window_asserts extended_coprime gap_prev MIN_RECORD MAX_RECORD
                                        min_e_c_i max_e_c_i in
               let max_i := Z.min max_e_c_i
                              (size prob_prime_nth_out - extended_coprimes_prev + 1) in
               let* prob_e_e :=
                 foldM (fun prob_e_e i =>
                          let* e := vget "extended_coprime[i]" extended_coprime i in
                          let gap := gap_prev + e in
                          let* r := vget "records[gap]" records gap in
                          if fgt r N_log then
                            let* pn := vget "prob_prime_nth_out[i]" prob_prime_nth_out i in
                            Ok (to_float (prob_e_e + pn))
                          else Ok prob_e_e)
                       (seqZ min_e_c_i (max_i - min_e_c_i)) 0%float in
               let prob_e_e :=
                 to_float (prob_e_e + nth_prob_or_zero prob_great_nth_out max_i) in
               let term :=
                 to_float (prob_e_e
                           * nth_prob_or_zero prob_prime_nth_out extended_coprimes_prev) in
               Ok (Continue ((prob_e2_record + term)%float, min_e_c_i, max_e_c_i,
                             extended_coprimes_prev)))
      (seqZ (SL + 1) (EXT_SIZE - SL - 1))
      (0%float, size extended_coprime, u64 (size extended_coprime - 1), 0) in
  Ok prob_e2_record.

(** [coprime_ms.at(m)] *)
Definition map_at {V} (what : string) (m : gmap Z V) (k : Z) : Res V :=
  match m !! k with
  | Some v => Ok v
  | None => Err (OutOfRange what)
  end.

(** The second loop over the residues: the two tables. *)
Definition build_extended (config : Config) (N_log : float) (records : list float)
    (poss_record_gaps : list Z) (SL EXT_SIZE MIN_RECORD MAX_RECORD wheel : Z)
    (coprime_ms : gmap Z (list bool))
    (prob_prime_nth_out prob_great_nth_out : list float)
  : Res (gmap Z (list float) * gmap Z float) :=
  foldM (fun '(record_high, extended_record) m =>
           if (minc config =? 1)
              && negb (mstart config mod wheel =? m)
              && (negb (mstart config mod wheel =? m)
                  && negb (mstart config mod wheel =? u32 (wheel - m)))
           then Ok (record_high, extended_record)
           else if 1 <? Z.gcd m wheel then Ok (record_high, extended_record)
           else
             let* is_coprime_m := map_at "coprime_ms.at(m)" coprime_ms m in
             let* is_coprime_m_prev :=
               map_at "coprime_ms.at(wheel - m)" coprime_ms (u32 (wheel - m)) in
             let* (count_coprime_m, extended_coprime) :=
               count_extended is_coprime_m SL EXT_SIZE in
             let* prob_extended_record :=
               extended_record_row SL EXT_SIZE MIN_RECORD poss_record_gaps
                 is_coprime_m is_coprime_m_prev count_coprime_m prob_prime_nth_out in
             let* prob_e2_record :=
               extended2_record SL EXT_SIZE MIN_RECORD MAX_RECORD N_log records
                 is_coprime_m_prev extended_coprime
                 prob_prime_nth_out prob_great_nth_out in
             Ok (<[m := prob_extended_record]> record_high,
                 <[m := prob_e2_record]> extended_record))
        (seqZ 0 wheel) (∅, ∅).

(** [prob_extended_gap]: fills [wheel_d], [extended_record_high],
    [extended_extended_record], [average_coprime] and
    [prob_greater_extended] of [gap_probs]. *)
Definition prob_extended_gap (senv : StatsEnv) (config : Config) (PROB_PRIME : float)
    (records : list float) (poss_record_gaps : list Z) (gap_probs : ProbNth)
  : Res ProbNth :=
  let SL := u32 (sieve_length config) in
  let* MIN_RECORD := match poss_record_gaps with
                     | g :: _ => Ok g
                     | [] => Err (Undefined "poss_record_gaps.front()")
                     end in
  let* MAX_RECORD := match last poss_record_gaps with
                     | Some g => Ok g
                     | None => Err (Undefined "poss_record_gaps.back()")
                     end in
  let N_log := (calc_log_K senv config + flog senv (mstart config))%float in
  let K_primes := get_sieve_primes (p config) in
  let* back := match last K_primes with
               | Some q => Ok q
               | None => Err (Undefined "K_primes.back()")
               end in
  let* _ := assert (back =? p config) "K_primes.back() == config.p" in
  let prob_prime_coprime :=
    fold_left (fun ppc prime =>
                 if negb (d config mod prime =? 0)
                 then (ppc / (1 - 1 / of_int prime))%float else ppc)
              K_primes PROB_PRIME in
  let EXT_SIZE := 2 * SL in
  let* is_coprime := sieve_is_coprime K_primes (d config) EXT_SIZE in
  let '(wheel, prob_prime_coprime, k_mod_p) :=
    build_wheel K_primes (d config) prob_prime_coprime in
  let* (prob_prime_nth_out, prob_great_nth_out) :=
    prob_nth_prime prob_prime_coprime [] [] in
  let* (coprime_ms, average_inner_coprime, average_extended_coprime) :=
    build_coprime_ms config is_coprime SL EXT_SIZE wheel k_mod_p in
  let n := to_float (of_int (Z.of_nat (map_size coprime_ms))) in
  let average_inner_coprime := to_float (average_inner_coprime / n) in
  let average_extended_coprime := to_float (average_extended_coprime / n) in
  let* inner_nth := trunc_to_size average_inner_coprime in
  let prob_inner := nth_prob_or_zero prob_great_nth_out inner_nth in
  let* outer_nth := trunc_to_size average_extended_coprime in
  let prob_outer := nth_prob_or_zero prob_great_nth_out outer_nth in
  let* (record_high, extended_record) :=
    build_extended config N_log records poss_record_gaps SL EXT_SIZE
                   MIN_RECORD MAX_RECORD wheel coprime_ms
                   prob_prime_nth_out prob_great_nth_out in
  Ok (mkProbNth (prime_nth_sieve gap_probs) (great_nth_sieve gap_probs)
                (combined_sieve gap_probs) wheel
                (record_high ∪ extended_record_high gap_probs)
                (extended_record ∪ extended_extended_record gap_probs)
                average_extended_coprime prob_outer).

(** ** [setup_probnth] *)

Definition setup_probnth (senv : StatsEnv) (config : Config) (records : list float)
    (poss_record_gaps : list Z) (gap_probs : ProbNth) : Res ProbNth :=
  let N_log := (calc_log_K senv config + flog senv (mstart config))%float in
  let PROB_PRIME := (1 / N_log - 1 / (N_log * N_log))%float in
  let UNKNOWNS_AFTER_SIEVE :=
    (1 / (flog senv (max_prime config) * exp_GAMMA senv))%float in
  let PROB_PRIME_AFTER_SIEVE := (PROB_PRIME / UNKNOWNS_AFTER_SIEVE)%float in
  let* (prime_nth, great_nth) :=
    prob_nth_prime PROB_PRIME_AFTER_SIEVE
                   (prime_nth_sieve gap_probs) (great_nth_sieve gap_probs) in
  let* combined :=
    prob_combined_gap PROB_PRIME_AFTER_SIEVE (combined_sieve gap_probs) in
  prob_extended_gap senv config PROB_PRIME records poss_record_gaps
    (mkProbNth prime_nth great_nth combined (wheel_d gap_probs)
               (extended_record_high gap_probs) (extended_extended_record gap_probs)
               (average_coprime gap_probs) (prob_greater_extended gap_probs)).

(** A [ProbNth] as its default constructor leaves it; the scalar fields
    are not initialised by the C++ code, and are set before they are read. *)
Definition empty_ProbNth : ProbNth := mkProbNth [] [] [] 0 ∅ ∅ 0%float 0%float.

(** ** [run_gap_file] *)

(** [v[i] += x] on a vector of [float]. *)
Definition vadd (what : string) (v : list float) (i : Z) (x : float) : Res (list float) :=
  let* old := vget what v i in
  vset what v i (to_float (old + x)).

(** The statistics of one m. *)
Record MStats : Type := mkMStats {
  ms_m : Z;
  ms_e_prev : float;
  ms_e_next : float;
  ms_prob_seen : float;
  ms_prob_record : float;
  ms_prob_missing : float;
  ms_prob_highmerit : float
}.

(** The three histograms over the gaps. *)
Record GapHist : Type := mkHist {
  prob_gap_norm : list float;
  prob_gap_low : list float;
  prob_gap_high : list float
}.

(** [while ((min_j > 0) && (gap_low + unknown_high[min_j-1] >= min_interesting_gap))] *)
Fixpoint lower_min_j (fuel : nat) (unknown_high : list Z)
    (gap_low min_interesting_gap min_j : Z) : Res Z :=
  match fuel with
  | O => Err Diverge
  | S fuel' =>
      if 0 <? min_j then
        let* h := vget "unknown_high[min_j-1]" unknown_high (min_j - 1) in
        if min_interesting_gap <=? u32 (gap_low + h)
        then lower_min_j fuel' unknown_high gap_low min_interesting_gap (min_j - 1)
        else Ok min_j
      else Ok min_j
  end.

(** Both primes inside the sieve.  The state of the loop over [i] is
    (min_j, prob_gap_norm, prob_record, prob_is_missing_gap, prob_highmerit). *)
Definition direct_probability (config : Config) (records : list float)
    (min_record_gap min_gap_min_merit : Z) (gap_probs : ProbNth)
    (log_start_prime : float) (unknown_low unknown_high : list Z)
    (norm : list float) : Res (list float * float * float * float) :=
  let min_interesting_gap := Z.min min_gap_min_merit min_record_gap in
  let combined := combined_sieve gap_probs in
  let max_i := Z.min (size unknown_low) (size combined) in
  let* (_, norm, prob_record, prob_is_missing_gap, prob_highmerit) :=
    foldM
      (fun '(min_j, norm, prob_record, prob_is_missing_gap, prob_highmerit) i =>
         let* gap_low := vget "unknown_low[i]" unknown_low i in
         let* min_j := lower_min_j (S (length unknown_high)) unknown_high gap_low
                                   min_interesting_gap min_j in
         let max_j := Z.min (size unknown_high) (size combined - i) in
         let j0 := if 100000 <=? sieve_length config then min_j else 0 in
         let* (norm, prob_record, prob_is_missing_gap, prob_highmerit) :=
           foldM
             (fun '(norm, prob_record, prob_is_missing_gap, prob_highmerit) j =>
                let* gap_high := vget "unknown_high[j]" unknown_high j in
                let gap := u32 (gap_low + gap_high) in
                let* prob_this_gap := vget "combined_sieve[i + j]" combined (i + j) in
                let* norm := vadd "prob_gap_norm[gap]" norm gap prob_this_gap in
                let prob_highmerit :=
                  if min_gap_min_merit <=? gap
                  then (prob_highmerit + prob_this_gap)%float else prob_highmerit in
                if min_record_gap <=? gap then
                  let* r := vget "records[gap]" records gap in
                  if fgt r log_start_prime then
                    let prob_is_missing_gap :=
                      if (MISSING_GAPS_LOW <=? gap) && (gap <=? MISSING_GAPS_HIGH)
                         && PrimFloat.eqb r GAP_INF
                      then (prob_is_missing_gap + prob_this_gap)%float
                      else prob_is_missing_gap in
                    Ok (norm, (prob_record + prob_this_gap)%float,
                        prob_is_missing_gap, prob_highmerit)
                  else Ok (norm, prob_record, prob_is_missing_gap, prob_highmerit)
                else Ok (norm, prob_record, prob_is_missing_gap, prob_highmerit))
             (seqZ j0 (max_j - j0))
             (norm, prob_record, prob_is_missing_gap, prob_highmerit) in
         Ok (min_j, norm, prob_record, prob_is_missing_gap, prob_highmerit))
      (seqZ 0 max_i)
      (size unknown_high, norm, 0%float, 0%float, 0%float) in
  Ok (norm, prob_record, prob_is_missing_gap, prob_highmerit).

(** One side of the extended part, for the [i]-th unknown of that side:
    the record probability, the expected distance, the histogram of the
    side and the merit probability. *)
Definition extended_side (what : string) (unknown : list Z) (i : Z) (prob_i : float)
    (PROB_OTHER_GREATER : float) (extended_record : list float)
    (min_side_with_extended_min_merit : Z)
    (st : float * float * list float * float)
  : Res (float * float * list float * float) :=
  let '(prob_record_extended, e_side, hist, prob_highmerit) := st in
  if i <? size unknown then
    let* gap := vget what unknown i in
    let* conditional_prob := vget "extended_record[gap]" extended_record gap in
    let* _ := assert (fge conditional_prob 0) "conditional_prob >= 0" in
    let* _ := assert (PrimFloat.ltb conditional_prob 1) "conditional_prob < 1" in
    let prob_record_extended :=
      (prob_record_extended + prob_i * PROB_OTHER_GREATER * conditional_prob)%float in
    let gap_side := i32 gap in
    let e_side := (e_side + to_float (to_float (of_int gap_side) * prob_i))%float in
    let* hist := vadd "prob_gap_side[gap]" hist gap_side prob_i in
    let prob_highmerit :=
      if min_side_with_extended_min_merit <=? gap_side
      then (prob_highmerit + prob_i * PROB_OTHER_GREATER)%float
      else prob_highmerit in
    Ok (prob_record_extended, e_side, hist, prob_highmerit)
  else Ok st.

(** The body of the loop over [valid_m], after the line was read. *)
Definition process_line (senv : StatsEnv) (config : Config) (K_log : float)
    (records : list float) (min_record_gap min_gap_min_merit : Z)
    (gap_probs : ProbNth) (m : Z) (unknown_low unknown_high : list Z)
    (hist : GapHist) : Res (MStats * GapHist) :=
  let min_side_with_extended_min_merit :=
    i32 (min_gap_min_merit - sieve_length config) in
  let log_start_prime := to_float (K_log + flog senv m) in
  let PROB_PREV_GREATER :=
    nth_prob_or_zero (great_nth_sieve gap_probs) (size unknown_low) in
  let PROB_NEXT_GREATER :=
    nth_prob_or_zero (great_nth_sieve gap_probs) (size unknown_high) in
  let prob_extended := prob_greater_extended gap_probs in
  let prob_seen :=
    ((1 - PROB_PREV_GREATER * prob_extended)
     * (1 - PROB_NEXT_GREATER * prob_extended))%float in
  let* (norm, prob_record, prob_is_missing_gap, prob_highmerit) :=
    direct_probability config records min_record_gap min_gap_min_merit gap_probs
                       log_start_prime unknown_low unknown_high (prob_gap_norm hist) in
  let m_high := m mod wheel_d gap_probs in
  let* extended_record_high_m :=
    map_at "extended_record_high.at(m_high)" (extended_record_high gap_probs) m_high in
  let* extended_record_low :=
    map_at "extended_record_high.at(wheel_d - m_high)" (extended_record_high gap_probs)
           (wheel_d gap_probs - m_high) in
  let max_i := Z.min (size (prime_nth_sieve gap_probs))
                     (Z.max (size unknown_low) (size unknown_high)) in
  let* (prob_record_extended, e_prev, e_next, low, high, prob_highmerit) :=
    foldM
      (fun '(prob_record_extended, e_prev, e_next, low, high, prob_highmerit) i =>
         let* prob_i := vget "prime_nth_sieve[i]" (prime_nth_sieve gap_probs) i in
         let* _ := assert (PrimFloat.leb 0 prob_i && PrimFloat.leb prob_i 1)
                          "0 <= prob_i && prob_i <= 1.0" in
         let* (prob_record_extended, e_prev, low, prob_highmerit) :=
           extended_side "unknown_low[i]" unknown_low i prob_i PROB_NEXT_GREATER
             extended_record_high_m min_side_with_extended_min_merit
             (prob_record_extended, e_prev, low, prob_highmerit) in
         let* (prob_record_extended, e_next, high, prob_highmerit) :=
           extended_side "unknown_high[i]" unknown_high i prob_i PROB_PREV_GREATER
             extended_record_low min_side_with_extended_min_merit
             (prob_record_extended, e_next, high, prob_highmerit) in
         Ok (prob_record_extended, e_prev, e_next, low, high, prob_highmerit))
      (seqZ 0 max_i)
      (0%float, 0%float, 0%float, prob_gap_low hist, prob_gap_high hist,
       prob_highmerit) in
  let* e2 := map_at "extended_extended_record.at(m_high)"
                    (extended_extended_record gap_probs) m_high in
  let prob_record_extended2 := (PROB_NEXT_GREATER * PROB_PREV_GREATER * e2)%float in
  let prob_record_combined :=
    (prob_record + prob_record_extended + prob_record_extended2)%float in
  Ok (mkMStats m (to_float e_prev) (to_float e_next) (to_float prob_seen)
               (to_float prob_record_combined) (to_float prob_is_missing_gap)
               (to_float prob_highmerit),
      mkHist norm low high).

(** [prob_gap_norm[i] /= valid_m.size()] for every [i]. *)
Definition normalize (n : Z) (v : list float) : list float :=
  map (fun x => to_float (x / to_float (of_int n))) v.

(** [run_gap_file]: the per-m statistics in the order of [valid_m] (the
    vectors [M_vals], [expected_prev], ..., [probs_highmerit] of the C++
    code, row by row), the histograms, and the stream after the lines. *)
Definition run_gap_file (senv : StatsEnv) (config : Config) (K_log : float)
    (records : list float) (min_record_gap min_gap_min_merit : Z)
    (gap_probs : ProbNth) (valid_m : list Z) (unknown_file : istream)
  : Res (list MStats * GapHist * istream) :=
  let n := Z.to_nat (2 * sieve_length config + 1) in
  let* (rows, hist, unknown_file) :=
    foldM (fun '(rows, hist, unknown_file) mi =>
             let m := u64 (mstart config + mi) in
             let* (unknown_low, unknown_high, unknown_file) :=
               read_unknown_line (rle config) mi unknown_file in
             let* (row, hist) :=
               process_line senv config K_log records min_record_gap
                            min_gap_min_merit gap_probs m unknown_low unknown_high hist in
             Ok (rows ++ [row], hist, unknown_file))
          valid_m
          ([], mkHist (replicate n 0%float) (replicate n 0%float)
                      (replicate n 0%float), unknown_file) in
  let k := size valid_m in
  Ok (rows,
      mkHist (normalize k (prob_gap_norm hist)) (normalize k (prob_gap_low hist))
             (normalize k (prob_gap_high hist)),
      unknown_file).

(** ** [prime_gap_stats] *)

(** [std::is_sorted(begin, end, std::greater<>())] on floats: no element
    is greater than the one before it. *)
Fixpoint is_sorted_greater (l : list float) : bool :=
  match l with
  | a :: (b :: _) as l' => negb (fgt b a) && is_sorted_greater l'
  | _ => true
  end.

(** [std::ceil] of a non-negative [double], converted to [uint32_t]. *)
Definition ceil_u32 (x : float) : Res Z :=
  let* t := trunc_to_size x in
  let c := if PrimFloat.ltb (of_int t) x then t + 1 else t in
  if c <? 2 ^ 32 then Ok c else Err (Undefined "double to uint32_t conversion").

(** [prime_gap_stats] up to the call of [store_stats]: [unknown_content]
    is the content of the unknown file, [record_rows] the table of the
    known record gaps.  The statistics printed in between do not change
    the vectors. *)
Definition prime_gap_stats (senv : StatsEnv) (config : Config)
    (unknown_content : list Z) (record_rows : list (Z * float))
  : Res (list MStats * GapHist) :=
  let SL := u32 (sieve_length config) in
  let* _ := assert (1000 <? SL) "SL > 1000" in
  let config := set_rle config (is_rle_unknowns senv unknown_content) in
  let K_log := calc_log_K senv config in
  let N_log := (K_log + flog senv (mstart config))%float in
  let* min_gap_min_merit := ceil_u32 (min_merit config * N_log) in
  let records := get_record_gaps config record_rows in
  let* poss_record_gaps := load_possible_records N_log records [] in
  let* _ := assert (2 <=? size poss_record_gaps) "poss_record_gaps.size() >= 2" in
  let* min_record_gap := match poss_record_gaps with
                         | g :: _ => Ok g
                         | [] => Err (Undefined "poss_record_gaps.front()")
                         end in
  let* gap_probs := setup_probnth senv config records poss_record_gaps empty_ProbNth in
  let valid_m :=
    List.filter (fun mi => Z.gcd (u64 (mstart config + mi)) (d config) =? 1)
                (seqZ 0 (minc config)) in
  let* (rows, hist, _) :=
    run_gap_file senv config (to_float K_log) records min_record_gap
                 min_gap_min_merit gap_probs valid_m (mkIn unknown_content true) in
  let* _ := assert (negb (is_sorted_greater (map ms_prob_record rows)))
                   "!std::is_sorted(probs_record.begin(), probs_record.end(), std::greater<>())" in
  Ok (rows, hist).

(* ================================================================== *)
(** * Method 1: [prime_gap_search] and [save_unknowns_method1] *)
(* ================================================================== *)

(** [os << n] for an [int]. *)
Definition put_int (n : Z) : list Z :=
  if n <? 0 then 45 :: put_uint (- n) else put_uint n.

(** The loop over [i] of one side in [save_unknowns_method1]. *)
Definition method1_side (SL : Z) (composite_d : list bool) (prefix : Z) : Res (list Z) :=
  foldM (fun out i =>
           let* c := vget "composite[d][i]" composite_d i in
           if negb c then Ok (out ++ chars " " ++ [prefix] ++ put_uint i)
           else Ok out)
        (seqZ 1 SL) [].

(** [save_unknowns_method1]: the line of one [mi], in the sparse form. *)
Definition save_unknowns_method1 (mi unknown_l unknown_u SL : Z)
    (composite : list bool * list bool) : Res (list Z) :=
  let header := put_uint mi ++ chars " : -" ++ put_int unknown_l
                ++ chars " +" ++ put_int unknown_u ++ chars " |" in
  let* out0 := method1_side SL (fst composite) 45 in
  let* out1 := method1_side SL (snd composite) 43 in
  Ok (header ++ out0 ++ chars " |" ++ out1 ++ [10]).

(** [std::count(v.begin(), v.end(), false)], converted to [int]. *)
Definition count_false (v : list bool) : Z :=
  i32 (size (List.filter negb v)).

(** The body of the loop over [mi] in [prime_gap_search], for an m coprime
    to D, up to the large primes: the two sides are reset, the centre is
    marked, and every small prime crosses off its multiples below and
    above the centre.  [prime_and_remainder] holds the small primes with
    [K mod prime]. *)
Definition method1_small_primes (SIEVE_LENGTH m : Z) (prime_and_remainder : list (Z * Z))
  : Res (list bool * list bool) :=
  let n := Z.to_nat (u32 (SIEVE_LENGTH + 1)) in
  let* c0 := vset "composite[0][0]" (replicate n false) 0 true in
  let* c1 := vset "composite[1][0]" (replicate n false) 0 true in
  foldM (fun '(c0, c1) '(prime, remainder) =>
           let modulo := u64 (remainder * m) mod prime in
           let* c0 :=
             for_stride (S (Z.to_nat (SIEVE_LENGTH + 1))) modulo prime (SIEVE_LENGTH + 1)
                        (fun c x => vset "composite[0][x]" c x true) c0 in
           let first_negative := i32 (prime - modulo) in
           let* _ := assert (0 <=? first_negative) "first_negative >= 0" in
           let* c1 :=
             for_stride (S (Z.to_nat (SIEVE_LENGTH + 1))) first_negative prime
                        (SIEVE_LENGTH + 1)
                        (fun c x => vset "composite[1][x]" c x true) c1 in
           Ok (c0, c1))
        prime_and_remainder (c0, c1).

(** The line of one m as [prime_gap_search] writes it after the small
    primes: the counts are those of the two sides. *)
Definition method1_line (SL mi : Z) (composite : list bool * list bool) : Res (list Z) :=
  save_unknowns_method1 mi (count_false (fst composite)) (count_false (snd composite))
                        SL composite.

(* ================================================================== *)
(** * Proofs *)
(* ================================================================== *)

(** ** The result monads *)

(** Closed conjunctions of equations are settled by evaluation, one
    conjunct at a time. *)
Ltac conj_compute :=
  lazymatch goal with
  | |- _ /\ _ => split; [vm_compute; reflexivity | conj_compute]
  | _ => vm_compute; reflexivity
  end.

Lemma bind_ok {A B} (m : Res A) (k : A -> Res B) (b : B) :
  bind m k = Ok b -> exists a, m = Ok a /\ k a = Ok b.
Proof. destruct m as [a|f]; simpl; [eauto | discriminate]. Qed.

Lemma assert_ok (b : bool) (what : string) (u : unit) :
  assert b what = Ok u -> b = true.
Proof. destruct b; [reflexivity | discriminate]. Qed.

Lemma foldM_app {A St} (f : St -> A -> Res St) (l1 l2 : list A) (s : St) :
  foldM f (l1 ++ l2) s = bind (foldM f l1 s) (foldM f l2).
Proof.
  revert s. induction l1 as [|x l1 IH]; intros s; simpl; [reflexivity|].
  destruct (f s x); simpl; [apply IH | reflexivity].
Qed.

(** An invariant of the loop state that every iteration keeps holds at
    the end of the loop. *)
Lemma foldM_invariant {A St} (P : St -> Prop) (f : St -> A -> Res St) (l : list A) :
  (forall s x s', P s -> f s x = Ok s' -> P s') ->
  forall s s', P s -> foldM f l s = Ok s' -> P s'.
Proof.
  intros Hstep. induction l as [|x l IH]; intros s s' Hs H; simpl in H.
  - congruence.
  - apply bind_ok in H as (s1 & H1 & H2). eauto.
Qed.

(** ** C9: the dispatch of the statistics program *)

Definition single_m_at_one : Config :=
  mkConfig 1 503 2310 1 1 5000 100000000 10%float 0 false false 0 "".

(** C9, the claim as stated fails: with [minc = 1] and [mstart = 1] a valid
    configuration is sent to [prime_gap_stats], not to the
    [prob_record_vs_plimit] path. *)
Lemma stats_main_single_m_at_one :
  valid single_m_at_one <> 0 /\ minc single_m_at_one = 1 /\
  stats_main single_m_at_one false = PrimeGapStats /\
  stats_main single_m_at_one false <> ProbRecordVsPlimit.
Proof. repeat split; discriminate. Qed.

(** C9, amended: a valid configuration with [minc = 1] whose range is not
    refused as already processed goes to [prob_record_vs_plimit] exactly
    when [mstart] is not 1; with [mstart = 1] it goes to [prime_gap_stats]. *)
Theorem stats_main_single_m (config : Config) (already_processed : bool) :
  valid config <> 0 ->
  minc config = 1 ->
  (save_unknowns config = 0 \/ already_processed = false) ->
  stats_main config already_processed =
    if mstart config =? 1 then PrimeGapStats else ProbRecordVsPlimit.
Proof.
  intros Hv Hm Hs. unfold stats_main.
  destruct (Z.eqb_spec (valid config) 0) as [|_]; [contradiction|].
  rewrite Hm. simpl.
  replace (negb (save_unknowns config =? 0) && already_processed) with false.
  - destruct (mstart config =? 1); reflexivity.
  - destruct Hs as [-> | ->]; [reflexivity | apply eq_sym, andb_false_r].
Qed.

Lemma stats_main_single_m_witness :
  stats_main (mkConfig 1 503 2310 7 1 5000 100000000 10%float 1 false false 0 "")
             false = ProbRecordVsPlimit.
Proof.
  apply (stats_main_single_m
           (mkConfig 1 503 2310 7 1 5000 100000000 10%float 1 false false 0 "") false).
  - discriminate.
  - reflexivity.
  - right. reflexivity.
Defined.

(** ** C1: [prime_gap_parallel] stops after the small primes *)

(** What [prime_gap_parallel] does, whatever the configuration: the set-up
    and the small primes, and then [exit(1)]. *)
Lemma prime_gap_parallel_run (env : Env) (config : Config) (w : World) :
  prime_gap_parallel env config w =
    match sieve_setup env config with
    | Err f => (Halted (Faulted f), w)
    | Ok (sv, composite) =>
        match method2_small_primes config (sv_K sv) (sv_valid_mi sv) (sv_m_reindex sv)
                (sv_reindex_m_wheel sv) (sv_i_reindex_wheel sv)
                (sv_SMALL_THRESHOLD sv) composite with
        | Err f => (Halted (Faulted f), w)
        | Ok _ => (Halted (Exited 1), phase_done w SmallPrimes)
        end
    end.
Proof.
  unfold prime_gap_parallel, bindR, lift.
  destruct (sieve_setup env config) as [[sv composite]|f]; [|reflexivity].
  destruct (method2_small_primes _ _ _ _ _ _ _ _) as [c|f]; reflexivity.
Qed.

(** C1, the code at every input: [prime_gap_parallel] never returns and
    never exits with code 0 (it aborts, or it exits with code 1 once the
    small primes are done); it writes no file and no range row, and the
    medium and the large primes are never run. *)
Theorem prime_gap_parallel_never_completes (env : Env) (config : Config) (w : World) :
  exists h w',
    prime_gap_parallel env config w = (Halted h, w') /\
    ((exists f, h = Faulted f /\ w' = w) \/
     (h = Exited 1 /\ w' = phase_done w SmallPrimes)) /\
    h <> Exited 0 /\
    files w' = files w /\
    range_table w' = range_table w /\
    (forall ph, In ph (phases_done w') -> In ph (phases_done w) \/ ph = SmallPrimes).
Proof.
  rewrite prime_gap_parallel_run.
  destruct (sieve_setup env config) as [[sv composite]|f].
  - destruct (method2_small_primes _ _ _ _ _ _ _ _) as [c|f].
    + exists (Exited 1), (phase_done w SmallPrimes).
      repeat split; try reflexivity; [right; split; reflexivity | discriminate |].
      intros ph Hin. simpl in Hin. apply in_app_or in Hin as [Hin | [<- | []]]; auto.
    + exists (Faulted f), w.
      repeat split; try reflexivity; [left; eauto | discriminate | auto].
  - exists (Faulted f), w.
    repeat split; try reflexivity; [left; eauto | discriminate | auto].
Qed.

(** ** C10: the assertion on [probs_record] after [run_gap_file] *)

(** [run_gap_file] pushes one row per valid m. *)
Lemma run_gap_file_rows senv config K_log records min_record_gap min_gap_min_merit
    gap_probs valid_m unknown_file rows hist rest :
  run_gap_file senv config K_log records min_record_gap min_gap_min_merit
               gap_probs valid_m unknown_file = Ok (rows, hist, rest) ->
  length rows = length valid_m.
Proof.
  unfold run_gap_file. intros H.
  apply bind_ok in H as ([[rows' hist'] file'] & Hfold & H).
  injection H as <- _ _.
  enough (Hgen : forall l (st st' : list MStats * GapHist * istream),
             foldM (fun '(rows, hist, unknown_file) mi =>
                      let m := u64 (mstart config + mi) in
                      let* (unknown_low, unknown_high, unknown_file) :=
                        read_unknown_line (rle config) mi unknown_file in
                      let* (row, hist) :=
                        process_line senv config K_log records min_record_gap
                          min_gap_min_merit gap_probs m unknown_low unknown_high hist in
                      Ok (rows ++ [row], hist, unknown_file)) l st = Ok st' ->
             length (fst (fst st')) = (length (fst (fst st)) + length l)%nat).
  { apply Hgen in Hfold. exact Hfold. }
  induction l as [|mi l IH]; intros [[r h] f] st' Hl; simpl in Hl.
  - injection Hl as <-. simpl. lia.
  - apply bind_ok in Hl as ([[r1 h1] f1] & Hstep & Hl).
    apply IH in Hl. rewrite Hl. simpl.
    apply bind_ok in Hstep as ([[lo hi] f2] & _ & Hstep).
    apply bind_ok in Hstep as ([row h2] & _ & Hstep).
    injection Hstep as <- _ _. rewrite length_app. simpl. lia.
Qed.

(** A vector with at most one element is sorted, whatever the order. *)
Lemma is_sorted_greater_short (l : list float) :
  (length l <= 1)%nat -> is_sorted_greater l = true.
Proof. destruct l as [|a [|b l]]; simpl; [reflexivity | reflexivity | lia]. Qed.

(** The valid m of a configuration, as [prime_gap_stats] collects them. *)
Definition stats_valid_m (config : Config) : list Z :=
  List.filter (fun mi => Z.gcd (u64 (mstart config + mi)) (d config) =? 1)
              (seqZ 0 (minc config)).

(** C10, the code where the claim fails: when the range holds at most one
    valid m, [prime_gap_stats] never gets past the assertion that
    [probs_record] is not sorted in descending order: a vector of one
    element is sorted, so the program aborts there (unless it failed
    before). *)
Theorem prime_gap_stats_single_m_aborts senv config unknown_content record_rows :
  (length (stats_valid_m config) <= 1)%nat ->
  is_ok (prime_gap_stats senv config unknown_content record_rows) = false.
Proof.
  intros Hlen. unfold prime_gap_stats.
  repeat match goal with
         | |- is_ok (bind ?m _) = false =>
             let H := fresh "E" in destruct m eqn:H; simpl; [|reflexivity]
         | |- is_ok (let '(_, _) := ?x in _) = false => destruct x
         | a : (_ * _)%type |- _ => destruct a
         end.
  apply assert_ok in E6.
  apply negb_true_iff in E6.
  rewrite is_sorted_greater_short in E6; [discriminate|].
  rewrite length_map.
  match goal with
  | H : run_gap_file _ _ _ _ _ _ _ _ _ = Ok _ |- _ => apply run_gap_file_rows in H; rewrite H
  end.
  exact Hlen.
Qed.

Definition one_m_config : Config :=
  mkConfig 1 47 2 1 1 1001 10000 10%float 1 false false 0 "".

(** log(47#/2), log 1, log 10000 and exp(gamma), as libm gives them. *)
Definition one_m_env : StatsEnv :=
  mkStatsEnv (fun _ => 40.267081934212644%float)
             (fun n => if n =? 10000 then 9.2103403719761836%float else 0%float)
             1.7810724179901979%float
             (fun _ => false).

Definition one_m_file : list Z := chars "0 : -1 +1 | -2 | +2" ++ [10].

Lemma prime_gap_stats_single_m_aborts_witness :
  is_ok (prime_gap_stats one_m_env one_m_config one_m_file []) = false.
Proof.
  apply (prime_gap_stats_single_m_aborts one_m_env one_m_config one_m_file []).
  vm_compute. lia.
Defined.

(** ** C6: the tables with D = 1 *)

(** With [d = 1] no wheel prime divides [d]: the wheel is 1. *)
Lemma build_wheel_d1 (K_primes : list Z) (ppc : float) :
  build_wheel K_primes 1 ppc = (1, ppc, ∅).
Proof. reflexivity. Qed.

Lemma wheel_is_coprime_d1 (is_coprime : list bool) (EXT_SIZE m : Z) (k_mod_p : gmap Z Z) :
  wheel_is_coprime is_coprime 1 EXT_SIZE m k_mod_p = Ok is_coprime.
Proof. reflexivity. Qed.

(** With the wheel 1 the first loop stores the one residue 0. *)
Lemma build_coprime_ms_d1 (config : Config) (is_coprime : list bool)
    (SL EXT_SIZE : Z) (k_mod_p : gmap Z Z) r :
  d config = 1 ->
  build_coprime_ms config is_coprime SL EXT_SIZE 1 k_mod_p = Ok r ->
  fst (fst r) = {[ 0 := is_coprime ]}.
Proof.
  intros Hd. unfold build_coprime_ms. simpl.
  rewrite Z.mod_1_r. simpl. rewrite andb_false_r. rewrite Hd.
  rewrite wheel_is_coprime_d1. simpl. intros [= <-]. reflexivity.
Qed.

(** The second loop then asks for the residue [wheel - 0 = 1], which the
    first loop never stored. *)
Lemma build_extended_d1 (config : Config) N_log records poss_record_gaps
    SL EXT_SIZE MIN_RECORD MAX_RECORD (is_coprime : list bool) nth_out great_out :
  build_extended config N_log records poss_record_gaps SL EXT_SIZE MIN_RECORD
                 MAX_RECORD 1 {[ 0 := is_coprime ]} nth_out great_out
  = Err (OutOfRange "coprime_ms.at(wheel - m)").
Proof.
  unfold build_extended. simpl.
  rewrite Z.mod_1_r. simpl. rewrite andb_false_r. reflexivity.
Qed.

(** C6, the code where the claim fails: with [D = 1] [prob_extended_gap]
    never returns.  The wheel is 1, [coprime_ms] holds the residue 0 alone,
    and the lookup of the previous side, [coprime_ms.at(wheel - m)] with
    [m = 0], asks for the key 1: [std::out_of_range] is thrown (unless the
    function failed before). *)
Theorem prob_extended_gap_d1_fails senv config PROB_PRIME records poss_record_gaps
    gap_probs :
  d config = 1 ->
  is_ok (prob_extended_gap senv config PROB_PRIME records poss_record_gaps gap_probs)
  = false.
Proof.
  intros Hd. unfold prob_extended_gap. rewrite Hd, build_wheel_d1.
  repeat match goal with
         | |- is_ok (bind ?m _) = false =>
             let H := fresh "E" in destruct m eqn:H; simpl; [|reflexivity]
         | a : (_ * _)%type |- _ => destruct a
         end.
  match goal with
  | H : build_coprime_ms _ _ _ _ _ _ = Ok _ |- _ =>
      apply build_coprime_ms_d1 in H; [simpl in H; subst | exact Hd]
  end.
  rewrite build_extended_d1 in *. discriminate.
Qed.

Definition d1_config : Config :=
  mkConfig 1 47 1 1 100 1001 10000 10%float 1 false false 0 "".

(** log(47#), log 1, log 10000 and exp(gamma), as libm gives them. *)
Definition d1_env : StatsEnv :=
  mkStatsEnv (fun _ => 40.960229114772591%float)
             (fun n => if n =? 10000 then 9.2103403719761836%float else 0%float)
             1.7810724179901979%float
             (fun _ => false).

Lemma prob_extended_gap_d1_fails_witness :
  is_ok (prob_extended_gap d1_env d1_config 0.023817%float
           (replicate (Z.to_nat MAX_GAP) GAP_INF) [1002; 1004] empty_ProbNth) = false.
Proof.
  apply (prob_extended_gap_d1_fails d1_env d1_config 0.023817%float
           (replicate (Z.to_nat MAX_GAP) GAP_INF) [1002; 1004] empty_ProbNth).
  reflexivity.
Defined.

(** The run at that input: the exception is the one of the lookup. *)
Example prob_extended_gap_d1_run :
  prob_extended_gap d1_env d1_config 0.023817%float [] [1002; 1004] empty_ProbNth
  = Err (OutOfRange "coprime_ms.at(wheel - m)").
Proof. vm_compute. reflexivity. Qed.

(** The lookup of [run_gap_file] fails alike: with the wheel 1 the residue
    of every m is 0, and the table is asked for the key [1 - 0]. *)
Lemma process_line_wheel_1 senv config K_log records min_record_gap min_gap_min_merit
    gap_probs m unknown_low unknown_high hist :
  wheel_d gap_probs = 1 ->
  extended_record_high gap_probs !! 1 = None ->
  is_ok (process_line senv config K_log records min_record_gap min_gap_min_merit
                      gap_probs m unknown_low unknown_high hist) = false.
Proof.
  intros Hw Hnone. unfold process_line. rewrite Hw, Z.mod_1_r, Z.sub_0_r.
  destruct (direct_probability _ _ _ _ _ _ _ _ _) as [[[[a b] c] e]|]; [|reflexivity].
  simpl. unfold map_at at 1.
  destruct (extended_record_high gap_probs !! 0); [|reflexivity].
  simpl. unfold map_at at 1. rewrite Hnone. reflexivity.
Qed.

(** ** C3: a line without unknowns *)

Definition is_neg_zero (x : float) : bool :=
  match Prim2SF x with
  | S754_zero true => true
  | _ => false
  end.

(** Adding to the double 0 changes nothing, but for the sign of a zero. *)
Lemma fadd_zero_l (x : float) : (0 + x)%float = if is_neg_zero x then 0%float else x.
Proof.
  assert (H : Prim2SF (0 + x) = Prim2SF (if is_neg_zero x then 0%float else x)).
  { rewrite FloatAxioms.add_spec. unfold is_neg_zero.
    change (Prim2SF 0) with (S754_zero false).
    destruct (Prim2SF x) as [[|]|[|]| |[|] m e] eqn:E; try rewrite E; reflexivity. }
  rewrite <- (SF2Prim_Prim2SF (0 + x)), H. apply SF2Prim_Prim2SF.
Qed.

(** C3, amended: for a line with no unknown on either side the estimator
    emits [E[prev] = E[next] = 0], a record probability that is the
    extended-squared contribution
    [PROB_NEXT_GREATER * PROB_PREV_GREATER * extended_extended_record[m mod W]]
    alone, with both factors [great_nth_sieve[0]], no merit and no
    missing-gap probability, and leaves the histograms as they are; but
    [prob_seen] is [(1 - great_nth_sieve[0] * prob_greater_extended)^2],
    not 0.  (The three lookups by residue have to succeed.) *)
Theorem process_line_no_unknowns senv config K_log records min_record_gap
    min_gap_min_merit gap_probs m hist :
  process_line senv config K_log records min_record_gap min_gap_min_merit
               gap_probs m [] [] hist =
    let GREATER := nth_prob_or_zero (great_nth_sieve gap_probs) 0 in
    let prob_extended := prob_greater_extended gap_probs in
    let m_high := m mod wheel_d gap_probs in
    let* _ := map_at "extended_record_high.at(m_high)"
                     (extended_record_high gap_probs) m_high in
    let* _ := map_at "extended_record_high.at(wheel_d - m_high)"
                     (extended_record_high gap_probs) (wheel_d gap_probs - m_high) in
    let* e2 := map_at "extended_extended_record.at(m_high)"
                      (extended_extended_record gap_probs) m_high in
    let contribution := (GREATER * GREATER * e2)%float in
    Ok (mkMStats m 0 0
          (to_float ((1 - GREATER * prob_extended) * (1 - GREATER * prob_extended)))
          (to_float (if is_neg_zero contribution then 0 else contribution))
          0 0,
        hist).
Proof.
  unfold process_line, direct_probability.
  change (size (@nil Z)) with 0. rewrite Z.max_id.
  rewrite (Z.min_l 0) by (unfold size; lia).
  rewrite (Z.min_r _ 0) by (unfold size; lia).
  simpl.
  destruct (map_at _ (extended_record_high gap_probs) (m mod wheel_d gap_probs));
    [|reflexivity].
  simpl.
  destruct (map_at _ (extended_record_high gap_probs) _); [|reflexivity].
  simpl.
  destruct (map_at _ (extended_extended_record gap_probs) _) as [e2|]; [|reflexivity].
  simpl. destruct hist as [n l h]. simpl.
  change (0 + 0)%float with 0%float.
  rewrite fadd_zero_l. reflexivity.
Qed.

(** ** Vectors *)

Lemma vget_ok {A} what (v : list A) i x :
  vget what v i = Ok x -> 0 <= i /\ v !! Z.to_nat i = Some x.
Proof.
  unfold vget. destruct (Z.ltb_spec i 0); [discriminate|].
  destruct (v !! Z.to_nat i) eqn:E; [|discriminate]. intros [= <-]. auto.
Qed.

Lemma vset_ok {A} what (v v' : list A) i x :
  vset what v i x = Ok v' ->
  0 <= i < size v /\ v' = <[Z.to_nat i := x]> v.
Proof.
  unfold vset, size.
  destruct (Z.leb_spec 0 i); simpl; [|discriminate].
  destruct (Z.ltb_spec i (Z.of_nat (length v))); [|discriminate].
  intros [= <-]. auto.
Qed.

(** ** C4: the entries of [extended_record_high] *)

(** What an entry of [prob_extended_record] can be: the rounding to
    [float] of a [double] that passed the assertion
    [prob_record >= 0 && prob_record < 1] (the entries the loop skips stay
    at their initial value 0, which is of that kind), or not a number. *)
Definition unit_double (v : float) : Prop :=
  exists s, v = to_float s /\ fge s 0 = true /\ PrimFloat.ltb s 1 = true.

Definition row_entry (is_coprime_m_prev : list bool) (g : Z) (v : float) : Prop :=
  (is_coprime_m_prev !! Z.to_nat g = Some false /\ v = nan) \/
  (is_coprime_m_prev !! Z.to_nat g = Some true /\ unit_double v).

Lemma unit_double_zero : unit_double 0.
Proof. exists 0%float. repeat split; reflexivity. Qed.

Section RowFold.
Variables (SL EXT_SIZE MIN_RECORD : Z) (poss_record_gaps : list Z).
Variables (is_coprime_m is_coprime_m_prev : list bool) (count_coprime_m : list Z).
Variable prob_prime_nth_out : list float.

Let step (prob_extended_record : list float) (gap_prev : Z) : Res (list float) :=
         let* c := vget "is_coprime_m_prev[gap_prev]" is_coprime_m_prev gap_prev in
         if negb c then
           vset "prob_extended_record[gap_prev]" prob_extended_record gap_prev nan
         else if gap_prev + EXT_SIZE <? MIN_RECORD then Ok prob_extended_record
         else
           let* prob_record :=
             extended_record_sum SL gap_prev poss_record_gaps is_coprime_m
                                 count_coprime_m prob_prime_nth_out in
           let* _ := assert (fge prob_record 0 && PrimFloat.ltb prob_record 1)
                            "prob_record >= 0 && prob_record < 1" in
           vset "prob_extended_record[gap_prev]" prob_extended_record gap_prev
                (to_float prob_record).

Lemma row_step row g row' :
  step row g = Ok row' ->
  row !! Z.to_nat g = Some 0%float ->
  0 <= g /\
  exists v, row' = <[Z.to_nat g := v]> row /\ row_entry is_coprime_m_prev g v.
Proof.
  unfold step. intros H H0.
  apply bind_ok in H as (c & Hc & H). apply vget_ok in Hc as [Hg Hc].
  split; [exact Hg|].
  destruct c; simpl in H.
  - destruct (g + EXT_SIZE <? MIN_RECORD).
    + injection H as <-. exists 0%float. split.
      * symmetry. apply list_insert_id. exact H0.
      * right. split; [exact Hc | apply unit_double_zero].
    + apply bind_ok in H as (s & _ & H). apply bind_ok in H as (u & Ha & H).
      apply assert_ok in Ha. apply andb_true_iff in Ha as [Ha1 Ha2].
      apply vset_ok in H as [_ ->]. eexists. split; [reflexivity|].
      right. split; [exact Hc|]. exists s. auto.
  - apply vset_ok in H as [_ ->]. eexists. split; [reflexivity|].
    left. auto.
Qed.

Lemma row_fold l : forall row row',
  foldM step l row = Ok row' ->
  NoDup l ->
  (forall g, g ∈ l -> 0 <= g) ->
  (forall g, g ∈ l -> row !! Z.to_nat g = Some 0%float) ->
  length row' = length row /\
  (forall g, g ∈ l -> exists v, row' !! Z.to_nat g = Some v /\
                                 row_entry is_coprime_m_prev g v) /\
  (forall i, (forall g, g ∈ l -> Z.to_nat g <> i) -> row' !! i = row !! i).
Proof.
  induction l as [|g l IH]; intros row row' H Hnd Hpos Hzero; simpl in H.
  - injection H as <-. split; [reflexivity|]. split; [|auto].
    intros g Hg. inversion Hg.
  - apply bind_ok in H as (row1 & Hstep & H).
    apply NoDup_cons in Hnd as [Hnotin Hnd].
    apply row_step in Hstep as [Hg0 (v & -> & Hv)]; [|apply Hzero; left].
    assert (Hlt : (Z.to_nat g < length row)%nat).
    { apply lookup_lt_is_Some. exists 0%float. apply Hzero. left. }
    assert (Hne : forall g', g' ∈ l -> Z.to_nat g <> Z.to_nat g').
    { intros g' Hg' Heq. apply Hnotin.
      assert (0 <= g') by (apply Hpos; right; exact Hg').
      replace g with g' by lia. exact Hg'. }
    apply IH in H as (Hlen & Hin & Hout); [| exact Hnd | |].
    + rewrite length_insert in Hlen. split; [exact Hlen|]. split.
      * intros g' Hg'. apply elem_of_cons in Hg' as [-> | Hg']; [|auto].
        exists v. split; [|exact Hv].
        rewrite Hout; [apply list_lookup_insert_eq; exact Hlt|].
        intros g' Hg'. apply not_eq_sym, Hne, Hg'.
      * intros i Hi. rewrite Hout.
        -- apply list_lookup_insert_ne. apply Hi. left.
        -- intros g' Hg'. apply Hi. right. exact Hg'.
    + intros g' Hg'. apply Hpos. right. exact Hg'.
    + intros g' Hg'. rewrite list_lookup_insert_ne; [|apply Hne, Hg'].
      apply Hzero. right. exact Hg'.
Qed.
End RowFold.

Lemma extended_record_row_entries SL EXT_SIZE MIN_RECORD poss_record_gaps
    is_coprime_m is_coprime_m_prev count_coprime_m prob_prime_nth_out row :
  extended_record_row SL EXT_SIZE MIN_RECORD poss_record_gaps is_coprime_m
                      is_coprime_m_prev count_coprime_m prob_prime_nth_out = Ok row ->
  length row = Z.to_nat (SL + 1) /\
  forall g, 1 <= g <= SL ->
    exists v, row !! Z.to_nat g = Some v /\ row_entry is_coprime_m_prev g v.
Proof.
  unfold extended_record_row. intros H.
  apply row_fold in H as (Hlen & Hin & _).
  - rewrite length_replicate in Hlen. split; [exact Hlen|].
    intros g Hg. apply Hin. apply elem_of_seqZ. lia.
  - apply NoDup_seqZ.
  - intros g Hg. apply elem_of_seqZ in Hg. lia.
  - intros g Hg. apply elem_of_seqZ in Hg. apply lookup_replicate_2. lia.
Qed.

Definition table_row (SL : Z) (cop : list bool) (row : list float) : Prop :=
  length row = Z.to_nat (SL + 1) /\
  forall g, 1 <= g <= SL ->
    exists v, row !! Z.to_nat g = Some v /\ row_entry cop g v.

Lemma build_extended_rows config N_log records poss_record_gaps SL EXT_SIZE
    MIN_RECORD MAX_RECORD wheel coprime_ms nth_out great_out record_high extended_record :
  build_extended config N_log records poss_record_gaps SL EXT_SIZE MIN_RECORD
                 MAX_RECORD wheel coprime_ms nth_out great_out
  = Ok (record_high, extended_record) ->
  forall r row, record_high !! r = Some row ->
    exists cop, coprime_ms !! u32 (wheel - r) = Some cop /\ table_row SL cop row.
Proof.
  unfold build_extended. intros H.
  refine (foldM_invariant
            (fun st : gmap Z (list float) * gmap Z float =>
               forall r row, fst st !! r = Some row ->
                 exists cop, coprime_ms !! u32 (wheel - r) = Some cop /\
                             table_row SL cop row)
            _ _ _ (∅, ∅) (record_high, extended_record) _ H).
  - clear H. intros [rh eer] m [rh' eer'] HP Hstep. simpl in *.
    destruct (_ && _ && _); [injection Hstep as <- <-; exact HP|].
    destruct (1 <? Z.gcd m wheel); [injection Hstep as <- <-; exact HP|].
    apply bind_ok in Hstep as (cm & _ & Hstep).
    apply bind_ok in Hstep as (cop & Hcop & Hstep).
    apply bind_ok in Hstep as ([ccm ec] & _ & Hstep).
    apply bind_ok in Hstep as (row & Hrow & Hstep).
    apply bind_ok in Hstep as (e2 & _ & Hstep).
    injection Hstep as <- <-.
    intros r row' Hr.
    destruct (decide (m = r)) as [<-|Hne].
    + rewrite lookup_insert_eq in Hr. injection Hr as <-.
      exists cop. split.
      * unfold map_at in Hcop. destruct (coprime_ms !! _); congruence.
      * apply extended_record_row_entries in Hrow. exact Hrow.
    + rewrite lookup_insert_ne in Hr by exact Hne. apply HP. exact Hr.
  - simpl. intros r row Hr. rewrite lookup_empty in Hr. discriminate.
Qed.

(** [is_coprime_m_prev] for the residue [r]: the distances struck out for
    the residue [wheel - r]. *)
Definition prev_side_coprime (config : Config) (r : Z) : Res (list bool) :=
  let K_primes := get_sieve_primes (p config) in
  let EXT_SIZE := 2 * u32 (sieve_length config) in
  let* is_coprime := sieve_is_coprime K_primes (d config) EXT_SIZE in
  let '(wheel, _, k_mod_p) := build_wheel K_primes (d config) 0 in
  wheel_is_coprime is_coprime (d config) EXT_SIZE (u32 (wheel - r)) k_mod_p.

Lemma build_wheel_ppc K_primes d ppc ppc' :
  fst (fst (build_wheel K_primes d ppc)) = fst (fst (build_wheel K_primes d ppc')) /\
  snd (build_wheel K_primes d ppc) = snd (build_wheel K_primes d ppc').
Proof.
  unfold build_wheel. simpl.
  destruct (d mod 2 =? 0), (d mod 3 =? 0), (d mod 5 =? 0), (d mod 7 =? 0);
    split; reflexivity.
Qed.

Lemma build_coprime_ms_lookup config is_coprime SL EXT_SIZE wheel k_mod_p cms a b :
  build_coprime_ms config is_coprime SL EXT_SIZE wheel k_mod_p = Ok (cms, a, b) ->
  forall k v, cms !! k = Some v ->
    wheel_is_coprime is_coprime (d config) EXT_SIZE k k_mod_p = Ok v.
Proof.
  unfold build_coprime_ms. intros H.
  refine (foldM_invariant
            (fun st : gmap Z (list bool) * float * float =>
               forall k v, fst (fst st) !! k = Some v ->
                 wheel_is_coprime is_coprime (d config) EXT_SIZE k k_mod_p = Ok v)
            _ _ _ (∅, 0%float, 0%float) (cms, a, b) _ H).
  - clear H. intros [[c x] y] m [[c' x'] y'] HP Hstep. simpl in *.
    destruct (_ && _ && _); [injection Hstep as <- <- <-; exact HP|].
    destruct (1 <? Z.gcd m wheel); [injection Hstep as <- <- <-; exact HP|].
    apply bind_ok in Hstep as (cm & Hcm & Hstep).
    injection Hstep as <- <- <-.
    intros k v Hk. destruct (decide (m = k)) as [<-|Hne].
    + rewrite lookup_insert_eq in Hk. congruence.
    + rewrite lookup_insert_ne in Hk by exact Hne. auto.
  - simpl. intros k v Hk. rewrite lookup_empty in Hk. discriminate.
Qed.

(** C4, amended: every entry [extended_record_high[r][g]] that
    [prob_extended_gap] builds, for a residue [r] it keeps a row for and
    [g] in [[1, SL]], is not a number when [g] is not coprime on the
    previous side ([is_coprime_m_prev[g]] is false, for the residue
    [wheel - r]), and otherwise the rounding to [float] of a [double] for
    which [prob_record >= 0 && prob_record < 1] holds. *)
Theorem extended_record_high_entries senv config PROB_PRIME records poss_record_gaps
    gap_probs gap_probs' r row g :
  prob_extended_gap senv config PROB_PRIME records poss_record_gaps gap_probs
  = Ok gap_probs' ->
  extended_record_high gap_probs = ∅ ->
  extended_record_high gap_probs' !! r = Some row ->
  1 <= g <= u32 (sieve_length config) ->
  exists v is_coprime_m_prev,
    row !! Z.to_nat g = Some v /\
    prev_side_coprime config r = Ok is_coprime_m_prev /\
    row_entry is_coprime_m_prev g v.
Proof.
  unfold prob_extended_gap, prev_side_coprime. intros H Hempty Hr Hg.
  apply bind_ok in H as (MIN_RECORD & _ & H).
  apply bind_ok in H as (MAX_RECORD & _ & H).
  apply bind_ok in H as (back & _ & H).
  apply bind_ok in H as (u & _ & H).
  apply bind_ok in H as (is_coprime & Hsieve & H).
  rewrite Hsieve. simpl.
  match type of H with
  | context [build_wheel ?a ?b ?c] =>
      destruct (build_wheel_ppc a b c 0) as [Hw Hk];
      destruct (build_wheel a b c) as [[wheel ppc] k_mod_p];
      destruct (build_wheel a b 0) as [[wheel0 ppc0] k_mod_p0]
  end.
  simpl in Hw, Hk. subst wheel0 k_mod_p0.
  apply bind_ok in H as ([nth_out great_out] & _ & H).
  apply bind_ok in H as ([[cms avg_i] avg_e] & Hcms & H).
  apply bind_ok in H as (inner & _ & H).
  apply bind_ok in H as (outer & _ & H).
  apply bind_ok in H as ([record_high extended_record] & Hb & H).
  injection H as <-. simpl in Hr. rewrite Hempty in Hr.
  rewrite (right_id_L ∅ (∪)) in Hr.
  destruct (build_extended_rows _ _ _ _ _ _ _ _ _ _ _ _ _ _ Hb r row Hr)
    as (cop & Hcop & _ & Hrow).
  destruct (Hrow g Hg) as (v & Hv & Hentry).
  exists v, cop. split; [exact Hv|]. split; [|exact Hentry].
  eapply build_coprime_ms_lookup; eassumption.
Qed.

(** *** A run of the tables *)

(** P = 47, D = 2, m in [1, 5), a sieve of half length 1001 up to 10000;
    the unknown file is in the run-length form. *)
Definition demo_config : Config :=
  mkConfig 1 47 2 1 4 1001 10000 10%float 1 true false 0 "".

(** log(47#/2), log 3, log 10000 and exp(gamma), as libm gives them. *)
Definition demo_env : StatsEnv :=
  mkStatsEnv (fun _ => 40.267072250793014%float)
             (fun n => if n =? 10000 then 9.210340371976184%float
                       else if n =? 3 then 1.0986122886681098%float else 0%float)
             1.781072417990198%float
             (fun _ => true).

(** A table of record gaps: every even gap up to 1408 is known with
    merit 34.5. *)
Definition demo_rows : list (Z * float) :=
  map (fun k => (2 * k, 34.5%float)) (seqZ 1 704).

Definition demo_N_log : float :=
  (calc_log_K demo_env demo_config + flog demo_env (mstart demo_config))%float.

(** The tables of that run, as [prime_gap_stats] builds them. *)
Definition demo_gap_probs : Res ProbNth :=
  let records := get_record_gaps demo_config demo_rows in
  let* poss_record_gaps := load_possible_records demo_N_log records [] in
  setup_probnth demo_env demo_config records poss_record_gaps empty_ProbNth.

(** The entry [extended_record_high[r][g]] of that run. *)
Definition demo_entry (r g : Z) : Res (option float) :=
  let* gap_probs := demo_gap_probs in
  Ok (row ← extended_record_high gap_probs !! r; row !! Z.to_nat g).

(** C4, the claim as stated fails: in the run above the wheel is 2, the
    residue 1 is coprime to it, and the entry for [g = 1] is not a number,
    so it is not in [[0, 1)]: the distance 1 cannot hold a prime on the
    previous side. *)
Lemma extended_record_high_nan :
  Z.gcd 1 2 = 1 /\
  (let* gap_probs := demo_gap_probs in Ok (wheel_d gap_probs)) = Ok 2 /\
  demo_entry 1 1 = Ok (Some nan) /\
  PrimFloat.leb 0 nan = false /\ PrimFloat.ltb nan 1 = false.
Proof. conj_compute. Qed.

(** The tables of the run. *)
Definition demo_tables : ProbNth :=
  match demo_gap_probs return ProbNth with
  | Ok gap_probs => gap_probs
  | Err _ => empty_ProbNth
  end.

Definition demo_row : list float :=
  Eval vm_compute in
    match extended_record_high demo_tables !! 1 return list float with
    | Some row => row
    | None => []
    end.

Lemma extended_record_high_entries_witness :
  exists v is_coprime_m_prev,
    demo_row !! Z.to_nat 2 = Some v /\
    prev_side_coprime demo_config 1 = Ok is_coprime_m_prev /\
    row_entry is_coprime_m_prev 2 v.
Proof.
  apply (extended_record_high_entries demo_env demo_config
           (1 / demo_N_log - 1 / (demo_N_log * demo_N_log))%float
           (get_record_gaps demo_config demo_rows)
           [1390; 1392; 1394; 1396; 1398; 1400; 1402; 1404; 1406; 1408]
           (mkProbNth (prime_nth_sieve demo_tables) (great_nth_sieve demo_tables)
                      (combined_sieve demo_tables) 0 ∅ ∅ 0%float 0%float)
           demo_tables 1 demo_row 2).
  - vm_compute. reflexivity.
  - reflexivity.
  - vm_compute. reflexivity.
  - vm_compute. split; discriminate.
Defined.

(** ** C3: a line with no unknown, in the run of the tables *)

(** The unknown file of the run: the line of m = 1 has no unknown on
    either side, the line of m = 3 has the distances 2 and 4. *)
Definition demo_file : list Z :=
  chars "0 : -0 +0 |  | " ++ [10] ++ chars "2 : -1 +1 | 02 | 04" ++ [10].

(** [m], [prob_seen], [prob_record], [E[prev]] and [E[next]] of every line. *)
Definition demo_stats : Res (list (Z * float * float * float * float)) :=
  let* (rows, _, _) :=
    run_gap_file demo_env demo_config (to_float (calc_log_K demo_env demo_config))
                 (get_record_gaps demo_config demo_rows) 1390 403 demo_tables
                 [0; 2] (mkIn demo_file true) in
  Ok (map (fun row => (ms_m row, ms_prob_seen row, ms_prob_record row,
                       ms_e_prev row, ms_e_next row)) rows).

(** C3, the claim as stated fails: the first line of the file has no
    unknown on either side, and the estimator emits [prob_seen = 1] for
    it, not 0 (with [E[prev] = E[next] = 0], as claimed). *)
Lemma no_unknowns_prob_seen_is_one :
  (let* (low, high, _) := read_unknown_line true 0 (mkIn demo_file true) in
   Ok (low, high)) = Ok ([], []) /\
  (let* stats := demo_stats in Ok (stats !! 0%nat))
  = Ok (Some (1, 1%float, 1%float, 0%float, 0%float)) /\
  PrimFloat.eqb 1 0 = false.
Proof. conj_compute. Qed.

(** ** C5: the stride of the small primes *)

(** The offsets [first, first + shift, first + 2 * shift, ...] below [bound]. *)
Definition stride_list (first shift bound : Z) : list Z :=
  map (fun k => first + k * shift) (seqZ 0 ((bound - first + shift - 1) / shift)).

Lemma stride_list_nil first shift bound :
  0 < shift -> bound <= first -> stride_list first shift bound = [].
Proof.
  intros Hs Hb. unfold stride_list. rewrite seqZ_nil; [reflexivity|].
  apply Z.lt_succ_r. apply Z.div_lt_upper_bound; lia.
Qed.

Lemma stride_list_cons first shift bound :
  0 < shift -> first < bound ->
  stride_list first shift bound = first :: stride_list (first + shift) shift bound.
Proof.
  intros Hs Hb. unfold stride_list.
  replace (bound - first + shift - 1) with ((bound - (first + shift) + shift - 1) + 1 * shift)
    by lia.
  rewrite Z.div_add by lia.
  set (n := (bound - (first + shift) + shift - 1) / shift).
  assert (Hn : 0 <= n) by (apply Z.div_pos; lia).
  rewrite seqZ_cons by lia. simpl. f_equal; [lia|].
  replace (Z.pred (n + 1)) with n by lia.
  replace (Z.succ 0) with (1 + 0) by lia.
  rewrite <- fmap_add_seqZ. rewrite <- list_fmap_compose.
  apply list_fmap_ext. intros i k _. simpl. lia.
Qed.

Lemma for_stride_spec {St} (body : St -> Z -> Res St) shift bound :
  0 < shift ->
  forall fuel x s,
    (Z.to_nat (bound - x) < fuel)%nat ->
    for_stride fuel x shift bound body s = foldM body (stride_list x shift bound) s.
Proof.
  intros Hs. induction fuel as [|fuel IH]; intros x s Hf; [lia|].
  simpl. destruct (Z.ltb_spec x bound) as [Hlt|Hge].
  - rewrite stride_list_cons by assumption. simpl.
    destruct (body s x) as [s'|f]; simpl; [|reflexivity].
    apply IH. lia.
  - rewrite stride_list_nil by assumption. reflexivity.
Qed.

Lemma small_prime_first_range SL m a_prime base_r :
  0 <= small_prime_first SL m a_prime base_r < 2 ^ 32.
Proof. unfold small_prime_first, u32. apply Z.mod_pos_bound. lia. Qed.

(** Where the walk of one prime starts and its stride, by the code: for
    a prime above 2 it starts at [first], or at [first + a_prime] when the
    number at [first] is even, and the stride is [2 * a_prime]; for the
    prime 2 it starts at [first] with the stride 2. *)
Definition walk_start (SL D m a_prime first : Z) : Z :=
  if (2 <? a_prime) && Bool.eqb (low_is_even SL D m) (Z.land first 1 =? 0)
  then first + a_prime else first.

Definition walk_stride (a_prime : Z) : Z :=
  if 2 <? a_prime then 2 * a_prime else a_prime.

Lemma small_prime_start_spec SL D m a_prime first irm comp start shift :
  2 <= a_prime < 2 ^ 31 -> 0 <= first < a_prime ->
  small_prime_start SL D m a_prime first irm comp = Ok (start, shift) ->
  start = walk_start SL D m a_prime first /\ shift = walk_stride a_prime.
Proof.
  intros Hp Hf. unfold small_prime_start, walk_start, walk_stride.
  destruct (Z.ltb_spec 2 a_prime) as [Hgt|Hle]; simpl.
  - intros H. apply bind_ok in H as (start' & Hs & H). injection H as <- <-.
    split.
    + destruct (eqb _ _).
      * apply bind_ok in Hs as (_ & _ & Hs). injection Hs as <-.
        unfold u32. apply Z.mod_small. lia.
      * injection Hs as <-. reflexivity.
    + unfold u32. rewrite (Z.mod_small a_prime) by lia.
      rewrite Z.mod_small by lia. lia.
  - intros [= <- <-]. split; [reflexivity|]. unfold u32. apply Z.mod_small. lia.
Qed.

(** The walk of one prime, whatever is done at the offsets it visits. *)
Lemma small_prime_visit_stride {St} SL D m irm comp (body : St -> Z -> Res St) s
    a_prime base_r r :
  2 <= a_prime < 2 ^ 31 ->
  small_prime_visit SL D m irm comp body s (a_prime, base_r) = Ok r ->
  let first := small_prime_first SL m a_prime base_r in
  foldM body (stride_list (walk_start SL D m a_prime first) (walk_stride a_prime)
                          (u32 (2 * SL + 1))) s = Ok r.
Proof.
  intros Hp H first. unfold small_prime_visit in H. fold first in H.
  apply bind_ok in H as (u & Ha & H). apply assert_ok in Ha.
  apply Z.ltb_lt in Ha.
  pose proof (small_prime_first_range SL m a_prime base_r) as Hr.
  fold first in Hr.
  assert (Hstride : 0 < walk_stride a_prime).
  { unfold walk_stride. destruct (2 <? a_prime); lia. }
  destruct (Z.ltb_spec first (u32 (2 * SL + 1))) as [Hlt|Hge].
  - apply bind_ok in H as ([start shift] & Hs & H).
    apply small_prime_start_spec in Hs as [-> ->]; [|lia|lia].
    rewrite for_stride_spec in H; [exact H | exact Hstride |].
    assert (0 <= u32 (2 * SL + 1)) by (unfold u32; apply Z.mod_pos_bound; lia).
    unfold walk_start. destruct (_ && _); lia.
  - injection H as <-. rewrite stride_list_nil; [reflexivity | exact Hstride |].
    unfold walk_start. destruct (_ && _); lia.
Qed.

Lemma foldM_collect (l acc r : list Z) :
  foldM (fun seen x => Ok (seen ++ [x])) l acc = Ok r -> r = acc ++ l.
Proof.
  revert acc r. induction l as [|x l IH]; intros acc r Hl; simpl in Hl.
  - injection Hl as <-. symmetry. apply app_nil_r.
  - apply IH in Hl. rewrite Hl, <- app_assoc. reflexivity.
Qed.

(** C5, amended: in Phase A the crossing off of a processed prime [p]
    (below 2^31) visits the offsets [start, start + shift, start + 2 *
    shift, ...] below [2 * SL + 1].  For [p > 2] the stride is [2 * p],
    whether K is even or odd, and [start] is [first], or [first + p] when
    the number at [first] is even; for [p = 2] the stride is 2 and [start]
    is [first]. *)
Theorem small_prime_offsets_stride SL D m K a_prime irm comp offsets :
  2 <= a_prime < 2 ^ 31 ->
  small_prime_offsets SL D m irm comp (a_prime, u32 (K mod a_prime)) = Ok offsets ->
  let first := small_prime_first SL m a_prime (u32 (K mod a_prime)) in
  offsets = stride_list (walk_start SL D m a_prime first) (walk_stride a_prime)
                        (u32 (2 * SL + 1)) /\
  (2 < a_prime -> walk_stride a_prime = 2 * a_prime) /\
  (a_prime = 2 -> walk_stride a_prime = 2).
Proof.
  intros Hp H first. split; [|split].
  - apply small_prime_visit_stride in H; [|exact Hp].
    apply foldM_collect in H. exact H.
  - intros Hgt. unfold walk_stride. destruct (Z.ltb_spec 2 a_prime); [reflexivity | lia].
  - intros ->. reflexivity.
Qed.

(** The bits set by [small_prime_crossoff] are those of the same offsets. *)
Lemma small_prime_crossoff_stride SL D m a_prime base_r irm comp comp' :
  2 <= a_prime < 2 ^ 31 ->
  small_prime_crossoff SL D m irm comp (a_prime, base_r) = Ok comp' ->
  foldM (mark_composite irm)
        (stride_list (walk_start SL D m a_prime (small_prime_first SL m a_prime base_r))
                     (walk_stride a_prime) (u32 (2 * SL + 1))) comp = Ok comp'.
Proof. intros Hp H. apply small_prime_visit_stride in H; assumption. Qed.

(** *** A run of the small primes *)

(** P = 5, D = 1, so that K = 30 is even; m in [1, 7), a sieve of half
    length 40. *)
Definition even_K_config : Config :=
  mkConfig 1 5 1 1 6 40 1000 10%float 1 false false 0 "".

Definition even_K_env : Env :=
  mkEnv (fun _ => "unknowns.txt"%string) (fun _ => 1) (100, 200) 1%float true
        (fun _ => O) O.

(** The first batch of primes Phase A collects, and the offsets the
    crossing off visits for the first valid m and the prime 7. *)
Definition even_K_walk : Res (list (Z * Z) * list Z) :=
  let* (sv, composite) := sieve_setup even_K_env even_K_config in
  let* (p_and_r, _, _) :=
    collect_small_primes 101 (u32 (p even_K_config)) (u32 (d even_K_config))
      (sv_reindex_m_wheel sv) (sv_K sv) (sv_SMALL_THRESHOLD sv) 0 0 [] in
  let m := u64 (mstart even_K_config + 0) in
  let* i_reindex_m := vget "i_reindex_wheel[m % reindex_m_wheel]"
                           (sv_i_reindex_wheel sv) (m mod sv_reindex_m_wheel sv) in
  let* composite_mii := vget "composite[mii]" composite 0 in
  let* offsets :=
    small_prime_offsets (u32 (sieve_length even_K_config)) (u32 (d even_K_config))
      m i_reindex_m composite_mii (7, sv_K sv mod 7) in
  Ok (p_and_r, offsets).

(** C5, the claim as stated fails: K = 30 is even, the prime 7 is
    processed, and the crossing off visits every second multiple of 7
    (stride 14), not the offsets [first, first + 7, first + 14, ...]. *)
Lemma even_K_stride_is_2p :
  Z.even (K_of even_K_config) = true /\
  even_K_walk = Ok ([(7, 2)], [3; 17; 31; 45; 59; 73]) /\
  [3; 17; 31; 45; 59; 73] <> stride_list 3 7 81.
Proof.
  split; [vm_compute; reflexivity|].
  split; [vm_compute; reflexivity|].
  vm_compute. discriminate.
Qed.

Lemma small_prime_offsets_stride_witness :
  [3; 17; 31; 45; 59; 73] = stride_list 3 14 81 /\
  (2 < 7 -> walk_stride 7 = 2 * 7) /\ (7 = 2 -> walk_stride 7 = 2).
Proof.
  apply (small_prime_offsets_stride 40 1 1 30 7 [] [] [3; 17; 31; 45; 59; 73]).
  - lia.
  - reflexivity.
Defined.


(** ** C8: no cancel signal is ever observed *)

(** The environment with another schedule of the cancel signals. *)
Definition with_sigints (env : Env) (during : Z -> nat) (late : nat) : Env :=
  mkEnv (gen_unknown_fn env) (config_hash env) (thresholds env) (sieve_secs env)
        (range_insert_ok env) during late.

(** C8, the code does not do what the claim says: whatever cancel signals
    are sent to the handler, and whenever, [prime_gap_parallel] runs as it
    does without them.  It halts before the handler is installed and
    before the loop of the large primes: the cancel flag is left as it
    was, the exit code is never 2 (the run aborts, or it exits with code 1
    after the small primes), the large primes are not run and no unknown
    file is saved. *)
Theorem prime_gap_parallel_never_cancels (env : Env) (config : Config) (w : World)
    (during : Z -> nat) (late : nat) :
  prime_gap_parallel (with_sigints env during late) config w
  = prime_gap_parallel env config w /\
  exists h w',
    prime_gap_parallel (with_sigints env during late) config w = (Halted h, w') /\
    h <> Exited 2 /\
    ((exists f, h = Faulted f) \/ h = Exited 1) /\
    g_control_c w' = g_control_c w /\
    files w' = files w /\
    (In LargePrimes (phases_done w') -> In LargePrimes (phases_done w)).
Proof.
  rewrite !prime_gap_parallel_run.
  change (sieve_setup (with_sigints env during late) config)
    with (sieve_setup env config).
  split; [reflexivity|].
  destruct (sieve_setup env config) as [[sv composite]|f].
  - destruct (method2_small_primes _ _ _ _ _ _ _ _) as [c|f].
    + exists (Exited 1), (phase_done w SmallPrimes).
      repeat split; try reflexivity; [discriminate | right; reflexivity |].
      cbn [phases_done phase_done]. intros Hin.
      apply in_app_or in Hin as [Hin | [Hin | []]]; [exact Hin | discriminate Hin].
    + exists (Faulted f), w.
      repeat split; try reflexivity; [discriminate | left; eauto | auto].
  - exists (Faulted f), w.
    repeat split; try reflexivity; [discriminate | left; eauto | auto].
Qed.

(** ** The loop of the large primes at a cancel *)

Lemma loop_fuel_break {St} fuel (body : St -> Run (Flow St)) s w s' w' :
  body s w = (Returned (Break s'), w') ->
  loop_fuel fuel body s w = (Returned (Break s'), w').
Proof.
  intros H. induction fuel as [fuel IH|fuel IH|]; simpl.
  - rewrite H. reflexivity.
  - rewrite IH. reflexivity.
  - exact H.
Qed.

Lemma loop_fuel_halt {St} fuel (body : St -> Run (Flow St)) s w h w' :
  body s w = (Halted h, w') ->
  loop_fuel fuel body s w = (Halted h, w').
Proof.
  intros H. induction fuel as [fuel IH|fuel IH|]; simpl.
  - rewrite H. reflexivity.
  - rewrite IH. reflexivity.
  - exact H.
Qed.

(** The second SIGINT ends the process. *)
Lemma second_sigint_exits w :
  g_control_c w = true -> signal_callback_handler w = (Halted (Exited 2), w).
Proof. intros H. unfold signal_callback_handler. rewrite H. reflexivity. Qed.

(** The configuration after a cancellation at [prime]. *)
Definition cancelled_config (config : Config) (prime : Z) : Config :=
  set_max_prime (set_unknown_filename config "") (prime - prime mod 1000000).

(** The code after the loop saves the unknown file and the range row. *)
Lemma after_large_primes_saves env sv st w content :
  sigints_late env = O ->
  save_unknowns (ls_config st) <> 0 ->
  save_unknowns_method2 (ls_config st) (sv_valid_mi sv) (sv_m_reindex sv)
    (sv_i_reindex sv) (sv_reindex_m_wheel sv) (sv_i_reindex_wheel sv)
    (ls_composite st) = Ok content ->
  range_insert_ok env = true ->
  exists w',
    after_large_primes env sv st w = (Returned (ls_config st), w') /\
    files w' !! gen_unknown_fn env (ls_config st) = Some content /\
    is_Some (range_table w' !! config_hash env (ls_config st)).
Proof.
  intros Hlate Hsave Hcontent Hdb.
  unfold after_large_primes, save_and_record, insert_range_db.
  rewrite Hlate, Hdb.
  destruct (Z.eqb_spec (save_unknowns (ls_config st)) 0) as [|_]; [contradiction|].
  unfold bindR, modify, deliver_sigints, ret, lift. rewrite Hcontent.
  cbn beta iota.
  eexists. split; [reflexivity|].
  destruct (range_table (write_file (phase_done w LargePrimes) _ content) !! _);
    cbn [files range_table upsert_range write_file]; rewrite !lookup_insert_eq; eauto.
Qed.

(** The loop of the large primes, entered in the state [st]: when the
    cancel flag is found set at a print point, at a prime that is not the
    last one, then: for a prime of at least 10^6 the loop is left with
    [max_prime] cut to the multiple of 10^6 below the prime (which does
    not exceed its original value) and the cached file name reset, and
    the run goes on with the code after the loop; for a prime below 10^6
    the process exits with code 2 at once.  A further cancel signal ends
    the process with exit code 2. *)
Theorem cancel_at_print_point env sv MAX_PRIME st w w1 composite' :
  let prime := ls_prime st in
  let stats' := method2_increment_print prime (sv_LAST_PRIME sv) (ls_stats st) in
  let config' := cancelled_config (ls_config st) prime in
  let st' := mkLoop prime (ls_it st) stats' composite' config' in
  0 <= prime <= MAX_PRIME ->
  deliver_sigints (sigints env prime) w = (Returned tt, w1) ->
  g_control_c w1 = true ->
  large_prime_work sv (ls_config st) prime (ls_composite st) = Ok composite' ->
  next_print (ls_stats st) <= prime ->
  prime <> sv_LAST_PRIME sv ->
  (1000000 <= prime ->
     large_primes_and_save env sv MAX_PRIME st w = after_large_primes env sv st' w1 /\
     max_prime config' mod 1000000 = 0 /\
     max_prime config' <= MAX_PRIME /\
     unknown_filename config' = ""%string) /\
  (prime < 1000000 ->
     large_primes_and_save env sv MAX_PRIME st w = (Halted (Exited 2), w1)) /\
  signal_callback_handler w1 = (Halted (Exited 2), w1).
Proof.
  intros prime stats' config' st' Hp Hsig Hflag Hwork Hprint Hlast.
  assert (Hbody : large_prime_body env sv MAX_PRIME st w =
                  if prime <? 1000000 then (Halted (Exited 2), w1)
                  else (Returned (Break st'), w1)).
  { unfold large_prime_body. fold prime.
    destruct (Z.leb_spec prime MAX_PRIME) as [_|]; [|lia].
    unfold bindR at 1. rewrite Hsig.
    unfold bindR at 1. unfold lift at 1. rewrite Hwork.
    destruct (next_prime (ls_it st)) as [prime1 it1].
    destruct (Z.leb_spec (next_print (ls_stats st)) prime) as [_|]; [|lia].
    unfold bindR, cancel_check. rewrite Hflag.
    destruct (Z.eqb_spec prime (sv_LAST_PRIME sv)) as [|_]; [contradiction|].
    simpl. destruct (prime <? 1000000); reflexivity. }
  split; [|split].
  - intros Hbig. destruct (Z.ltb_spec prime 1000000) as [|_]; [lia|].
    split; [|split; [|split]].
    + unfold large_primes_and_save, large_primes_loop, while_loop.
      unfold bindR at 1.
      rewrite (loop_fuel_break _ _ _ _ _ _ Hbody). reflexivity.
    + simpl. rewrite Zminus_mod, Z.mod_mod, Z.sub_diag by lia. reflexivity.
    + simpl. pose proof (Z.mod_pos_bound prime 1000000). lia.
    + reflexivity.
  - intros Hsmall. destruct (Z.ltb_spec prime 1000000) as [_|]; [|lia].
    unfold large_primes_and_save, large_primes_loop, while_loop.
    unfold bindR at 1.
    rewrite (loop_fuel_halt _ _ _ _ _ _ Hbody). reflexivity.
  - apply second_sigint_exits. exact Hflag.
Qed.

(** *** The loop at the prime 1000003 *)

(** P = 5, D = 1, m in [1, 7), a sieve of half length 40 up to 2000000;
    the large primes start above 5000. *)
Definition cancel_config : Config :=
  mkConfig 1 5 1 1 6 40 2000000 10%float 1 false false 0 "cached.txt".

(** One SIGINT, while the loop works on the prime 1000003. *)
Definition late_cancel_env : Env :=
  mkEnv (fun _ => "unknowns.txt"%string) (fun _ => 1) (100, 5000) 1%float true
        (fun q => if q =? 1000003 then 1%nat else O) O.

Definition fresh_world : World := mkWorld false ∅ ∅ [].

(** The reindexing tables and the bitmaps of that configuration. *)
Definition cancel_sieve : Sieve :=
  Eval vm_compute in
    match sieve_setup late_cancel_env cancel_config return Sieve with
    | Ok (sv, _) => sv
    | Err _ => mkSieve 0 0 [] [] [] [] [] [] 0 [] 0 0
    end.

Definition cancel_composite : list (list bool) :=
  Eval vm_compute in
    match sieve_setup late_cancel_env cancel_config return list (list bool) with
    | Ok (_, composite) => composite
    | Err _ => []
    end.

(** The loop at the prime 1000003, the first one at or above the print
    point 10^6. *)
Definition cancel_state : LoopState :=
  mkLoop 1000003 1000004 (mkStats 1000000 1000000) cancel_composite cancel_config.

Definition cancel_state' : LoopState :=
  Eval vm_compute in
    mkLoop 1000003 1000004
      (method2_increment_print 1000003 (sv_LAST_PRIME cancel_sieve)
                               (mkStats 1000000 1000000))
      match large_prime_work cancel_sieve cancel_config 1000003 cancel_composite
            return list (list bool) with
      | Ok composite' => composite'
      | Err _ => []
      end
      (cancelled_config cancel_config 1000003).

Lemma cancel_at_print_point_witness :
  large_primes_and_save late_cancel_env cancel_sieve 2000000 cancel_state fresh_world
  = after_large_primes late_cancel_env cancel_sieve cancel_state'
                       (set_control_c fresh_world true) /\
  max_prime (ls_config cancel_state') = 1000000 /\
  unknown_filename (ls_config cancel_state') = ""%string.
Proof.
  destruct (cancel_at_print_point late_cancel_env cancel_sieve 2000000 cancel_state
              fresh_world (set_control_c fresh_world true)
              (ls_composite cancel_state')) as [H _].
  - vm_compute. split; discriminate.
  - reflexivity.
  - reflexivity.
  - vm_compute. reflexivity.
  - vm_compute. discriminate.
  - vm_compute. discriminate.
  - destruct H as (H1 & _ & _ & _); [vm_compute; discriminate|].
    split; [exact H1 | split; reflexivity].
Defined.

(* ================================================================== *)
(** * C7: the possible record gaps *)
(* ================================================================== *)

(** [n] iterations of a loop body, one after the other. *)
Fixpoint iter_res {St : Type} (n : nat) (body : St -> Res (Flow St)) (s : St)
  : Res (Flow St) :=
  match n with
  | O => Ok (Continue s)
  | S n' =>
      match body s with
      | Ok (Continue s') => iter_res n' body s'
      | r => r
      end
  end.

Lemma iter_res_add {St} (body : St -> Res (Flow St)) a b s :
  iter_res (a + b) body s =
    match iter_res a body s with
    | Ok (Continue s') => iter_res b body s'
    | r => r
    end.
Proof.
  revert s. induction a as [|a IH]; intros s; simpl; [reflexivity|].
  destruct (body s) as [[s'|s']|f]; [apply IH | reflexivity | reflexivity].
Qed.

Lemma loop_res_iter {St} (body : St -> Res (Flow St)) fuel s :
  loop_res fuel body s = iter_res (Pos.to_nat fuel) body s.
Proof.
  revert s. induction fuel as [fuel IH|fuel IH|]; intros s.
  - replace (Pos.to_nat fuel~1) with (1 + (Pos.to_nat fuel + Pos.to_nat fuel))%nat by lia.
    cbn [loop_res Nat.add iter_res].
    destruct (body s) as [[s'|s']|f]; try reflexivity.
    rewrite iter_res_add, IH.
    destruct (iter_res (Pos.to_nat fuel) body s') as [[s''|s'']|f]; try reflexivity.
    apply IH.
  - replace (Pos.to_nat fuel~0) with (Pos.to_nat fuel + Pos.to_nat fuel)%nat by lia.
    cbn [loop_res].
    rewrite iter_res_add, IH.
    destruct (iter_res (Pos.to_nat fuel) body s) as [[s''|s'']|f]; try reflexivity.
    apply IH.
  - simpl. destruct (body s) as [[s'|s']|f]; reflexivity.
Qed.

(** The gaps [g], [g + 2], ... below [n] ([fuel] bounds their number). *)
Fixpoint gaps_upto (fuel : nat) (g n : Z) : list Z :=
  match fuel with
  | O => []
  | S fuel' => if g <? n then g :: gaps_upto fuel' (g + 2) n else []
  end.

Lemma gaps_upto_stride n : forall fuel g,
  (Z.to_nat (n - g) <= fuel)%nat -> gaps_upto fuel g n = stride_list g 2 n.
Proof.
  induction fuel as [|fuel IH]; intros g Hf; simpl.
  - rewrite stride_list_nil by lia. reflexivity.
  - destruct (Z.ltb_spec g n).
    + rewrite stride_list_cons by lia. rewrite IH by lia. reflexivity.
    + rewrite stride_list_nil by lia. reflexivity.
Qed.

Section PossibleRecords.
Variables (N_log : float) (records : list float).

(** The merit of a gap is above 35. *)
Definition merit_above (g : Z) : bool := fgt (of_int g / N_log) 35.

(** The known record of the gap starts above [N_log]. *)
Definition record_above (g : Z) : bool :=
  match records !! Z.to_nat g with
  | Some r => fgt r N_log
  | None => false
  end.

(** The even gaps from 2 on that the table holds. *)
Definition even_gaps : list Z :=
  gaps_upto (Z.to_nat (size records)) 2 (size records).

(** The specification: the even gaps [g >= 2] with [records[g] > N_log]
    and a merit [g / N_log <= 35]. *)
Definition possible_record_gaps : list Z :=
  List.filter (fun g => record_above g && PrimFloat.leb (of_int g / N_log) 35)
              even_gaps.

(** The merits of the gaps [l] are numbers, and once one is above 35
    the following ones are ([above]: one was). *)
Fixpoint merit_regular_from (l : list Z) (above : bool) : bool :=
  match l with
  | [] => true
  | g :: l' =>
      xorb (merit_above g) (PrimFloat.leb (of_int g / N_log) 35)
      && (if merit_above g then merit_regular_from l' true
          else negb above && merit_regular_from l' false)
  end.

Definition merit_regular : bool := merit_regular_from even_gaps false.

Lemma even_gaps_stride : even_gaps = stride_list 2 2 (size records).
Proof. apply gaps_upto_stride. lia. Qed.

(** The loop, as a recursion over the gaps it visits. *)
Fixpoint scan (l : list Z) (acc : list Z) : list Z :=
  match l with
  | [] => acc
  | g :: l' =>
      if merit_above g then acc
      else scan l' (if record_above g then acc ++ [g] else acc)
  end.

Lemma iter_scan n : size records = n -> n < 2 ^ 32 ->
  forall fuel g acc,
    0 <= g -> (Z.to_nat (n - g) < fuel)%nat ->
    exists g',
      iter_res fuel (possible_record_step N_log records n) (g, acc)
      = Ok (Break (g', scan (stride_list g 2 n) acc)).
Proof.
  intros Hn Hsmall. induction fuel as [|fuel IH]; intros g acc Hg Hf; [lia|].
  simpl. destruct (Z.ltb_spec g n) as [Hlt|Hge].
  - rewrite stride_list_cons by lia. simpl. unfold merit_above.
    destruct (fgt (of_int g / N_log) 35); [eauto|].
    unfold vget. destruct (Z.ltb_spec g 0); [lia|].
    unfold record_above.
    destruct (records !! Z.to_nat g) as [r|] eqn:E.
    + simpl. unfold u32. rewrite Z.mod_small by lia.
      apply IH; lia.
    + apply lookup_ge_None in E. unfold size in Hn. lia.
  - rewrite stride_list_nil by lia. simpl. eauto.
Qed.

Lemma merit_regular_above l :
  merit_regular_from l true = true ->
  List.filter (fun g => record_above g && PrimFloat.leb (of_int g / N_log) 35) l = [].
Proof.
  induction l as [|g l IH]; simpl; [reflexivity|].
  intros H. apply andb_true_iff in H as [Hx H].
  destruct (merit_above g); [|discriminate].
  simpl in Hx. destruct (PrimFloat.leb _ 35); [discriminate|].
  rewrite andb_false_r. apply IH, H.
Qed.

Lemma scan_filter l : forall acc,
  merit_regular_from l false = true ->
  scan l acc =
    acc ++ List.filter (fun g => record_above g && PrimFloat.leb (of_int g / N_log) 35) l.
Proof.
  induction l as [|g l IH]; intros acc H; simpl; [symmetry; apply app_nil_r|].
  simpl in H. apply andb_true_iff in H as [Hx H].
  destruct (merit_above g).
  - simpl in Hx. destruct (PrimFloat.leb _ 35); [discriminate|].
    rewrite andb_false_r. rewrite merit_regular_above by exact H.
    symmetry. apply app_nil_r.
  - simpl in Hx, H. rewrite Hx, andb_true_r. rewrite IH by exact H.
    destruct (record_above g); [|reflexivity].
    rewrite <- app_assoc. reflexivity.
Qed.

Lemma stride_list_sorted shift bound : 0 < shift ->
  forall (m : nat) first, (Z.to_nat (bound - first) <= m)%nat ->
    StronglySorted Z.lt (stride_list first shift bound)
    /\ Forall (Z.le first) (stride_list first shift bound).
Proof.
  intros Hs. induction m as [|m IH]; intros first Hm.
  - rewrite stride_list_nil by lia. split; constructor.
  - destruct (Z.ltb_spec first bound) as [Hlt|Hge].
    + rewrite stride_list_cons by lia.
      destruct (IH (first + shift)) as [Hsorted Hall]; [lia|].
      split.
      * constructor; [exact Hsorted|].
        eapply Forall_impl; [exact Hall|]. simpl. intros; lia.
      * constructor; [lia|].
        eapply Forall_impl; [exact Hall|]. simpl. intros; lia.
    + rewrite stride_list_nil by lia. split; constructor.
Qed.

Lemma filter_sorted (P : Z -> bool) l :
  StronglySorted Z.lt l -> StronglySorted Z.lt (List.filter P l).
Proof.
  induction 1 as [|a l Hs IH Ha]; simpl; [constructor|].
  destruct (P a); [|exact IH].
  constructor; [exact IH|].
  apply List.Forall_forall. intros x Hx. apply List.filter_In in Hx as [Hx _].
  eapply List.Forall_forall in Ha; eauto.
Qed.

Lemma sorted_is_sorted l : StronglySorted Z.lt l -> is_sorted l = true.
Proof.
  induction 1 as [|a l Hs IH Ha]; [reflexivity|].
  destruct l as [|b l]; [reflexivity|].
  change (is_sorted (a :: b :: l)) with (negb (b <? a) && is_sorted (b :: l)).
  rewrite IH, andb_true_r.
  apply List.Forall_inv in Ha. destruct (Z.ltb_spec b a); [lia|reflexivity].
Qed.

Lemma possible_record_gaps_sorted : StronglySorted Z.lt possible_record_gaps.
Proof.
  apply filter_sorted. rewrite even_gaps_stride.
  apply (stride_list_sorted 2 (size records) ltac:(lia) (Z.to_nat (size records - 2)) 2).
  lia.
Qed.

(** The loop of [load_possible_records] on an empty vector, when the
    merits are regular: the gaps of the specification, and the two checks
    on the first one. *)
Lemma load_possible_records_run :
  size records < 2 ^ 32 -> merit_regular = true ->
  load_possible_records N_log records [] =
    match possible_record_gaps with
    | [] => Err (Undefined "poss_record_gaps.front()")
    | g :: _ =>
        if g <=? MISSING_GAPS_LOW then Ok possible_record_gaps
        else Err (Assertion "poss_record_gaps.front() <= MISSING_GAPS_LOW")
    end.
Proof.
  intros Hsmall Hreg. unfold load_possible_records.
  rewrite loop_res_iter.
  assert (Hsize : 0 <= size records) by (unfold size; lia).
  destruct (iter_scan (size records) eq_refl Hsmall
              (Pos.to_nat (Z.to_pos (size records + 1))) 2 [])
    as [g' Hrun]; [lia | lia |].
  rewrite Hrun. cbn [bind snd].
  rewrite <- even_gaps_stride. rewrite (scan_filter even_gaps [] Hreg). cbn [app].
  fold possible_record_gaps.
  rewrite (sorted_is_sorted _ possible_record_gaps_sorted).
  cbn [assert bind].
  destruct possible_record_gaps as [|g l]; [reflexivity|].
  cbn [bind]. destruct (g <=? MISSING_GAPS_LOW); reflexivity.
Qed.
End PossibleRecords.

Lemma even_gaps_spec (records : list float) g :
  In g (even_gaps records) <-> 2 <= g < size records /\ Z.even g = true.
Proof.
  rewrite even_gaps_stride. unfold stride_list. rewrite List.in_map_iff. split.
  - intros (k & <- & Hk). apply list_elem_of_In, elem_of_seqZ in Hk.
    split.
    + assert (2 * ((size records - 2 + 2 - 1) / 2) <= size records - 2 + 2 - 1)
        by (apply Z.mul_div_le; lia).
      lia.
    + rewrite Z.even_add, Z.even_mul, orb_true_r. reflexivity.
  - intros [Hg He]. apply Z.even_spec in He as [m ->].
    exists (m - 1). split; [lia|].
    apply list_elem_of_In, elem_of_seqZ. split; [lia|].
    assert (m <= (size records - 2 + 2 - 1) / 2) by (apply Z.div_le_lower_bound; lia).
    lia.
Qed.

(** [load_possible_records] on an empty vector and a table of less
    than 2^32 entries whose merits are regular: the loop collects, in
    ascending order, exactly the even gaps g >= 2 of the table with
    records[g] > N_log and a merit g / N_log <= 35.  The function returns
    them when the first one is at most MISSING_GAPS_LOW; when it is larger
    the assertion on the front fails, and with no such gap the front of the
    empty vector is read. *)
Theorem load_possible_records_spec (N_log : float) (records : list float) :
  size records < 2 ^ 32 -> merit_regular N_log records = true ->
  (forall g, In g (possible_record_gaps N_log records) <->
     2 <= g < size records /\ Z.even g = true /\
     record_above N_log records g = true /\
     PrimFloat.leb (of_int g / N_log) 35 = true) /\
  StronglySorted Z.lt (possible_record_gaps N_log records) /\
  load_possible_records N_log records [] =
    match possible_record_gaps N_log records with
    | [] => Err (Undefined "poss_record_gaps.front()")
    | g :: _ =>
        if g <=? MISSING_GAPS_LOW then Ok (possible_record_gaps N_log records)
        else Err (Assertion "poss_record_gaps.front() <= MISSING_GAPS_LOW")
    end.
Proof.
  intros Hsmall Hreg. split; [|split].
  - intros g. unfold possible_record_gaps.
    rewrite List.filter_In, even_gaps_spec, andb_true_iff. tauto.
  - apply possible_record_gaps_sorted.
  - apply load_possible_records_run; assumption.
Qed.

Definition small_records : list float :=
  [GAP_INF; GAP_INF; 0.0625; GAP_INF; 7; GAP_INF; 9; GAP_INF; 1; GAP_INF]%float.

Lemma load_possible_records_spec_witness :
  size small_records < 2 ^ 32 /\
  merit_regular 0.125 small_records = true /\
  possible_record_gaps 0.125 small_records = [4] /\
  load_possible_records 0.125 small_records [] = Ok [4].
Proof.
  split; [reflexivity|]. split; [reflexivity|]. split; [reflexivity|].
  destruct (load_possible_records_spec 0.125 small_records) as (_ & _ & H);
    [reflexivity | reflexivity |].
  exact H.
Defined.

(** *** The assertion on the first gap *)

(** The gaps the loop looks at: those in front of the first one with a
    merit above 35. *)
Fixpoint before_break (N_log : float) (l : list Z) : list Z :=
  match l with
  | [] => []
  | g :: l' => if merit_above N_log g then [] else g :: before_break N_log l'
  end.

Lemma scan_before_break N_log records l : forall acc,
  scan N_log records l acc
  = acc ++ List.filter (record_above N_log records) (before_break N_log l).
Proof.
  induction l as [|g l IH]; intros acc; cbn [scan before_break].
  - cbn. symmetry. apply app_nil_r.
  - destruct (merit_above N_log g); [cbn; symmetry; apply app_nil_r|].
    rewrite IH. cbn [List.filter].
    destruct (record_above N_log records g); [|reflexivity].
    rewrite <- app_assoc. reflexivity.
Qed.

Lemma before_break_In N_log g l : In g (before_break N_log l) -> In g l.
Proof.
  induction l as [|a l IH]; cbn [before_break]; [auto|].
  destruct (merit_above N_log a); [intros []|].
  intros [<-|H]; [left; reflexivity | right; apply IH, H].
Qed.

Lemma before_break_sorted N_log l :
  StronglySorted Z.lt l -> StronglySorted Z.lt (before_break N_log l).
Proof.
  induction 1 as [|a l Hs IH Ha]; cbn [before_break]; [constructor|].
  destruct (merit_above N_log a); constructor; [exact IH|].
  apply List.Forall_forall. intros x Hx. apply before_break_In in Hx.
  eapply List.Forall_forall in Ha; eauto.
Qed.

Lemma before_break_keeps N_log g0 l :
  StronglySorted Z.lt l -> In g0 l ->
  (forall g, In g l -> g <= g0 -> merit_above N_log g = false) ->
  In g0 (before_break N_log l).
Proof.
  induction 1 as [|a l Hs IH Ha]; intros Hin Hm; [destruct Hin|].
  cbn [before_break].
  assert (Hle : a <= g0).
  { destruct Hin as [->|Hin]; [lia|].
    eapply List.Forall_forall in Ha; [|exact Hin]. lia. }
  rewrite (Hm a (or_introl eq_refl) Hle).
  destruct Hin as [->|Hin]; [left; reflexivity|].
  right. apply IH; [exact Hin|].
  intros g Hg. apply Hm. right. exact Hg.
Qed.

(** C7, the code does not do what the claim says: when no gap up to
    MISSING_GAPS_LOW is a possible record (each has a known record that
    starts at or below [N_log]) while a later gap [g0] is one (its record
    starts above [N_log], and the merits of the gaps up to [g0] are not
    above 35), [load_possible_records] gives no warning and returns
    nothing: it stops at its assertion
    [poss_record_gaps.front() <= MISSING_GAPS_LOW]. *)
Theorem load_possible_records_late_front_aborts (N_log : float) (records : list float)
    (g0 : Z) :
  size records < 2 ^ 32 ->
  (forall g, 2 <= g <= MISSING_GAPS_LOW -> Z.even g = true ->
             record_above N_log records g = false) ->
  MISSING_GAPS_LOW < g0 < size records -> Z.even g0 = true ->
  record_above N_log records g0 = true ->
  (forall g, 2 <= g <= g0 -> Z.even g = true -> merit_above N_log g = false) ->
  load_possible_records N_log records []
  = Err (Assertion "poss_record_gaps.front() <= MISSING_GAPS_LOW").
Proof.
  intros Hsmall Hlow Hg0 Heven Hrec Hmerit. unfold load_possible_records.
  rewrite loop_res_iter.
  assert (Hsize : 0 <= size records) by (unfold size; lia).
  destruct (iter_scan N_log records (size records) eq_refl Hsmall
              (Pos.to_nat (Z.to_pos (size records + 1))) 2 [])
    as [g' Hrun]; [lia | lia |].
  rewrite Hrun. cbn [bind snd].
  rewrite <- even_gaps_stride, scan_before_break. cbn [app].
  assert (Hsorted : StronglySorted Z.lt (even_gaps records)).
  { rewrite even_gaps_stride.
    apply (stride_list_sorted 2 (size records) ltac:(lia)
             (Z.to_nat (size records - 2)) 2). lia. }
  set (gaps := List.filter (record_above N_log records)
                           (before_break N_log (even_gaps records))).
  assert (Hgaps : StronglySorted Z.lt gaps)
    by (apply filter_sorted, before_break_sorted, Hsorted).
  rewrite (sorted_is_sorted _ Hgaps). cbn [assert bind].
  assert (Hin : In g0 gaps).
  { apply List.filter_In. split; [|exact Hrec].
    apply before_break_keeps; [exact Hsorted | |].
    - apply even_gaps_spec. split; [unfold MISSING_GAPS_LOW in Hg0; lia | exact Heven].
    - intros g Hg Hle. apply even_gaps_spec in Hg as [Hg He]. apply Hmerit; [lia|exact He]. }
  destruct gaps as [|g rest] eqn:E; [destruct Hin|].
  assert (Hg : In g (g :: rest)) by (left; reflexivity).
  rewrite <- E in Hg. apply List.filter_In in Hg as [Hg Hgrec].
  apply before_break_In, even_gaps_spec in Hg as [Hg2 Hge].
  cbn [bind].
  destruct (Z.leb_spec g MISSING_GAPS_LOW) as [Hle|_]; [|reflexivity].
  rewrite (Hlow g) in Hgrec by (assumption || lia). discriminate Hgrec.
Qed.

(** A record table in which the [n] smallest gaps have a known record
    that starts at [log(startprime) = 1], and the [k] gaps above them
    have none. *)
Definition records_known_below (n k : nat) : list float :=
  replicate n 1%float ++ replicate k GAP_INF.

Lemma records_known_below_size (n k : nat) :
  size (records_known_below n k) = Z.of_nat n + Z.of_nat k.
Proof.
  unfold size, records_known_below. rewrite length_app, !length_replicate. lia.
Qed.

Lemma records_known_below_above (n k : nat) g :
  0 <= g ->
  record_above 3300 (records_known_below n k) g
  = (Z.of_nat n <=? g) && (g <? Z.of_nat n + Z.of_nat k).
Proof.
  intros Hg. unfold record_above, records_known_below.
  destruct (Z.leb_spec (Z.of_nat n) g) as [Hge|Hlt].
  - rewrite lookup_app_r by (rewrite length_replicate; lia).
    rewrite length_replicate.
    destruct (Z.ltb_spec g (Z.of_nat n + Z.of_nat k)) as [Hin|Hout].
    + rewrite lookup_replicate_2 by lia. reflexivity.
    + rewrite lookup_ge_None_2 by (rewrite length_replicate; lia). reflexivity.
  - rewrite lookup_app_l by (rewrite length_replicate; lia).
    rewrite lookup_replicate_2 by lia. reflexivity.
Qed.

(** The even gaps from 2 up to [g0]. *)
Lemma gaps_upto_spec n g :
  0 <= n -> In g (gaps_upto (Z.to_nat n) 2 n) <-> 2 <= g < n /\ Z.even g = true.
Proof.
  intros Hn. pose proof (even_gaps_spec (replicate (Z.to_nat n) 0%float) g) as H.
  unfold even_gaps, size in H. rewrite length_replicate, Z2Nat.id in H by exact Hn.
  exact H.
Qed.

Lemma merits_checked N_log g0 :
  0 <= g0 ->
  forallb (fun g => negb (merit_above N_log g)) (gaps_upto (Z.to_nat (g0 + 1)) 2 (g0 + 1))
  = true ->
  forall g, 2 <= g <= g0 -> Z.even g = true -> merit_above N_log g = false.
Proof.
  intros Hg0 Hall g Hg He. rewrite forallb_forall in Hall.
  apply negb_true_iff, Hall, gaps_upto_spec; [lia|]. split; [lia|exact He].
Qed.

(** A table of MAX_GAP entries: every gap below 113328 has a known record
    that starts below [N_log = 3300], the gaps from 113328 on have none. *)
Definition late_records : list float :=
  records_known_below (Z.to_nat 113328) (Z.to_nat 886672).

Lemma late_records_size : size late_records = MAX_GAP.
Proof.
  unfold late_records. rewrite records_known_below_size.
  rewrite !Z2Nat.id by discriminate. reflexivity.
Qed.

Lemma late_records_above g :
  0 <= g -> record_above 3300 late_records g = (113328 <=? g) && (g <? 1000000).
Proof.
  intros Hg. unfold late_records. rewrite records_known_below_above by exact Hg.
  rewrite !Z2Nat.id by discriminate. reflexivity.
Qed.

Lemma load_possible_records_late_front_aborts_witness :
  load_possible_records 3300 late_records []
  = Err (Assertion "poss_record_gaps.front() <= MISSING_GAPS_LOW").
Proof.
  apply (load_possible_records_late_front_aborts 3300 late_records 113328).
  - rewrite late_records_size. reflexivity.
  - intros g Hg _. rewrite late_records_above by lia.
    unfold MISSING_GAPS_LOW in Hg.
    destruct (Z.leb_spec 113328 g); [lia|reflexivity].
  - rewrite late_records_size. split; reflexivity.
  - reflexivity.
  - rewrite late_records_above by lia. reflexivity.
  - apply merits_checked; [lia|]. vm_compute. reflexivity.
Defined.

(* ================================================================== *)
(** * C2: the two forms of an unknown line *)
(* ================================================================== *)

(** A sieve of half length 4 with one unknown, two below the centre, and
    none above it. *)
Definition one_low_comp : list bool := [true; true; false; true; true; true; true].
Definition one_low_reindex : list Z := [0; 1; 2; 0; 0; 3; 4; 5; 6].

(** C2, the code does not do what the claim says: for the line of mi = 7
    with the previous-side offset 2 and no next-side offset, the sparse
    form written by [save_unknowns_line] ends in a bar followed by the
    end of the line, and [read_unknown_line] stops at its assertion that
    a blank follows the bar; the run-length form of the same line, where
    the blank is written before the (empty) list, decodes to
    [(2), ()]. *)
Theorem sparse_line_empty_next_side_aborts :
  save_unknowns_line false 4 7 one_low_comp one_low_reindex
  = Ok (chars "7 : -1 +0 | -2 |" ++ [10]) /\
  read_unknown_line false 7 (mkIn (chars "7 : -1 +0 | -2 |" ++ [10]) true)
  = Err (Assertion "delim_char == ' '") /\
  save_unknowns_line true 4 7 one_low_comp one_low_reindex
  = Ok (chars "7 : -1 +0 | 02 | " ++ [10]) /\
  read_unknown_line true 7 (mkIn (chars "7 : -1 +0 | 02 | " ++ [10]) true)
  = Ok ([2], [], mkIn [10] true).
Proof. conj_compute. Qed.

(* ================================================================== *)
(** * Further properties of the sieve and of the estimator *)
(* ================================================================== *)

(** ** Phase A crosses off the odd multiples of the prime *)

Lemma stride_list_In first shift bound x :
  0 < shift ->
  In x (stride_list first shift bound) <->
  exists k, 0 <= k /\ x = first + k * shift /\ x < bound.
Proof.
  intros Hs. unfold stride_list. rewrite List.in_map_iff. split.
  - intros (k & <- & Hk). apply list_elem_of_In, elem_of_seqZ in Hk.
    exists k. split; [lia|]. split; [reflexivity|].
    assert (k + 1 <= (bound - first + shift - 1) / shift) by lia.
    assert (shift * (k + 1) <= bound - first + shift - 1).
    { etransitivity; [apply Z.mul_le_mono_nonneg_l; [lia|eassumption]|].
      apply Z.mul_div_le. lia. }
    lia.
  - intros (k & Hk & -> & Hb). exists k. split; [reflexivity|].
    apply list_elem_of_In, elem_of_seqZ. split; [lia|].
    assert (k + 1 <= (bound - first + shift - 1) / shift); [|lia].
    apply Z.div_le_lower_bound; lia.
Qed.

Lemma land_1_even x : (Z.land x 1 =? 0) = Z.even x.
Proof.
  change 1 with (Z.ones 1). rewrite Z.land_ones by lia.
  change (2 ^ 1) with 2. rewrite Zeven_mod. reflexivity.
Qed.

Lemma land_1_odd x : (Z.land x 1 =? 1) = Z.odd x.
Proof.
  change (Z.land x 1) with (Z.land x (Z.ones 1)). rewrite Z.land_ones by lia.
  change (2 ^ 1) with 2. rewrite Zodd_mod. reflexivity.
Qed.

Lemma u32_small x : 0 <= x < 2 ^ 32 -> u32 x = x.
Proof. intros H. unfold u32. apply Z.mod_small. exact H. Qed.

Lemma u64_small x : 0 <= x < 2 ^ 64 -> u64 x = x.
Proof. intros H. unfold u64. apply Z.mod_small. exact H. Qed.

(** [first] is the least offset whose number [m * K - SL + first] the
    prime divides. *)
Lemma small_prime_first_divides SL m K a_prime :
  2 <= a_prime < 2 ^ 31 -> 0 <= SL < 2 ^ 31 -> 0 <= m < 2 ^ 32 ->
  let first := small_prime_first SL m a_prime (u32 (K mod a_prime)) in
  0 <= first < a_prime /\ (m * K + (first - SL)) mod a_prime = 0.
Proof.
  intros Hp HSL Hm. cbv zeta. unfold small_prime_first.
  pose proof (Z.mod_pos_bound K a_prime ltac:(lia)) as HK.
  rewrite (u32_small (K mod a_prime)) by lia.
  rewrite (u64_small (K mod a_prime * m)) by nia.
  rewrite (u32_small (SL + 1)) by lia.
  rewrite Z.mul_mod_idemp_l by lia.
  pose proof (Z.mod_pos_bound (K * m) a_prime ltac:(lia)) as Ha.
  pose proof (Z.mod_pos_bound (SL + 1) a_prime ltac:(lia)) as Hb.
  pose proof (Z.div_mod (K * m) a_prime ltac:(lia)) as Ea.
  pose proof (Z.div_mod (SL + 1) a_prime ltac:(lia)) as Eb.
  set (a := (K * m) mod a_prime) in *. set (b := (SL + 1) mod a_prime) in *.
  rewrite (u32_small (a + a_prime - b)) by lia.
  destruct (Z.leb_spec a_prime (a + a_prime - b)).
  - rewrite (u32_small (a + a_prime - b - a_prime)) by lia.
    rewrite u32_small by lia. split; [lia|].
    apply Z.mod_divide; [lia|].
    exists (K * m / a_prime - (SL + 1) / a_prime + 1). lia.
  - rewrite u32_small by lia. split; [lia|].
    apply Z.mod_divide; [lia|].
    exists (K * m / a_prime - (SL + 1) / a_prime). lia.
Qed.

(** [lowIsEven] is the parity of the number at offset 0, when K is odd
    exactly for an even D. *)
Lemma low_is_even_spec SL D m K :
  Z.odd K = Z.even D -> low_is_even SL D m = Z.even (m * K - SL).
Proof.
  intros HK. unfold low_is_even. rewrite land_1_even, !land_1_odd.
  rewrite Z.even_sub, Z.even_mul, <- HK, <- !Z.negb_odd.
  destruct (Z.odd K), (Z.odd m), (Z.odd SL); reflexivity.
Qed.

(** Phase A, one prime and one m: the crossing off visits exactly the
    offsets of the interval whose number [m * K + (x - SL)] the prime
    divides, and for a prime above 2 only those whose number is odd. *)
Theorem small_prime_offsets_odd_multiples SL D m K a_prime irm comp offsets :
  2 <= a_prime < 2 ^ 31 -> (a_prime = 2 \/ Z.odd a_prime = true) ->
  0 <= SL < 2 ^ 31 -> 0 <= m < 2 ^ 32 ->
  Z.odd K = Z.even D ->
  small_prime_offsets SL D m irm comp (a_prime, u32 (K mod a_prime)) = Ok offsets ->
  forall x, In x offsets <->
    0 <= x <= 2 * SL /\ (m * K + (x - SL)) mod a_prime = 0 /\
    (a_prime = 2 \/ Z.odd (m * K + (x - SL)) = true).
Proof.
  intros Hp Hodd HSL Hm HK H x.
  pose proof (small_prime_first_divides SL m K a_prime Hp HSL Hm) as Hfirst.
  cbv zeta in Hfirst.
  apply small_prime_visit_stride in H; [|exact Hp]. cbv zeta in H.
  apply foldM_collect in H. cbn [app] in H. subst offsets.
  set (first := small_prime_first SL m a_prime (u32 (K mod a_prime))) in *.
  destruct Hfirst as [Hf Hdiv].
  rewrite (u32_small (2 * SL + 1)) by lia.
  rewrite stride_list_In by (unfold walk_stride; destruct (2 <? a_prime); lia).
  apply Z.mod_divide in Hdiv as [q Hq]; [|lia].
  unfold walk_start, walk_stride.
  rewrite (low_is_even_spec SL D m K HK), land_1_even, <- Z.even_add.
  replace (m * K - SL + first) with (m * K + (first - SL)) by lia.
  destruct (Z.ltb_spec 2 a_prime) as [Hgt|Hle]; cbn [andb].
  - destruct Hodd as [->|Hodd]; [lia|].
    assert (Hparity : forall j,
               Z.odd (m * K + (first + j * a_prime - SL))
               = xorb (Z.odd (m * K + (first - SL))) (Z.odd j)).
    { intros j. replace (m * K + (first + j * a_prime - SL))
        with (m * K + (first - SL) + j * a_prime) by lia.
      rewrite Z.odd_add, Z.odd_mul, Hodd, andb_true_r. reflexivity. }
    rewrite <- Z.negb_odd in *.
    destruct (Z.odd (m * K + (first - SL))) eqn:E; cbn [negb]; split.
    + intros (k & Hk & -> & Hb). split; [lia|]. split.
      * apply Z.mod_divide; [lia|]. exists (q + 2 * k). lia.
      * right. replace (first + k * (2 * a_prime)) with (first + (2 * k) * a_prime) by lia.
        rewrite Hparity, Z.odd_mul. reflexivity.
    + intros (Hx & Hd & [->|Ho]); [lia|].
      apply Z.mod_divide in Hd as [q' Hq']; [|lia].
      assert (Ej : x = first + (q' - q) * a_prime) by lia.
      rewrite Ej, Hparity in Ho. cbn in Ho.
      destruct (Z.odd (q' - q)) eqn:Oj; [discriminate|].
      rewrite <- Z.negb_even in Oj. apply negb_false_iff, Z.even_spec in Oj as [k Hk].
      exists k. split; [nia|]. split; [nia|lia].
    + intros (k & Hk & -> & Hb). split; [lia|]. split.
      * apply Z.mod_divide; [lia|]. exists (q + 2 * k + 1). lia.
      * right. replace (first + a_prime + k * (2 * a_prime))
          with (first + (2 * k + 1) * a_prime) by lia.
        rewrite Hparity, Z.odd_add, Z.odd_mul. reflexivity.
    + intros (Hx & Hd & [->|Ho]); [lia|].
      apply Z.mod_divide in Hd as [q' Hq']; [|lia].
      assert (Ej : x = first + (q' - q) * a_prime) by lia.
      rewrite Ej, Hparity in Ho. cbn in Ho.
      apply Z.odd_spec in Ho as [k Hk].
      exists k. split; [nia|]. split; [nia|lia].
  - assert (a_prime = 2) as -> by lia. split.
    + intros (k & Hk & -> & Hb). split; [lia|]. split; [|left; reflexivity].
      apply Z.mod_divide; [lia|]. exists (q + k). lia.
    + intros (Hx & Hd & _).
      apply Z.mod_divide in Hd as [q' Hq']; [|lia].
      exists (q' - q). split; [lia|]. split; lia.
Qed.

Lemma small_prime_offsets_odd_multiples_witness :
  In 17 [3; 17; 31; 45; 59; 73] <->
    0 <= 17 <= 2 * 40 /\ (1 * 30 + (17 - 40)) mod 7 = 0 /\
    (7 = 2 \/ Z.odd (1 * 30 + (17 - 40)) = true).
Proof.
  apply (small_prime_offsets_odd_multiples 40 1 1 30 7 [] [] [3; 17; 31; 45; 59; 73]);
    try lia; try reflexivity.
  right. reflexivity.
Defined.

(** ** The index of the valid m *)

(** [gcd(M_start + mi, D) == 1] *)
Definition coprime_mi (M_start D mi : Z) : bool := Z.gcd (u32 (M_start + mi)) D =? 1.

(** The state of the loop of [index_valid_m] after the first [j] values
    of [mi], for vectors of length [n]. *)
Definition indexed_upto (M_start D : Z) (n j : nat)
    (st : list Z * list Z * list bool) : Prop :=
  let '(valid_mi, m_reindex, m_not_coprime) := st in
  valid_mi = List.filter (coprime_mi M_start D) (seqZ 0 (Z.of_nat j)) /\
  length m_reindex = n /\ length m_not_coprime = n /\
  (forall i, (i < j)%nat -> coprime_mi M_start D (Z.of_nat i) = true ->
     exists k, m_reindex !! i = Some (Z.of_nat k) /\
               valid_mi !! k = Some (Z.of_nat i) /\
               m_not_coprime !! i = Some false) /\
  (forall i, (i < n)%nat ->
     (j <= i)%nat \/ coprime_mi M_start D (Z.of_nat i) = false ->
     m_reindex !! i = Some (-1) /\ m_not_coprime !! i = Some true).

Lemma index_valid_m_upto M_start D (n : nat) : forall j : nat, (j <= n)%nat ->
  indexed_upto M_start D n j
    (fold_left (fun '(valid_mi, m_reindex, m_not_coprime) mi =>
                  if Z.gcd (u32 (M_start + mi)) D =? 1
                  then (valid_mi ++ [mi],
                        <[Z.to_nat mi := size valid_mi]> m_reindex,
                        <[Z.to_nat mi := false]> m_not_coprime)
                  else (valid_mi, m_reindex, m_not_coprime))
               (seqZ 0 (Z.of_nat j))
               ([], replicate n (-1), replicate n true)).
Proof.
  induction j as [|j IH]; intros Hj.
  - simpl. split; [reflexivity|]. rewrite !length_replicate.
    split; [reflexivity|]. split; [reflexivity|]. split; [intros; lia|].
    intros i Hi _. rewrite !lookup_replicate_2 by lia. auto.
  - rewrite seqZ_S, fold_left_app. specialize (IH ltac:(lia)).
    destruct (fold_left _ (seqZ 0 (Z.of_nat j)) _) as [[v r] c].
    destruct IH as (Hv & Hr & Hc & Hin & Hout).
    cbn [fold_left]. rewrite Z.add_0_l.
    fold (coprime_mi M_start D (Z.of_nat j)).
    unfold indexed_upto. rewrite seqZ_S, List.filter_app, Z.add_0_l. cbn [List.filter].
    destruct (coprime_mi M_start D (Z.of_nat j)) eqn:E.
    + rewrite Nat2Z.id, !length_insert. rewrite <- Hv.
      split; [reflexivity|]. split; [exact Hr|]. split; [exact Hc|]. split.
      * intros i Hi Pi. destruct (decide (i = j)) as [->|Hne].
        -- exists (length v). rewrite !list_lookup_insert_eq by lia.
           split; [reflexivity|]. split; [|reflexivity].
           rewrite lookup_app_r by lia. rewrite Nat.sub_diag. reflexivity.
        -- destruct (Hin i ltac:(lia) Pi) as (k & H1 & H2 & H3).
           exists k. rewrite !list_lookup_insert_ne by lia.
           split; [exact H1|]. split; [|exact H3].
           rewrite lookup_app_l; [exact H2|]. apply lookup_lt_Some in H2. exact H2.
      * intros i Hi Hcase. assert (i <> j).
        { intros ->. destruct Hcase as [?|Hf]; [lia|]. rewrite E in Hf. discriminate. }
        rewrite !list_lookup_insert_ne by lia. apply Hout; [exact Hi|].
        destruct Hcase; [left; lia | right; assumption].
    + rewrite app_nil_r, <- Hv.
      split; [reflexivity|]. split; [exact Hr|]. split; [exact Hc|]. split.
      * intros i Hi Pi. assert (i <> j) by (intros ->; rewrite E in Pi; discriminate).
        apply Hin; [lia | exact Pi].
      * intros i Hi Hcase. apply Hout; [exact Hi|].
        destruct (decide (i = j)) as [->|Hne]; [left; lia|].
        destruct Hcase; [left; lia | right; assumption].
Qed.

(** [valid_mi] holds, in ascending order, the [mi] below [M_inc] whose
    [m = M_start + mi] is coprime to [D]; [m_reindex] maps each of them
    back to its position in [valid_mi], and every other [mi] to -1. *)
Theorem index_valid_m_reindex M_start M_inc D valid_mi m_reindex m_not_coprime :
  index_valid_m M_start M_inc D = (valid_mi, m_reindex, m_not_coprime) ->
  valid_mi = List.filter (coprime_mi M_start D) (seqZ 0 M_inc) /\
  (forall k mi, valid_mi !! k = Some mi ->
     m_reindex !! Z.to_nat mi = Some (Z.of_nat k) /\
     m_not_coprime !! Z.to_nat mi = Some false) /\
  (forall mi, 0 <= mi < M_inc -> coprime_mi M_start D mi = false ->
     m_reindex !! Z.to_nat mi = Some (-1) /\
     m_not_coprime !! Z.to_nat mi = Some true).
Proof.
  intros H. unfold index_valid_m in H.
  destruct (Z.le_gt_cases M_inc 0) as [Hle|Hpos].
  - rewrite seqZ_nil in H by lia. cbn [fold_left] in H. injection H as <- <- <-.
    rewrite seqZ_nil by lia. split; [reflexivity|]. split; [|intros; lia].
    intros k mi Hk. rewrite lookup_nil in Hk. discriminate.
  - pose proof (index_valid_m_upto M_start D (Z.to_nat M_inc) (Z.to_nat M_inc) ltac:(lia))
      as Hinv.
    rewrite Z2Nat.id in Hinv by lia. rewrite H in Hinv.
    destruct Hinv as (Hv & Hr & Hc & Hin & Hout).
    rewrite Z2Nat.id in Hv by lia.
    split; [exact Hv|]. split.
    + intros k mi Hk.
      assert (Hmem : mi ∈ valid_mi) by (eapply list_elem_of_lookup_2; exact Hk).
      rewrite Hv in Hmem. apply list_elem_of_In, List.filter_In in Hmem as [Hmem Pmi].
      apply list_elem_of_In, elem_of_seqZ in Hmem.
      destruct (Hin (Z.to_nat mi) ltac:(lia)) as (k' & H1 & H2 & H3).
      { rewrite Z2Nat.id by lia. exact Pmi. }
      rewrite Z2Nat.id in H2 by lia.
      assert (k' = k) as ->.
      { eapply NoDup_lookup; [|exact H2|exact Hk].
        rewrite Hv. apply NoDup_ListNoDup, List.NoDup_filter, NoDup_ListNoDup, NoDup_seqZ. }
      auto.
    + intros mi Hmi Pmi. apply Hout; [lia|]. right. rewrite Z2Nat.id by lia. exact Pmi.
Qed.

Lemma index_valid_m_reindex_witness :
  [0; 4; 6] = List.filter (coprime_mi 1 6) (seqZ 0 7) /\
  (forall k mi, [0; 4; 6] !! k = Some mi ->
     [0; -1; -1; -1; 1; -1; 2] !! Z.to_nat mi = Some (Z.of_nat k) /\
     [false; true; true; true; false; true; false] !! Z.to_nat mi = Some false) /\
  (forall mi, 0 <= mi < 7 -> coprime_mi 1 6 mi = false ->
     [0; -1; -1; -1; 1; -1; 2] !! Z.to_nat mi = Some (-1) /\
     [false; true; true; true; false; true; false] !! Z.to_nat mi = Some true).
Proof. apply (index_valid_m_reindex 1 7 6). reflexivity. Defined.

(** ** The reindexing of the offsets *)

(** The state of the loop of [build_i_reindex] after the offsets of [cc]. *)
Definition reindexed (cc : list bool) (st : list Z * list Z * Z) : Prop :=
  let '(i_reindex, coprime_X, coprime_count) := st in
  length i_reindex = length cc /\
  coprime_count = size coprime_X /\
  (forall X, cc !! X = Some false -> i_reindex !! X = Some 0) /\
  (forall X, cc !! X = Some true ->
     exists k, i_reindex !! X = Some (Z.of_nat k + 1) /\
               coprime_X !! k = Some (Z.of_nat X)) /\
  (forall k X, coprime_X !! k = Some X ->
     0 <= X /\ cc !! Z.to_nat X = Some true /\
     i_reindex !! Z.to_nat X = Some (Z.of_nat k + 1)).

Lemma build_i_reindex_loop (cc : list bool) :
  reindexed cc
    (fold_left (fun '(i_reindex, coprime_X, coprime_count) '(X, c) =>
                  if (c : bool)
                  then (i_reindex ++ [coprime_count + 1], coprime_X ++ [X],
                        coprime_count + 1)
                  else (i_reindex ++ [0], coprime_X, coprime_count))
               (zip (seqZ 0 (size cc)) cc)
               ([], [], 0)).
Proof.
  induction cc as [|c cc IH] using rev_ind.
  - simpl. split; [reflexivity|]. split; [reflexivity|].
    split; [intros X H; rewrite lookup_nil in H; discriminate|].
    split; [intros X H; rewrite lookup_nil in H; discriminate|].
    intros k X H. rewrite lookup_nil in H. discriminate.
  - unfold size. rewrite length_app. cbn [length].
    replace (Z.of_nat (length cc + 1)) with (Z.of_nat (S (length cc))) by lia.
    rewrite seqZ_S, zip_with_app by (rewrite length_seqZ; lia).
    rewrite fold_left_app. fold (size cc).
    destruct (fold_left _ (zip (seqZ 0 (size cc)) cc) _) as [[ir cx] count].
    destruct IH as (Hlen & Hcount & Hzero & Hone & Hback).
    cbn [zip_with fold_left]. rewrite Z.add_0_l. unfold reindexed.
    destruct c.
    + rewrite !length_app. cbn [length]. split; [lia|].
      split; [unfold size; rewrite length_app; cbn [length]; unfold size in Hcount; lia|].
      split; [|split].
      * intros X HX. apply lookup_app_Some in HX as [HX|[HX1 HX2]].
        -- rewrite lookup_app_l by (apply lookup_lt_Some in HX; lia). auto.
        -- apply list_lookup_singleton_Some in HX2 as [_ HX2]. discriminate.
      * intros X HX. apply lookup_app_Some in HX as [HX|[HX1 HX2]].
        -- destruct (Hone X HX) as (k & H1 & H2). exists k.
           rewrite lookup_app_l by (apply lookup_lt_Some in HX; lia).
           rewrite lookup_app_l by (apply lookup_lt_Some in H2; lia). auto.
        -- apply list_lookup_singleton_Some in HX2 as [HX2 _].
           exists (length cx). assert (X = length cc) as -> by lia.
           rewrite lookup_app_r by lia. rewrite lookup_app_r by lia.
           rewrite Hlen, !Nat.sub_diag. cbn. unfold size in Hcount.
           rewrite Hcount. auto.
      * intros k X HX. apply lookup_app_Some in HX as [HX|[HX1 HX2]].
        -- destruct (Hback k X HX) as (H0 & H1 & H2). split; [exact H0|].
           rewrite lookup_app_l by (apply lookup_lt_Some in H1; lia).
           rewrite lookup_app_l by (apply lookup_lt_Some in H2; lia). auto.
        -- apply list_lookup_singleton_Some in HX2 as [HX2 <-].
           unfold size. split; [lia|]. rewrite Nat2Z.id.
           rewrite lookup_app_r by lia. rewrite lookup_app_r by lia.
           rewrite Hlen, !Nat.sub_diag. cbn. unfold size in Hcount.
           split; [reflexivity|]. do 2 f_equal. lia.
    + rewrite !length_app. cbn [length]. split; [lia|]. split; [exact Hcount|].
      split; [|split].
      * intros X HX. apply lookup_app_Some in HX as [HX|[HX1 HX2]].
        -- rewrite lookup_app_l by (apply lookup_lt_Some in HX; lia). auto.
        -- apply list_lookup_singleton_Some in HX2 as [HX2 _].
           assert (X = length cc) as -> by lia.
           rewrite lookup_app_r by lia. rewrite Hlen, Nat.sub_diag. reflexivity.
      * intros X HX. apply lookup_app_Some in HX as [HX|[HX1 HX2]].
        -- destruct (Hone X HX) as (k & H1 & H2). exists k.
           rewrite lookup_app_l by (apply lookup_lt_Some in HX; lia). auto.
        -- apply list_lookup_singleton_Some in HX2 as [_ HX2]. discriminate.
      * intros k X HX. destruct (Hback k X HX) as (H0 & H1 & H2). split; [exact H0|].
        rewrite lookup_app_l by (apply lookup_lt_Some in H1; lia).
        rewrite lookup_app_l by (apply lookup_lt_Some in H2; lia). auto.
Qed.

(** [i_reindex] numbers the offsets marked in [coprime_composite] from 1
    on and maps every other offset to 0; [coprime_X] is its inverse:
    the offset with the number [k + 1] is [coprime_X[k]]. *)
Theorem build_i_reindex_inverse coprime_composite i_reindex coprime_X :
  build_i_reindex coprime_composite = (i_reindex, coprime_X) ->
  length i_reindex = length coprime_composite /\
  (forall X, coprime_composite !! X = Some false -> i_reindex !! X = Some 0) /\
  (forall X, coprime_composite !! X = Some true ->
     exists k, i_reindex !! X = Some (Z.of_nat k + 1) /\
               coprime_X !! k = Some (Z.of_nat X)) /\
  (forall k X, coprime_X !! k = Some X ->
     0 <= X /\ coprime_composite !! Z.to_nat X = Some true /\
     i_reindex !! Z.to_nat X = Some (Z.of_nat k + 1)).
Proof.
  intros H. unfold build_i_reindex in H.
  pose proof (build_i_reindex_loop coprime_composite) as Hinv.
  destruct (fold_left _ _ _) as [[ir cx] count].
  injection H as <- <-. destruct Hinv as (H1 & _ & H3 & H4 & H5). auto.
Qed.

Lemma build_i_reindex_inverse_witness :
  length [0; 1; 0; 2; 3] = length [false; true; false; true; true] /\
  (forall X, [false; true; false; true; true] !! X = Some false ->
     [0; 1; 0; 2; 3] !! X = Some 0) /\
  (forall X, [false; true; false; true; true] !! X = Some true ->
     exists k, [0; 1; 0; 2; 3] !! X = Some (Z.of_nat k + 1) /\
               [1; 3; 4] !! k = Some (Z.of_nat X)) /\
  (forall k X, [1; 3; 4] !! k = Some X ->
     0 <= X /\ [false; true; false; true; true] !! Z.to_nat X = Some true /\
     [0; 1; 0; 2; 3] !! Z.to_nat X = Some (Z.of_nat k + 1)).
Proof. apply (build_i_reindex_inverse [false; true; false; true; true]). reflexivity. Defined.

(** ** The offsets coprime to K *)

(** A prime of [P_primes] that does not divide [D] divides [dist]. *)
Definition has_K_factor (P_primes : list Z) (D dist : Z) : bool :=
  existsb (fun prime => negb (D mod prime =? 0) && (dist mod prime =? 0)) P_primes.

(** Writing the same bit at a list of offsets. *)
Lemma fill_offsets what (v : bool) (l : list Z) : forall cc : list bool,
  (forall x, In x l -> 0 <= x < size cc) ->
  exists cc',
    foldM (fun cc x => vset what cc x v) l cc = Ok cc' /\
    length cc' = length cc /\
    (forall x, 0 <= x -> In x l -> cc' !! Z.to_nat x = Some v) /\
    (forall x, 0 <= x -> ~ In x l -> cc' !! Z.to_nat x = cc !! Z.to_nat x).
Proof.
  induction l as [|a l IH]; intros cc Hl.
  - exists cc. split; [reflexivity|]. split; [reflexivity|]. split; [intros x _ []|auto].
  - cbn [foldM]. specialize (Hl a (or_introl eq_refl)) as Ha.
    unfold size in Ha.
    assert (Hv : vset what cc a v = Ok (<[Z.to_nat a := v]> cc)).
    { unfold vset. destruct (Z.leb_spec 0 a); [|lia].
      destruct (Z.ltb_spec a (Z.of_nat (length cc))); [reflexivity|lia]. }
    rewrite Hv. cbn [bind].
    destruct (IH (<[Z.to_nat a := v]> cc)) as (cc' & Hrun & Hlen & Hin & Hout).
    { intros x Hx. unfold size. rewrite length_insert. apply Hl. right. exact Hx. }
    exists cc'. split; [exact Hrun|]. rewrite length_insert in Hlen. split; [exact Hlen|].
    split.
    + intros x Hx0 [->|Hx]; [|auto].
      destruct (in_dec Z.eq_dec x l) as [Hi|Hn]; [auto|].
      rewrite Hout by assumption. apply list_lookup_insert_eq. lia.
    + intros x Hx0 Hx. rewrite Hout; [|exact Hx0|intros Hi; apply Hx; right; exact Hi].
      apply list_lookup_insert_ne. intros E. apply Hx. left. lia.
Qed.

(** The loop over the primes of [build_coprime_composite], from any
    table [cc0] of the length of the interval. *)
Lemma build_coprime_composite_loop D SL : 0 <= SL < 2 ^ 31 ->
  forall (P_primes : list Z) (cc0 : list bool),
    Forall (fun prime => 0 < prime) P_primes ->
    size cc0 = 2 * SL + 1 ->
    exists cc,
      foldM (fun cc prime =>
               if negb (D mod prime =? 0) then
                 let first := SL mod prime in
                 let* _ := assert ((0 <=? first) && (first <? prime))
                                  "0 <= first && first < prime" in
                 let* _ := assert ((SL - first) mod prime =? 0)
                                  "(SIEVE_LENGTH - first) % prime == 0" in
                 for_stride (S (Z.to_nat (u32 (2 * SL + 1)))) first prime
                            (u32 (2 * SL + 1))
                            (fun cc x => vset "coprime_composite[x]" cc x false) cc
               else Ok cc)
            P_primes cc0 = Ok cc /\
      size cc = 2 * SL + 1 /\
      forall x, 0 <= x <= 2 * SL ->
        cc !! Z.to_nat x
        = (b ← cc0 !! Z.to_nat x; Some (b && negb (has_K_factor P_primes D (x - SL)))).
Proof.
  intros HSL. rewrite (u32_small (2 * SL + 1)) by lia.
  induction P_primes as [|prime primes IH]; intros cc0 Hpos Hsize.
  - exists cc0. split; [reflexivity|]. split; [exact Hsize|].
    intros x Hx. cbn. destruct (cc0 !! Z.to_nat x) as [b|]; cbn; [|reflexivity].
    rewrite andb_true_r. reflexivity.
  - apply Forall_cons in Hpos as [Hp Hpos]. cbn [foldM has_K_factor existsb].
    destruct (D mod prime =? 0) eqn:ED; cbn [negb andb orb bind].
    + destruct (IH cc0 Hpos Hsize) as (cc & Hrun & Hlen & Hcc).
      exists cc. auto.
    + pose proof (Z.mod_pos_bound SL prime Hp) as Hfirst.
      destruct (Z.leb_spec 0 (SL mod prime)); [|lia].
      destruct (Z.ltb_spec (SL mod prime) prime); [|lia].
      cbn [andb assert bind].
      replace ((SL - SL mod prime) mod prime =? 0) with true; cycle 1.
      { symmetry. apply Z.eqb_eq. apply Z.mod_divide; [lia|].
        exists (SL / prime). pose proof (Z.div_mod SL prime ltac:(lia)). lia. }
      cbn [assert bind].
      rewrite for_stride_spec by lia.
      destruct (fill_offsets "coprime_composite[x]" false
                  (stride_list (SL mod prime) prime (2 * SL + 1)) cc0)
        as (cc1 & Hrun1 & Hlen1 & Hin1 & Hout1).
      { intros x Hx. apply stride_list_In in Hx as (k & Hk & -> & Hb); [|lia]. nia. }
      rewrite Hrun1. cbn [bind].
      destruct (IH cc1 Hpos) as (cc & Hrun & Hlen & Hcc).
      { unfold size in *. lia. }
      exists cc. split; [exact Hrun|]. split; [exact Hlen|].
      intros x Hx. rewrite Hcc by exact Hx.
      destruct ((x - SL) mod prime =? 0) eqn:Ex; cbn [orb negb].
      * rewrite Hin1; [|lia|].
        -- assert (is_Some (cc0 !! Z.to_nat x)) as [b ->].
           { apply lookup_lt_is_Some. unfold size in Hsize. lia. }
           cbn. rewrite andb_false_r. reflexivity.
        -- apply stride_list_In; [lia|].
           apply Z.eqb_eq, Z.mod_divide in Ex as [q Hq]; [|lia].
           pose proof (Z.div_mod SL prime ltac:(lia)).
           exists (q + SL / prime). split; [nia|]. split; lia.
      * rewrite Hout1; [reflexivity|lia|].
        intros Hi. apply stride_list_In in Hi as (k & Hk & Hxk & Hb); [|lia].
        apply Z.eqb_neq in Ex. apply Ex. apply Z.mod_divide; [lia|].
        pose proof (Z.div_mod SL prime ltac:(lia)).
        exists (k - SL / prime). lia.
Qed.

Lemma has_K_factor_opp P_primes D dist :
  Forall (fun prime => 0 < prime) P_primes ->
  has_K_factor P_primes D (- dist) = has_K_factor P_primes D dist.
Proof.
  unfold has_K_factor. induction 1 as [|prime primes Hp _ IH]; cbn [existsb]; [reflexivity|].
  rewrite IH. do 2 f_equal.
  destruct (Z.eqb_spec (dist mod prime) 0) as [E|E].
  - apply Z.eqb_eq. apply Z.mod_opp_l_z; [lia | exact E].
  - apply Z.eqb_neq. intros E'. apply E.
    apply Z.mod_opp_l_z in E'; [|lia]. rewrite Z.opp_involutive in E'. exact E'.
Qed.

(** [coprime_composite] is built for every half length below 2^31 and
    positive primes: it has an entry for every offset of the interval,
    set exactly where no prime of K (a prime of [P_primes] that does not
    divide [D]) divides the distance [x - SL] to the centre; so it is
    symmetric about the centre. *)
Theorem build_coprime_composite_spec P_primes D SL :
  0 <= SL < 2 ^ 31 -> Forall (fun prime => 0 < prime) P_primes ->
  exists cc,
    build_coprime_composite P_primes D SL = Ok cc /\
    size cc = 2 * SL + 1 /\
    (forall x, 0 <= x <= 2 * SL ->
       cc !! Z.to_nat x = Some (negb (has_K_factor P_primes D (x - SL)))) /\
    (forall x, 0 <= x <= 2 * SL -> cc !! Z.to_nat (2 * SL - x) = cc !! Z.to_nat x).
Proof.
  intros HSL Hpos. unfold build_coprime_composite.
  destruct (build_coprime_composite_loop D SL HSL P_primes
              (replicate (Z.to_nat (u32 (2 * SL + 1))) true) Hpos)
    as (cc & Hrun & Hlen & Hcc).
  { unfold size. rewrite length_replicate, u32_small by lia. lia. }
  exists cc. split; [exact Hrun|]. split; [exact Hlen|].
  assert (Hspec : forall x, 0 <= x <= 2 * SL ->
            cc !! Z.to_nat x = Some (negb (has_K_factor P_primes D (x - SL)))).
  { intros x Hx. rewrite Hcc by exact Hx.
    rewrite lookup_replicate_2 by (rewrite u32_small by lia; lia). reflexivity. }
  split; [exact Hspec|].
  intros x Hx. rewrite !Hspec by lia. do 2 f_equal.
  replace (2 * SL - x - SL) with (- (x - SL)) by lia.
  apply has_K_factor_opp. exact Hpos.
Qed.

Lemma build_coprime_composite_spec_witness :
  exists cc,
    build_coprime_composite [2; 3; 5] 2 4 = Ok cc /\
    size cc = 2 * 4 + 1 /\
    (forall x, 0 <= x <= 2 * 4 ->
       cc !! Z.to_nat x = Some (negb (has_K_factor [2; 3; 5] 2 (x - 4)))) /\
    (forall x, 0 <= x <= 2 * 4 -> cc !! Z.to_nat (2 * 4 - x) = cc !! Z.to_nat x).
Proof.
  apply (build_coprime_composite_spec [2; 3; 5] 2 4); [lia|].
  repeat constructor.
Defined.

(** ** The print points *)

(** When a prime has reached the print point, [method2_increment_print]
    moves the print point forward, to a later multiple of the (possibly
    ten times larger) step, or to [LAST_PRIME] when that is nearer; the
    step stays positive. *)
Theorem method2_increment_print_advances prime LAST_PRIME stats :
  0 < next_mult stats -> 0 <= next_print stats <= prime ->
  (next_mult stats | next_print stats) ->
  let stats' := method2_increment_print prime LAST_PRIME stats in
  (next_mult stats' = next_mult stats \/ next_mult stats' = 10 * next_mult stats) /\
  next_print stats' <= LAST_PRIME /\
  (next_print stats' = LAST_PRIME \/
   next_print stats < next_print stats' /\ (next_mult stats' | next_print stats')).
Proof.
  intros Hmult Hprint [k Hk]. cbv zeta. unfold method2_increment_print.
  destruct (Z.leb_spec (next_print stats) prime) as [_|]; [|lia].
  destruct (_ && _) eqn:E; cbn [next_mult next_print].
  - apply andb_true_iff in E as [_ E]. apply Z.eqb_eq in E.
    split; [right; lia|]. split; [lia|].
    destruct (Z.min_spec (0 + next_mult stats * 10) LAST_PRIME) as [[_ ->]|[_ ->]];
      [right | left; reflexivity].
    split; [destruct (1000000000 <? prime); lia|].
    exists 1. lia.
  - split; [left; reflexivity|]. split; [lia|].
    destruct (Z.min_spec (next_print stats + next_mult stats) LAST_PRIME)
      as [[_ ->]|[_ ->]]; [right | left; reflexivity].
    split; [lia|]. exists (k + 1). lia.
Qed.

Lemma method2_increment_print_advances_witness :
  let stats' := method2_increment_print 50021 1000003 (mkStats 50000 10000) in
  (next_mult stats' = 10000 \/ next_mult stats' = 10 * 10000) /\
  next_print stats' <= 1000003 /\
  (next_print stats' = 1000003 \/
   50000 < next_print stats' /\ (next_mult stats' | next_print stats')).
Proof.
  apply (method2_increment_print_advances 50021 1000003 (mkStats 50000 10000)).
  - reflexivity.
  - cbn. lia.
  - exists 5. reflexivity.
Defined.

(** ** Decimal numbers: written by [<<], read back by [>>] *)

(** The value of a string of digits read after [acc]. *)
Definition digits_value (ds : list Z) (acc : Z) : Z :=
  fold_left (fun a c => 10 * a + (c - 48)) ds acc.

Lemma dec_digits_spec : forall (fuel : nat) n acc,
  0 <= n < 10 ^ Z.of_nat (S fuel) ->
  exists ds, dec_digits (S fuel) n acc = ds ++ acc /\
             ds <> [] /\ Forall (fun c => is_digit c = true) ds /\
             forall a, digits_value ds a = a * 10 ^ Z.of_nat (length ds) + n.
Proof.
  assert (Hone : forall n acc, 0 <= n < 10 ->
            exists ds, (48 + n mod 10) :: acc = ds ++ acc /\
              ds <> [] /\ Forall (fun c => is_digit c = true) ds /\
              forall a, digits_value ds a = a * 10 ^ Z.of_nat (length ds) + n).
  { intros n acc Hn. exists [48 + n mod 10]. split; [reflexivity|]. split; [discriminate|].
    rewrite Z.mod_small by lia. split.
    - repeat constructor. unfold is_digit. apply andb_true_iff. split; apply Z.leb_le; lia.
    - intros a. cbn. lia. }
  induction fuel as [|fuel IH]; intros n acc Hn.
  - change (10 ^ Z.of_nat 1) with 10 in Hn. cbn [dec_digits].
    destruct (Z.ltb_spec n 10); [|lia]. apply Hone. lia.
  - change (dec_digits (S (S fuel)) n acc)
      with (if n <? 10 then (48 + n mod 10) :: acc
            else dec_digits (S fuel) (n / 10) ((48 + n mod 10) :: acc)).
    pose proof (Z.mod_pos_bound n 10 ltac:(lia)) as Hm.
    destruct (Z.ltb_spec n 10) as [Hlt|Hge]; [apply Hone; lia|].
    destruct (IH (n / 10) ((48 + n mod 10) :: acc)) as (ds & Hds & Hne & Hall & Hval).
    { split; [apply Z.div_pos; lia|].
      apply Z.div_lt_upper_bound; [lia|].
      rewrite (Nat2Z.inj_succ (S fuel)), Z.pow_succ_r in Hn by lia. lia. }
    exists (ds ++ [48 + n mod 10]). rewrite Hds, <- app_assoc. split; [reflexivity|].
    split; [destruct ds; discriminate|].
    split.
    { apply Forall_app. split; [exact Hall|]. repeat constructor.
      unfold is_digit. apply andb_true_iff. split; apply Z.leb_le; lia. }
    intros a. unfold digits_value in *. rewrite fold_left_app, Hval. cbn.
    rewrite length_app, Nat2Z.inj_add. cbn [length].
    change (Z.of_nat 1) with 1. rewrite Z.pow_add_r by lia.
    pose proof (Z.div_mod n 10 ltac:(lia)). lia.
Qed.

(** A number below 2^64 written by [put_uint]: a non-empty string of
    digits that has the number as its value. *)
Lemma put_uint_digits n : 0 <= n < 2 ^ 64 ->
  exists c ds, put_uint n = c :: ds /\
               Forall (fun c => is_digit c = true) (c :: ds) /\
               digits_value (c :: ds) 0 = n.
Proof.
  intros Hn. destruct (dec_digits_spec 19 n []) as (ds & Hds & Hne & Hall & Hval).
  { change (10 ^ Z.of_nat 20) with 100000000000000000000. lia. }
  unfold put_uint. rewrite Hds, app_nil_r.
  destruct ds as [|c ds]; [congruence|].
  exists c, ds. split; [reflexivity|]. split; [exact Hall|].
  rewrite Hval. lia.
Qed.

(** What ends a number: the end of the input or a byte that is no digit. *)
Definition stops (tail : list Z) : Prop :=
  match tail with
  | [] => True
  | c :: _ => is_digit c = false
  end.

Lemma scan_digits_app ds : forall tail acc k,
  Forall (fun c => is_digit c = true) ds -> stops tail ->
  scan_digits (ds ++ tail) acc k = (digits_value ds acc, (k + length ds)%nat, tail).
Proof.
  induction ds as [|c ds IH]; intros tail acc k Hall Hstop.
  - cbn. rewrite Nat.add_0_r. destruct tail as [|c tail]; [reflexivity|].
    cbn in Hstop. cbn. rewrite Hstop. reflexivity.
  - apply Forall_cons in Hall as [Hc Hall]. cbn [app scan_digits]. rewrite Hc.
    rewrite IH by assumption. cbn [length digits_value fold_left].
    f_equal. f_equal. lia.
Qed.

Lemma digit_not_space c : is_digit c = true -> is_space c = false.
Proof.
  unfold is_digit, is_space. intros H. apply andb_true_iff in H as [H1 H2].
  apply Z.leb_le in H1, H2.
  destruct (Z.eqb_spec c 32); [lia|]. destruct (Z.leb_spec c 13); [lia|].
  rewrite andb_false_r. reflexivity.
Qed.

(** [>>] reads back a number below 2^31 written by [<<], with the sign
    given by [sign] (nothing, '+' or '-') and after any white space
    [ws], when something that is no digit follows. *)
Inductive Sign : Type := NoSign | Plus | Minus.

Definition sign_bytes (sg : Sign) : list Z :=
  match sg with NoSign => [] | Plus => [43] | Minus => [45] end.

Definition signed (sg : Sign) (n : Z) : Z :=
  match sg with Minus => - n | _ => n end.

Lemma get_int_put_uint (sg : Sign) (ws : list Z) n c tail :
  0 <= n < 2 ^ 31 ->
  Forall (fun c => is_space c = true) ws ->
  is_digit c = false ->
  get_int (mkIn (ws ++ sign_bytes sg ++ put_uint n ++ c :: tail) true)
  = (Some (signed sg n), mkIn (c :: tail) true).
Proof.
  intros Hn Hws Hc. unfold get_int. cbn [good buf negb].
  destruct (put_uint_digits n ltac:(lia)) as (d & ds & Hput & Hall & Hval).
  rewrite Hput.
  assert (Hd : is_digit d = true) by (apply Forall_inv in Hall; exact Hall).
  assert (Hskip : forall l, (match l with [] => False | x :: _ => is_space x = false end) ->
                            skip_ws (ws ++ l) = l).
  { intros l Hl. induction Hws as [|w ws Hw _ IH]; cbn [app skip_ws].
    - destruct l as [|x l]; [destruct Hl|]. cbn. rewrite Hl. reflexivity.
    - rewrite Hw. exact IH. }
  assert (Hscan : scan_digits ((d :: ds) ++ c :: tail) 0 0
                  = (n, (0 + length (d :: ds))%nat, c :: tail)).
  { rewrite scan_digits_app; [rewrite Hval; reflexivity | exact Hall | exact Hc]. }
  assert (Hd45 : (d =? 45) = false /\ (d =? 43) = false).
  { unfold is_digit in Hd. apply andb_true_iff in Hd as [H1 _]. apply Z.leb_le in H1.
    split; apply Z.eqb_neq; lia. }
  destruct Hd45 as [Hd45 Hd43].
  destruct sg; cbn [sign_bytes app signed].
  - rewrite Hskip by (apply digit_not_space; exact Hd).
    rewrite Hd45, Hd43. change (d :: ds ++ c :: tail) with ((d :: ds) ++ c :: tail).
    rewrite Hscan. cbn [length Nat.add].
    destruct (Z.ltb_spec n (- 2 ^ 31)); [lia|].
    destruct (Z.ltb_spec (2 ^ 31 - 1) n); [lia|]. reflexivity.
  - rewrite Hskip by reflexivity. cbn [Z.eqb Pos.eqb].
    change (d :: ds ++ c :: tail) with ((d :: ds) ++ c :: tail).
    rewrite Hscan. cbn [length Nat.add].
    destruct (Z.ltb_spec n (- 2 ^ 31)); [lia|].
    destruct (Z.ltb_spec (2 ^ 31 - 1) n); [lia|]. reflexivity.
  - rewrite Hskip by reflexivity. cbn [Z.eqb Pos.eqb].
    change (d :: ds ++ c :: tail) with ((d :: ds) ++ c :: tail).
    rewrite Hscan. cbn [length Nat.add].
    destruct (Z.ltb_spec (- n) (- 2 ^ 31)); [lia|].
    destruct (Z.ltb_spec (2 ^ 31 - 1) (- n)); [lia|]. reflexivity.
Qed.

(** ** The two sides of an unknown line *)

(** [!comp[i_reindex_m[a]]], where both reads are in range. *)
Definition unknown_b (comp : list bool) (i_reindex_m : list Z) (a : Z) : bool :=
  match is_unknown comp i_reindex_m a with
  | Ok b => b
  | Err _ => false
  end.

(** The distances [i] in [[1, SL]] at which side [d] has an unknown. *)
Definition side_offsets (SL : Z) (comp : list bool) (i_reindex_m : list Z) (d : Z)
  : list Z :=
  List.filter (fun i => unknown_b comp i_reindex_m (SL + (2 * d - 1) * i)) (seqZ 1 SL).

(** The run-length bytes of the distances [offs], the previous one being
    [last]. *)
Fixpoint rle_bytes (last : Z) (offs : list Z) : list Z :=
  match offs with
  | [] => []
  | i :: offs' =>
      (48 + (i - last) / 128) :: (48 + (i - last) mod 128) :: rle_bytes i offs'
  end.

(** Every step of the distances fits the two bytes. *)
Fixpoint deltas_ok (last : Z) (offs : list Z) : Prop :=
  match offs with
  | [] => True
  | i :: offs' => 0 <= i - last < 128 * 128 /\ deltas_ok i offs'
  end.

Lemma i32_small x : 0 <= x < 2 ^ 31 -> i32 x = x.
Proof.
  intros Hx. unfold i32. cbv zeta. rewrite Z.mod_small by lia.
  destruct (Z.ltb_spec x (2 ^ 31)); lia.
Qed.

Lemma i32_u64_small x : - 2 ^ 31 <= x < 2 ^ 31 -> i32 (u64 x) = x.
Proof.
  intros Hx. unfold i32, u64. cbv zeta.
  replace (x mod 2 ^ 64 mod 2 ^ 32) with (x mod 2 ^ 32).
  - destruct (Z.le_gt_cases 0 x) as [Hpos|Hneg].
    + rewrite Z.mod_small by lia. destruct (Z.ltb_spec x (2 ^ 31)); lia.
    + replace (x mod 2 ^ 32) with (x + 2 ^ 32)
        by (apply (Z.mod_unique _ _ (-1)); lia).
      destruct (Z.ltb_spec (x + 2 ^ 32) (2 ^ 31)); lia.
  - change (2 ^ 64) with (2 ^ 32 * 2 ^ 32).
    rewrite Z.rem_mul_r by lia.
    rewrite Z.mul_comm, Z.mod_add by lia. rewrite Z.mod_mod by lia. reflexivity.
Qed.

(** The index of a distance: where the read of the writer is in range,
    the conversion to [int] has kept the value. *)
Lemma side_index_ok SL comp irm d i unk :
  0 <= SL < 2 ^ 31 -> (d = 0 \/ d = 1) -> 1 <= i <= SL ->
  is_unknown comp irm (side_index SL d i) = Ok unk ->
  side_index SL d i = SL + (2 * d - 1) * i.
Proof.
  intros HSL Hd Hi H. unfold side_index in *.
  destruct Hd as [-> | ->].
  - apply i32_u64_small. lia.
  - destruct (Z.lt_ge_cases (SL + (2 * 1 - 1) * i) (2 ^ 31)) as [Hlt|Hge].
    + apply i32_u64_small. lia.
    + exfalso. rewrite u64_small in H by lia.
      unfold is_unknown, vget, i32 in H. cbv zeta in H.
      rewrite Z.mod_small in H by lia.
      destruct (Z.ltb_spec (SL + (2 * 1 - 1) * i) (2 ^ 31)); [lia|].
      destruct (Z.ltb_spec (SL + (2 * 1 - 1) * i - 2 ^ 32) 0); [|lia].
      discriminate H.
Qed.

Lemma rle_fold SL comp irm d : 0 <= SL < 2 ^ 31 -> (d = 0 \/ d = 1) ->
  forall l out found last r,
  Forall (fun i => 1 <= i <= SL) l -> 0 <= last <= SL ->
  foldM (fun '(out, found, last) i =>
           let a := side_index SL d i in
           let* unk := is_unknown comp irm a in
           if unk then
             let delta := i32 (u64 (i - last)) in
             let* _ := assert ((0 <=? delta) && (delta <? 128 * 128))
                              "0 <= delta && delta < (128L*128)" in
             let upper := 48 + delta / 128 in
             let lower := 48 + delta mod 128 in
             Ok (out ++ [upper; lower], found + 1, i32 i)
           else Ok (out, found, last))
        l (out, found, last) = Ok r ->
  let offs := List.filter (fun i => unknown_b comp irm (SL + (2 * d - 1) * i)) l in
  fst (fst r) = out ++ rle_bytes last offs /\
  snd (fst r) = found + Z.of_nat (length offs) /\
  deltas_ok last offs.
Proof.
  intros HSL Hd.
  induction l as [|i l IH]; intros out found last r Hl Hlast H; cbn [foldM] in H.
  - injection H as <-. cbn. rewrite app_nil_r. split; [reflexivity|]. split; [lia|exact I].
  - apply Forall_cons in Hl as [Hi Hl].
    apply bind_ok in H as (st & Hst & H).
    apply bind_ok in Hst as (unk & Hunk & Hst).
    rewrite (side_index_ok SL comp irm d i unk HSL Hd Hi Hunk) in Hunk.
    assert (Hb : unknown_b comp irm (SL + (2 * d - 1) * i) = unk)
      by (unfold unknown_b; rewrite Hunk; reflexivity).
    cbn zeta. cbn [List.filter]. rewrite Hb.
    destruct unk.
    + rewrite (i32_u64_small (i - last)) in Hst by lia.
      rewrite (i32_small i) in Hst by lia.
      apply bind_ok in Hst as (u & Ha & Hst). apply assert_ok in Ha.
      apply andb_true_iff in Ha as [Ha1 Ha2]. apply Z.leb_le in Ha1. apply Z.ltb_lt in Ha2.
      injection Hst as <-. apply IH in H as (H1 & H2 & H3); [|exact Hl|lia].
      cbn [rle_bytes length deltas_ok]. rewrite H1, H2, <- app_assoc.
      split; [reflexivity|]. split; [lia|]. split; [lia|exact H3].
    + injection Hst as <-. apply IH in H; [exact H | exact Hl | exact Hlast].
Qed.

Lemma read_side_rle negate : forall offs last acc tail,
  deltas_ok last offs -> 0 <= last ->
  Forall (fun i => i < 2 ^ 32) offs ->
  read_side true negate (length offs) last (mkIn (rle_bytes last offs ++ tail) true) acc
  = (acc ++ offs, mkIn tail true).
Proof.
  induction offs as [|i offs IH]; intros last acc tail Hok Hlast Hall.
  - cbn. rewrite app_nil_r. reflexivity.
  - destruct Hok as [Hd Hok]. apply Forall_cons in Hall as [Hi Hall].
    cbn [length rle_bytes app read_side get_char good buf negb].
    pose proof (Z.mod_pos_bound (i - last) 128 ltac:(lia)) as Hm.
    assert (0 <= (i - last) / 128 < 128).
    { split; [apply Z.div_pos; lia | apply Z.div_lt_upper_bound; lia]. }
    rewrite (Z.mod_small (48 + (i - last) / 128)) by lia.
    rewrite (Z.mod_small (48 + (i - last) mod 128)) by lia.
    replace (last + ((48 + (i - last) / 128 - 48) * 128 + (48 + (i - last) mod 128 - 48)))
      with i by (pose proof (Z.div_mod (i - last) 128 ltac:(lia)); lia).
    rewrite (u32_small i) by lia.
    rewrite IH by (assumption || lia). rewrite <- app_assoc. reflexivity.
Qed.

(** The sparse bytes of the distances [offs]: a blank, the sign and the
    number, for each. *)
Definition sparse_bytes (prefix : Z) (offs : list Z) : list Z :=
  concat (map (fun i => 32 :: prefix :: put_uint i) offs).

Lemma sparse_fold SL comp irm d prefix : 0 <= SL < 2 ^ 31 -> (d = 0 \/ d = 1) ->
  forall l out found r,
  Forall (fun i => 1 <= i <= SL) l ->
  foldM (fun '(out, found) i =>
           let a := side_index SL d i in
           let* unk := is_unknown comp irm a in
           if unk then Ok (out ++ chars " " ++ [prefix] ++ put_uint i, found + 1)
           else Ok (out, found))
        l (out, found) = Ok r ->
  let offs := List.filter (fun i => unknown_b comp irm (SL + (2 * d - 1) * i)) l in
  fst r = out ++ sparse_bytes prefix offs /\
  snd r = found + Z.of_nat (length offs).
Proof.
  intros HSL Hd.
  induction l as [|i l IH]; intros out found r Hl H; cbn [foldM] in H.
  - injection H as <-. cbn. rewrite app_nil_r. split; [reflexivity|lia].
  - apply Forall_cons in Hl as [Hi Hl].
    apply bind_ok in H as (st & Hst & H).
    apply bind_ok in Hst as (unk & Hunk & Hst).
    rewrite (side_index_ok SL comp irm d i unk HSL Hd Hi Hunk) in Hunk.
    assert (Hb : unknown_b comp irm (SL + (2 * d - 1) * i) = unk)
      by (unfold unknown_b; rewrite Hunk; reflexivity).
    cbn zeta. cbn [List.filter]. rewrite Hb.
    destruct unk.
    + injection Hst as <-. apply IH in H as (H1 & H2); [|exact Hl].
      unfold sparse_bytes. cbn [map concat length]. fold (sparse_bytes prefix).
      rewrite H1, H2, <- !app_assoc. split; [reflexivity|lia].
    + injection Hst as <-. apply IH in H; [exact H | exact Hl].
Qed.

Lemma read_side_sparse (sg : Sign) (negate : bool) :
  (sg = Minus /\ negate = true) \/ (sg = Plus /\ negate = false) ->
  forall offs c acc t tail,
    Forall (fun i => 0 <= i < 2 ^ 31) offs -> is_digit t = false ->
    read_side false negate (length offs) c
              (mkIn (concat (map (fun i => 32 :: sign_bytes sg ++ put_uint i) offs)
                     ++ t :: tail) true) acc
    = (acc ++ offs, mkIn (t :: tail) true).
Proof.
  intros Hsg. induction offs as [|i offs IH]; intros c acc t tail Hall Ht.
  - cbn. rewrite app_nil_r. reflexivity.
  - apply Forall_cons in Hall as [Hi Hall].
    cbn [length map concat read_side].
    set (rest := concat (map (fun i => 32 :: sign_bytes sg ++ put_uint i) offs) ++ t :: tail).
    assert (Hrest : exists c' tail', rest = c' :: tail' /\ is_digit c' = false).
    { unfold rest. destruct offs as [|j offs]; cbn; eauto. }
    destruct Hrest as (c' & tail' & Hrest & Hc').
    rewrite <- app_assoc. fold rest. rewrite Hrest.
    replace ((32 :: sign_bytes sg ++ put_uint i) ++ c' :: tail')
      with ([32] ++ sign_bytes sg ++ put_uint i ++ c' :: tail')
      by (cbn [app]; rewrite <- app_assoc; reflexivity).
    rewrite get_int_put_uint; [|lia|repeat constructor|exact Hc'].
    replace (if negate then - signed sg i else signed sg i) with i
      by (destruct Hsg as [[-> ->]|[-> ->]]; cbn; lia).
    rewrite (u32_small i) by lia. rewrite <- Hrest. unfold rest.
    rewrite IH by assumption. rewrite <- app_assoc. reflexivity.
Qed.

(** ** The line written by [save_unknowns_line] *)

(** Lists of bytes are compared with [++] associated to the right. *)
Ltac norm_app := repeat (progress (cbn [app]) || rewrite <- app_assoc).

Lemma side_offsets_range SL comp irm d :
  Forall (fun i => 1 <= i <= SL) (side_offsets SL comp irm d).
Proof.
  apply List.Forall_forall. intros i Hi. unfold side_offsets in Hi.
  apply List.filter_In in Hi as [Hi _]. apply list_elem_of_In, elem_of_seqZ in Hi. lia.
Qed.

Lemma side_offsets_length SL comp irm d :
  0 <= SL -> 0 <= Z.of_nat (length (side_offsets SL comp irm d)) <= SL.
Proof.
  intros HSL. unfold side_offsets.
  pose proof (List.filter_length_le
                (fun i => unknown_b comp irm (SL + (2 * d - 1) * i)) (seqZ 1 SL)) as H.
  rewrite length_seqZ in H. lia.
Qed.

(** The bytes of one side: in the run-length form a blank and two bytes
    for each distance, in the sparse form a blank, the sign and the
    number for each distance. *)
Definition side_bytes (rle : bool) (d : Z) (offs : list Z) : list Z :=
  if rle then 32 :: rle_bytes 0 offs
  else sparse_bytes (if d =? 0 then 45 else 43) offs.

Lemma seqZ_side_range SL : Forall (fun i => 1 <= i <= SL) (seqZ 1 SL).
Proof.
  apply List.Forall_forall. intros i Hi.
  apply list_elem_of_In, elem_of_seqZ in Hi. lia.
Qed.

Lemma write_side_spec rle SL comp irm d out found :
  0 <= SL < 2 ^ 31 -> (d = 0 \/ d = 1) ->
  write_side rle SL comp irm d = Ok (out, found) ->
  out = side_bytes rle d (side_offsets SL comp irm d) /\
  found = Z.of_nat (length (side_offsets SL comp irm d)) /\
  (rle = true -> deltas_ok 0 (side_offsets SL comp irm d)).
Proof.
  intros HSL Hd. unfold write_side, side_bytes. destruct rle; intros H.
  - unfold rle_side in H. apply bind_ok in H as ([[out' found'] last'] & Hf & H).
    injection H as <- <-.
    apply (rle_fold SL comp irm d HSL Hd) in Hf as (H1 & H2 & H3);
      [|apply seqZ_side_range|lia].
    cbn [fst snd] in H1, H2. fold (side_offsets SL comp irm d) in H1, H2, H3.
    split; [exact H1|]. split; [lia|]. intros _. exact H3.
  - unfold sparse_side in H.
    apply (sparse_fold SL comp irm d _ HSL Hd) in H as (H1 & H2);
      [|apply seqZ_side_range].
    cbn [fst snd] in H1, H2. fold (side_offsets SL comp irm d) in H1, H2.
    split; [exact H1|]. split; [lia|]. discriminate.
Qed.

Lemma save_unknowns_line_shape rle SL mi comp irm line :
  0 <= SL < 2 ^ 31 ->
  save_unknowns_line rle SL mi comp irm = Ok line ->
  let lows := side_offsets SL comp irm 0 in
  let highs := side_offsets SL comp irm 1 in
  line = put_uint mi ++ [32; 58; 32; 45] ++ put_uint (Z.of_nat (length lows))
         ++ [32; 43] ++ put_uint (Z.of_nat (length highs)) ++ [32; 124]
         ++ side_bytes rle 0 lows ++ [32; 124] ++ side_bytes rle 1 highs ++ [10] /\
  (rle = true -> deltas_ok 0 lows /\ deltas_ok 0 highs).
Proof.
  intros HSL H. unfold save_unknowns_line in H.
  apply bind_ok in H as (u0 & _ & H).
  apply bind_ok in H as ([ul uu] & _ & H).
  apply bind_ok in H as ([out0 found0] & H0 & H).
  apply bind_ok in H as (u1 & Ha0 & H). apply assert_ok, Z.eqb_eq in Ha0.
  apply bind_ok in H as ([out1 found1] & H1 & H).
  apply bind_ok in H as (u2 & Ha1 & H). apply assert_ok, Z.eqb_eq in Ha1.
  injection H as <-.
  apply write_side_spec in H0 as (-> & -> & Hd0); [|exact HSL|left; reflexivity].
  apply write_side_spec in H1 as (-> & -> & Hd1); [|exact HSL|right; reflexivity].
  subst ul uu. cbv zeta. split; [|auto].
  change (chars " : -") with [32; 58; 32; 45].
  change (chars " +") with [32; 43]. change (chars " |") with [32; 124].
  norm_app. reflexivity.
Qed.

(** ** Reading the line back *)

Lemma get_int_plain n c tail :
  0 <= n < 2 ^ 31 -> is_digit c = false ->
  get_int (mkIn (put_uint n ++ c :: tail) true) = (Some n, mkIn (c :: tail) true).
Proof. intros Hn Hc. apply (get_int_put_uint NoSign [] n c tail Hn); [constructor | exact Hc]. Qed.

Lemma get_int_signed (sg : Sign) b n c tail :
  sign_bytes sg = [b] ->
  0 <= n < 2 ^ 31 -> is_digit c = false ->
  get_int (mkIn (32 :: b :: put_uint n ++ c :: tail) true)
  = (Some (signed sg n), mkIn (c :: tail) true) /\
  get_int (mkIn (b :: put_uint n ++ c :: tail) true)
  = (Some (signed sg n), mkIn (c :: tail) true).
Proof.
  intros Hb Hn Hc. split.
  - pose proof (get_int_put_uint sg [32] n c tail Hn) as H. rewrite Hb in H.
    apply H; [repeat constructor | exact Hc].
  - pose proof (get_int_put_uint sg [] n c tail Hn) as H. rewrite Hb in H.
    apply H; [constructor | exact Hc].
Qed.

(** [read_unknown_line] after the header and the blank that follows the
    first bar. *)
Definition after_header (rle : bool) (unknown_l unknown_u : Z) (s : istream)
  : Res (list Z * list Z * istream) :=
  let '(unknown_low, s) := read_side rle true (Z.to_nat unknown_l) 0 s [] in
  let '(o, s) := get_word s in
  let delim := match o with Some w => w | None => chars "|" end in
  let* _ := assert (bool_decide (delim = chars "|")) "delim == |" in
  let '(delim_char, s) := get_char s in
  let* _ := assert (delim_char =? 32) "delim_char == ' '" in
  let '(unknown_high, s) := read_side rle false (Z.to_nat unknown_u) 0 s [] in
  Ok (unknown_low, unknown_high, s).

Lemma read_header rle mi unknown_l unknown_u tail :
  0 <= mi < 2 ^ 31 -> 0 <= unknown_l < 2 ^ 31 -> 0 <= unknown_u < 2 ^ 31 ->
  read_unknown_line rle mi
    (mkIn (put_uint mi ++ [32; 58; 32; 45] ++ put_uint unknown_l ++ [32; 43]
           ++ put_uint unknown_u ++ [32; 124] ++ 32 :: tail) true)
  = after_header rle unknown_l unknown_u (mkIn tail true).
Proof.
  intros Hmi Hl Hu. unfold read_unknown_line. norm_app.
  rewrite get_int_plain by (exact Hmi || reflexivity).
  cbv iota beta. cbn [bind].
  replace (0 <=? mi) with true by (symmetry; apply Z.leb_le; lia).
  rewrite Z.eqb_refl. cbn [assert bind].
  change (get_word (mkIn (32 :: 58 :: 32 :: 45 :: put_uint unknown_l ++ 32 :: 43
                          :: put_uint unknown_u ++ 32 :: 124 :: 32 :: tail) true))
    with (Some [58], mkIn (32 :: 45 :: put_uint unknown_l ++ 32 :: 43
                           :: put_uint unknown_u ++ 32 :: 124 :: 32 :: tail) true).
  cbv iota beta.
  change (bool_decide ([58] = chars ":")) with true. cbn [assert bind].
  rewrite (proj1 (get_int_signed Minus 45 unknown_l 32 _ eq_refl Hl eq_refl)).
  cbv iota beta.
  rewrite (proj1 (get_int_signed Plus 43 unknown_u 32 _ eq_refl Hu eq_refl)).
  cbv iota beta. cbn [signed].
  change (get_word (mkIn (32 :: 124 :: 32 :: tail) true))
    with (Some [124], mkIn (32 :: tail) true).
  cbv iota beta.
  change (bool_decide ([124] = chars "|")) with true. cbn [assert bind].
  change (get_char (mkIn (32 :: tail) true)) with (32, mkIn tail true).
  cbv iota beta. change (32 =? 32) with true. cbn [assert bind].
  rewrite Z.opp_involutive. reflexivity.
Qed.

Lemma side_offsets_int SL comp irm d :
  0 <= SL < 2 ^ 31 ->
  Forall (fun i => 0 <= i < 2 ^ 31) (side_offsets SL comp irm d) /\
  Forall (fun i => i < 2 ^ 32) (side_offsets SL comp irm d) /\
  0 <= Z.of_nat (length (side_offsets SL comp irm d)) < 2 ^ 31.
Proof.
  intros HSL. pose proof (side_offsets_range SL comp irm d) as Hr.
  pose proof (side_offsets_length SL comp irm d ltac:(lia)) as Hl.
  split; [|split; [|lia]]; (eapply Forall_impl; [exact Hr|]); cbn; intros; lia.
Qed.

(** The run-length form of a line is read back as it was written: the
    reader returns the distances of the unknowns of both sides, in
    ascending order, and stops in front of the end of the line. *)
Theorem rle_line_round_trip SL mi comp irm line rest :
  0 <= mi < 2 ^ 31 -> 0 <= SL < 2 ^ 31 ->
  save_unknowns_line true SL mi comp irm = Ok line ->
  read_unknown_line true mi (mkIn (line ++ rest) true)
  = Ok (side_offsets SL comp irm 0, side_offsets SL comp irm 1, mkIn (10 :: rest) true).
Proof.
  intros Hmi HSL H. apply (save_unknowns_line_shape _ _ _ _ _ _ HSL) in H as [-> Hd].
  cbv zeta in Hd.
  destruct (Hd eq_refl) as [Hd0 Hd1].
  destruct (side_offsets_int SL comp irm 0 HSL) as (_ & Hlow & Hnl).
  destruct (side_offsets_int SL comp irm 1 HSL) as (_ & Hhigh & Hnh).
  set (lows := side_offsets SL comp irm 0) in *.
  set (highs := side_offsets SL comp irm 1) in *.
  transitivity (after_header true (Z.of_nat (length lows)) (Z.of_nat (length highs))
                  (mkIn (rle_bytes 0 lows ++ 32 :: 124 :: 32 :: rle_bytes 0 highs
                         ++ 10 :: rest) true)).
  - unfold side_bytes. norm_app.
    exact (read_header true mi _ _ _ Hmi Hnl Hnh).
  - unfold after_header. rewrite !Nat2Z.id.
    rewrite read_side_rle by (assumption || lia). cbn [app].
    change (get_word (mkIn (32 :: 124 :: 32 :: rle_bytes 0 highs ++ 10 :: rest) true))
      with (Some [124], mkIn (32 :: rle_bytes 0 highs ++ 10 :: rest) true).
    cbv iota beta. change (bool_decide ([124] = chars "|")) with true.
    cbn [assert bind].
    change (get_char (mkIn (32 :: rle_bytes 0 highs ++ 10 :: rest) true))
      with (32, mkIn (rle_bytes 0 highs ++ 10 :: rest) true).
    cbv iota beta. change (32 =? 32) with true. cbn [assert bind].
    rewrite read_side_rle by (assumption || lia). reflexivity.
Qed.

(** The sparse bytes of a side without the first blank. *)
Definition sparse_tail (sg : Sign) (offs : list Z) : list Z :=
  match offs with
  | [] => []
  | i :: offs' =>
      sign_bytes sg ++ put_uint i
      ++ concat (map (fun i => 32 :: sign_bytes sg ++ put_uint i) offs')
  end.

Lemma read_side_sparse_tail (sg : Sign) (negate : bool) offs c acc t tail :
  (sg = Minus /\ negate = true) \/ (sg = Plus /\ negate = false) ->
  Forall (fun i => 0 <= i < 2 ^ 31) offs -> is_digit t = false ->
  read_side false negate (length offs) c (mkIn (sparse_tail sg offs ++ t :: tail) true) acc
  = (acc ++ offs, mkIn (t :: tail) true).
Proof.
  intros Hsg Hall Ht. destruct offs as [|i offs].
  - cbn. rewrite app_nil_r. reflexivity.
  - apply Forall_cons in Hall as [Hi Hall]. cbn [length sparse_tail read_side].
    set (more := concat (map (fun i => 32 :: sign_bytes sg ++ put_uint i) offs)).
    assert (Hrest : exists c' tail', more ++ t :: tail = c' :: tail' /\ is_digit c' = false).
    { unfold more. destruct offs as [|j offs]; cbn; eauto. }
    destruct Hrest as (c' & tail' & Hrest & Hc').
    replace ((sign_bytes sg ++ put_uint i ++ more) ++ t :: tail)
      with ([] ++ sign_bytes sg ++ put_uint i ++ c' :: tail')
      by (rewrite <- Hrest; norm_app; reflexivity).
    rewrite get_int_put_uint; [|lia|constructor|exact Hc'].
    replace (if negate then - signed sg i else signed sg i) with i
      by (destruct Hsg as [[-> ->]|[-> ->]]; cbn; lia).
    rewrite (u32_small i) by lia. rewrite <- Hrest. unfold more.
    rewrite (read_side_sparse sg negate Hsg) by assumption.
    rewrite <- app_assoc. reflexivity.
Qed.

(** What separates the low side from the second bar once the blank after
    the first bar is read: nothing when the side is empty. *)
Definition sparse_gap (offs : list Z) : list Z :=
  match offs with [] => [] | _ => [32] end.

Lemma sparse_line_tail lows X :
  [32; 124] ++ sparse_bytes 45 lows ++ [32; 124] ++ X
  = [32; 124] ++ 32 :: (sparse_tail Minus lows ++ sparse_gap lows ++ 124 :: X).
Proof.
  destruct lows as [|i lows]; [reflexivity|].
  unfold sparse_bytes. cbn [map concat sparse_tail sparse_gap sign_bytes].
  norm_app. reflexivity.
Qed.

Lemma get_word_bar c Y :
  is_space c = true ->
  get_word (mkIn (124 :: c :: Y) true) = (Some [124], mkIn (c :: Y) true) /\
  get_word (mkIn (32 :: 124 :: c :: Y) true) = (Some [124], mkIn (c :: Y) true).
Proof.
  intros Hc. unfold get_word. cbn [good buf negb skip_ws].
  change (is_space 32) with true. change (is_space 124) with false.
  cbv iota. cbn [scan_word]. change (is_space 124) with false. rewrite Hc. auto.
Qed.

(** The reader on the sparse form, after the header. *)
Lemma sparse_after_header lows highs rest :
  Forall (fun i => 0 <= i < 2 ^ 31) lows ->
  Forall (fun i => 0 <= i < 2 ^ 31) highs ->
  after_header false (Z.of_nat (length lows)) (Z.of_nat (length highs))
    (mkIn (sparse_tail Minus lows ++ sparse_gap lows
           ++ 124 :: sparse_bytes 43 highs ++ 10 :: rest) true)
  = match highs with
    | [] => Err (Assertion "delim_char == ' '")
    | _ => Ok (lows, highs, mkIn (10 :: rest) true)
    end.
Proof.
  intros Hlow Hhigh. unfold after_header. rewrite !Nat2Z.id.
  assert (Hlowside :
    exists s, read_side false true (length lows) 0
                (mkIn (sparse_tail Minus lows ++ sparse_gap lows
                       ++ 124 :: sparse_bytes 43 highs ++ 10 :: rest) true) []
              = (lows, s) /\
              get_word s = (Some [124], mkIn (sparse_bytes 43 highs ++ 10 :: rest) true)).
  { assert (Hsp : exists c Y, sparse_bytes 43 highs ++ 10 :: rest = c :: Y
                              /\ is_space c = true).
    { destruct highs as [|j highs]; cbn; eauto. }
    destruct Hsp as (c & Y & -> & Hc).
    destruct lows as [|i lows].
    - eexists. split; [reflexivity|]. cbn [sparse_tail sparse_gap app].
      apply get_word_bar. exact Hc.
    - eexists. split.
      + cbn [sparse_gap app].
        rewrite (read_side_sparse_tail Minus true) by (auto || reflexivity).
        reflexivity.
      + apply get_word_bar. exact Hc. }
  destruct Hlowside as (s & -> & ->).
  change (bool_decide ([124] = chars "|")) with true. cbn [assert bind].
  destruct highs as [|j highs].
  - reflexivity.
  - unfold sparse_bytes. cbn [map concat app get_char good buf negb].
    change (32 =? 32) with true. cbn [assert bind].
    change (43 :: (put_uint j ++ concat (map (fun i => 32 :: 43 :: put_uint i) highs))
            ++ 10 :: rest)
      with (sparse_tail Plus (j :: highs) ++ 10 :: rest).
    rewrite (read_side_sparse_tail Plus false) by (auto || reflexivity).
    reflexivity.
Qed.

(** The reader on a line in the sparse form, byte by byte. *)
Lemma sparse_bytes_read mi lows highs rest :
  0 <= mi < 2 ^ 31 ->
  Forall (fun i => 0 <= i < 2 ^ 31) lows -> Forall (fun i => 0 <= i < 2 ^ 31) highs ->
  0 <= Z.of_nat (length lows) < 2 ^ 31 -> 0 <= Z.of_nat (length highs) < 2 ^ 31 ->
  read_unknown_line false mi
    (mkIn ((put_uint mi ++ [32; 58; 32; 45] ++ put_uint (Z.of_nat (length lows))
            ++ [32; 43] ++ put_uint (Z.of_nat (length highs)) ++ [32; 124]
            ++ sparse_bytes 45 lows ++ [32; 124] ++ sparse_bytes 43 highs ++ [10])
           ++ rest) true)
  = match highs with
    | [] => Err (Assertion "delim_char == ' '")
    | _ => Ok (lows, highs, mkIn (10 :: rest) true)
    end.
Proof.
  intros Hmi Hlow Hhigh Hnl Hnh.
  rewrite <- (sparse_after_header lows highs rest Hlow Hhigh).
  replace ((put_uint mi ++ [32; 58; 32; 45] ++ put_uint (Z.of_nat (length lows))
            ++ [32; 43] ++ put_uint (Z.of_nat (length highs)) ++ [32; 124]
            ++ sparse_bytes 45 lows ++ [32; 124] ++ sparse_bytes 43 highs ++ [10]) ++ rest)
    with (put_uint mi ++ [32; 58; 32; 45] ++ put_uint (Z.of_nat (length lows))
          ++ [32; 43] ++ put_uint (Z.of_nat (length highs)) ++ [32; 124]
          ++ 32 :: (sparse_tail Minus lows ++ sparse_gap lows
                    ++ 124 :: sparse_bytes 43 highs ++ 10 :: rest)).
  - exact (read_header false mi _ _ _ Hmi Hnl Hnh).
  - rewrite <- !app_assoc. do 5 f_equal.
    rewrite <- (sparse_line_tail lows (sparse_bytes 43 highs ++ 10 :: rest)).
    norm_app. reflexivity.
Qed.

Lemma sparse_line_read SL mi comp irm line rest :
  0 <= mi < 2 ^ 31 -> 0 <= SL < 2 ^ 31 ->
  save_unknowns_line false SL mi comp irm = Ok line ->
  read_unknown_line false mi (mkIn (line ++ rest) true)
  = match side_offsets SL comp irm 1 with
    | [] => Err (Assertion "delim_char == ' '")
    | _ => Ok (side_offsets SL comp irm 0, side_offsets SL comp irm 1,
               mkIn (10 :: rest) true)
    end.
Proof.
  intros Hmi HSL H. apply (save_unknowns_line_shape _ _ _ _ _ _ HSL) in H as [-> _].
  destruct (side_offsets_int SL comp irm 0 HSL) as (Hlow & _ & Hnl).
  destruct (side_offsets_int SL comp irm 1 HSL) as (Hhigh & _ & Hnh).
  unfold side_bytes. cbn [Z.eqb].
  apply sparse_bytes_read; assumption.
Qed.

(** The sparse form of a line with an unknown on the next side is read
    back as it was written. *)
Theorem sparse_line_round_trip SL mi comp irm line rest :
  0 <= mi < 2 ^ 31 -> 0 <= SL < 2 ^ 31 ->
  side_offsets SL comp irm 1 <> [] ->
  save_unknowns_line false SL mi comp irm = Ok line ->
  read_unknown_line false mi (mkIn (line ++ rest) true)
  = Ok (side_offsets SL comp irm 0, side_offsets SL comp irm 1, mkIn (10 :: rest) true).
Proof.
  intros Hmi HSL Hne H. rewrite (sparse_line_read SL mi comp irm line rest Hmi HSL H).
  destruct (side_offsets SL comp irm 1); [congruence | reflexivity].
Qed.

(** The sparse form of a line with no unknown on the next side cannot be
    read: the line ends right after the second bar, and the reader stops
    at its assertion that a blank follows the bar. *)
Theorem sparse_line_empty_next_side SL mi comp irm line rest :
  0 <= mi < 2 ^ 31 -> 0 <= SL < 2 ^ 31 ->
  side_offsets SL comp irm 1 = [] ->
  save_unknowns_line false SL mi comp irm = Ok line ->
  read_unknown_line false mi (mkIn (line ++ rest) true)
  = Err (Assertion "delim_char == ' '").
Proof.
  intros Hmi HSL He H. rewrite (sparse_line_read SL mi comp irm line rest Hmi HSL H).
  rewrite He. reflexivity.
Qed.

(** A line with the distance 2 below and the distance 3 above the centre. *)
Definition two_sided_comp : list bool := [true; true; false; true; true; false; true].

Lemma rle_line_round_trip_witness :
  read_unknown_line true 7 (mkIn ((chars "7 : -1 +1 | 02 | 03" ++ [10]) ++ []) true)
  = Ok (side_offsets 4 two_sided_comp one_low_reindex 0,
        side_offsets 4 two_sided_comp one_low_reindex 1, mkIn [10] true) /\
  side_offsets 4 two_sided_comp one_low_reindex 0 = [2] /\
  side_offsets 4 two_sided_comp one_low_reindex 1 = [3].
Proof.
  split; [|split; reflexivity].
  apply (rle_line_round_trip 4 7 two_sided_comp one_low_reindex); [lia | lia |].
  reflexivity.
Defined.

Lemma sparse_line_round_trip_witness :
  read_unknown_line false 7 (mkIn ((chars "7 : -1 +1 | -2 | +3" ++ [10]) ++ []) true)
  = Ok (side_offsets 4 two_sided_comp one_low_reindex 0,
        side_offsets 4 two_sided_comp one_low_reindex 1, mkIn [10] true) /\
  side_offsets 4 two_sided_comp one_low_reindex 0 = [2] /\
  side_offsets 4 two_sided_comp one_low_reindex 1 = [3].
Proof.
  split; [|split; reflexivity].
  apply (sparse_line_round_trip 4 7 two_sided_comp one_low_reindex); [lia | lia | |].
  - vm_compute. discriminate.
  - reflexivity.
Defined.

Lemma sparse_line_empty_next_side_witness :
  read_unknown_line false 7 (mkIn ((chars "7 : -1 +0 | -2 |" ++ [10]) ++ []) true)
  = Err (Assertion "delim_char == ' '").
Proof.
  apply (sparse_line_empty_next_side 4 7 one_low_comp one_low_reindex); [lia | lia | |];
    reflexivity.
Defined.

(** ** The sieve only sets bits *)

(** A bitmap after some crossing off: the same length, and every bit that
    was set is still set. *)
Definition bits_kept (c c' : list bool) : Prop :=
  length c' = length c /\ forall i, c !! i = Some true -> c' !! i = Some true.

(** The same for the bitmaps of all m. *)
Definition bitmaps_kept (cs cs' : list (list bool)) : Prop :=
  length cs' = length cs /\
  forall k c, cs !! k = Some c -> exists c', cs' !! k = Some c' /\ bits_kept c c'.

Lemma bits_kept_refl c : bits_kept c c.
Proof. split; auto. Qed.

Lemma bits_kept_trans c1 c2 c3 : bits_kept c1 c2 -> bits_kept c2 c3 -> bits_kept c1 c3.
Proof. intros [H1 H2] [H3 H4]. split; [congruence | auto]. Qed.

Lemma bitmaps_kept_refl cs : bitmaps_kept cs cs.
Proof. split; [reflexivity|]. intros k c Hc. exists c. split; [exact Hc | apply bits_kept_refl]. Qed.

Lemma bitmaps_kept_trans cs1 cs2 cs3 :
  bitmaps_kept cs1 cs2 -> bitmaps_kept cs2 cs3 -> bitmaps_kept cs1 cs3.
Proof.
  intros [H1 H2] [H3 H4]. split; [congruence|].
  intros k c Hc. destruct (H2 k c Hc) as (c2 & Hc2 & Hk2).
  destruct (H4 k c2 Hc2) as (c3 & Hc3 & Hk3).
  exists c3. split; [exact Hc3 | eapply bits_kept_trans; eassumption].
Qed.

Lemma mark_composite_kept irm c x c' :
  mark_composite irm c x = Ok c' -> bits_kept c c'.
Proof.
  unfold mark_composite. intros H. apply bind_ok in H as (idx & _ & H).
  apply vset_ok in H as [_ ->]. split; [apply length_insert|].
  intros i Hi. destruct (decide (i = Z.to_nat idx)) as [->|Hne].
  - apply list_lookup_insert_eq. apply lookup_lt_Some in Hi. exact Hi.
  - rewrite list_lookup_insert_ne by congruence. exact Hi.
Qed.

(** Replacing a bitmap by one that keeps its bits. *)
Lemma vset_bitmap_kept what cs mii c c' cs' :
  vget "composite[mii]" cs mii = Ok c -> bits_kept c c' ->
  vset what cs mii c' = Ok cs' -> bitmaps_kept cs cs'.
Proof.
  intros Hget Hkept Hset. apply vget_ok in Hget as [Hm Hget].
  apply vset_ok in Hset as [_ ->]. split; [apply length_insert|].
  intros k d Hd. destruct (decide (k = Z.to_nat mii)) as [->|Hne].
  - exists c'. split; [apply list_lookup_insert_eq; apply lookup_lt_Some in Hd; exact Hd|].
    rewrite Hget in Hd. injection Hd as <-. exact Hkept.
  - exists d. rewrite list_lookup_insert_ne by congruence.
    split; [exact Hd | apply bits_kept_refl].
Qed.

Lemma for_stride_invariant {St} (P : St -> Prop) (body : St -> Z -> Res St) shift bound :
  (forall s x s', P s -> body s x = Ok s' -> P s') ->
  forall fuel x s s', P s -> for_stride fuel x shift bound body s = Ok s' -> P s'.
Proof.
  intros Hstep. induction fuel as [|fuel IH]; intros x s s' Hs H; cbn [for_stride] in H.
  - discriminate.
  - destruct (x <? bound).
    + apply bind_ok in H as (s1 & H1 & H). eauto.
    + congruence.
Qed.

Lemma small_prime_crossoff_kept SL D m irm c0 c pr c' :
  bits_kept c0 c ->
  small_prime_crossoff SL D m irm c pr = Ok c' -> bits_kept c0 c'.
Proof.
  intros Hc H. unfold small_prime_crossoff, small_prime_visit in H.
  destruct pr as [a_prime base_r].
  apply bind_ok in H as (u & _ & H).
  destruct (_ <? _); [|injection H as <-; exact Hc].
  apply bind_ok in H as ([first' shift] & _ & H).
  refine (for_stride_invariant (bits_kept c0) _ _ _ _ _ _ _ _ Hc H).
  intros s x s' Hs Hm. eapply bits_kept_trans; [exact Hs|].
  eapply mark_composite_kept. exact Hm.
Qed.

Lemma small_primes_batch_kept config valid_mi m_reindex wheel irw p_and_r cs0 cs cs' :
  bitmaps_kept cs0 cs ->
  small_primes_batch config valid_mi m_reindex wheel irw p_and_r cs = Ok cs' ->
  bitmaps_kept cs0 cs'.
Proof.
  intros Hcs H. unfold small_primes_batch in H.
  refine (foldM_invariant (bitmaps_kept cs0) _ valid_mi _ cs cs' Hcs H).
  clear. intros s mi s' Hs H.
  apply bind_ok in H as (mii & _ & H). apply bind_ok in H as (u & _ & H).
  apply bind_ok in H as (irm & _ & H). apply bind_ok in H as (c & Hget & H).
  apply bind_ok in H as (c' & Hfold & H).
  eapply bitmaps_kept_trans; [exact Hs|].
  eapply vset_bitmap_kept; [exact Hget | | exact H].
  refine (foldM_invariant (bits_kept c) _ p_and_r _ c c' (bits_kept_refl c) Hfold).
  intros t pr t' Ht Hcross. eapply small_prime_crossoff_kept; eassumption.
Qed.

(** Phase A never clears a bit and never resizes a bitmap: whatever it
    crosses off stays crossed off. *)
Theorem method2_small_primes_keeps_bits config K valid_mi m_reindex wheel irw threshold
    composite composite' :
  method2_small_primes config K valid_mi m_reindex wheel irw threshold composite
  = Ok composite' ->
  bitmaps_kept composite composite'.
Proof.
  unfold method2_small_primes.
  generalize (S (Z.to_nat threshold)) at 1. generalize 0 at 1 2.
  generalize (new_method2_stats threshold).
  assert (Hgen : forall fuel stats prime it cs,
            bitmaps_kept composite cs ->
            small_primes_loop fuel config K valid_mi m_reindex wheel irw threshold
                              prime it stats cs = Ok composite' ->
            bitmaps_kept composite composite').
  { induction fuel as [|fuel IH]; intros stats prime it cs Hcs H; cbn [small_primes_loop] in H.
    - discriminate.
    - destruct (prime <=? threshold); [|injection H as <-; exact Hcs].
      apply bind_ok in H as ([[p_and_r prime'] it'] & _ & H).
      apply bind_ok in H as (cs1 & Hbatch & H).
      eapply IH; [|exact H].
      eapply small_primes_batch_kept; eassumption. }
  intros stats z fuel H. eapply Hgen; [apply bitmaps_kept_refl | exact H].
Qed.

Lemma mark_m_X_kept sv M_start mi X cs cs' :
  mark_m_X sv M_start mi X cs = Ok cs' -> bitmaps_kept cs cs'.
Proof.
  unfold mark_m_X. intros H.
  apply bind_ok in H as (mii & _ & H). apply bind_ok in H as (u & _ & H).
  apply bind_ok in H as (irm & _ & H). apply bind_ok in H as (c & Hget & H).
  apply bind_ok in H as (c' & Hmark & H).
  eapply vset_bitmap_kept; [exact Hget | | exact H].
  eapply mark_composite_kept. exact Hmark.
Qed.

(** The medium and the large primes never clear a bit either. *)
Theorem prime_work_keeps_bits sv config prime composite composite' :
  medium_prime_work sv config prime composite = Ok composite' \/
  large_prime_work sv config prime composite = Ok composite' ->
  bitmaps_kept composite composite'.
Proof.
  intros [H|H].
  - unfold medium_prime_work in H.
    apply bind_ok in H as (u1 & _ & H). apply bind_ok in H as (u2 & _ & H).
    refine (foldM_invariant (bitmaps_kept composite) _ _ _ _ _
              (bitmaps_kept_refl composite) H).
    intros s X s' Hs HX. apply bind_ok in HX as (u & _ & HX).
    refine (for_stride_invariant (bitmaps_kept composite) _ _ _ _ _ _ _ _ Hs HX).
    intros t mi t' Ht Hmi. apply bind_ok in Hmi as (nc & _ & Hmi).
    destruct nc; [injection Hmi as <-; exact Ht|].
    eapply bitmaps_kept_trans; [exact Ht | eapply mark_m_X_kept; exact Hmi].
  - unfold large_prime_work in H.
    refine (foldM_invariant (bitmaps_kept composite) _ _ _ _ _
              (bitmaps_kept_refl composite) H).
    intros s [mi first] s' Hs Hcb. unfold large_prime_callback in Hcb.
    apply bind_ok in Hcb as (u & _ & Hcb).
    destruct (_ && _); [injection Hcb as <-; exact Hs|].
    apply bind_ok in Hcb as (nc & _ & Hcb).
    destruct nc; [injection Hcb as <-; exact Hs|].
    apply bind_ok in Hcb as (u' & _ & Hcb). cbv zeta in Hcb.
    repeat (destruct (_ && _); [injection Hcb as <-; exact Hs|]).
    apply bind_ok in Hcb as (cp & _ & Hcb).
    destruct cp; cbn [negb] in Hcb; [|injection Hcb as <-; exact Hs].
    eapply bitmaps_kept_trans; [exact Hs | eapply mark_m_X_kept; exact Hcb].
Qed.

(** *** A run of the three phases on the bitmaps of P = 5, D = 1 *)

Definition small_run_sieve : Sieve :=
  Eval vm_compute in
    match sieve_setup even_K_env even_K_config return Sieve with
    | Ok (sv, _) => sv
    | Err _ => mkSieve 0 0 [] [] [] [] [] [] 0 [] 0 0
    end.

Definition small_run_composite : list (list bool) :=
  Eval vm_compute in
    match sieve_setup even_K_env even_K_config return list (list bool) with
    | Ok (_, composite) => composite
    | Err _ => []
    end.

Definition small_run_after_small : list (list bool) :=
  Eval vm_compute in
    match method2_small_primes even_K_config (sv_K small_run_sieve)
            (sv_valid_mi small_run_sieve) (sv_m_reindex small_run_sieve)
            (sv_reindex_m_wheel small_run_sieve) (sv_i_reindex_wheel small_run_sieve)
            (sv_SMALL_THRESHOLD small_run_sieve) small_run_composite
          return list (list bool) with
    | Ok composite => composite
    | Err _ => []
    end.

Definition small_run_after_medium : list (list bool) :=
  Eval vm_compute in
    match medium_prime_work small_run_sieve even_K_config 83 small_run_after_small
          return list (list bool) with
    | Ok composite => composite
    | Err _ => []
    end.

Lemma method2_small_primes_keeps_bits_witness :
  bitmaps_kept small_run_composite small_run_after_small.
Proof.
  apply (method2_small_primes_keeps_bits even_K_config (sv_K small_run_sieve)
           (sv_valid_mi small_run_sieve) (sv_m_reindex small_run_sieve)
           (sv_reindex_m_wheel small_run_sieve) (sv_i_reindex_wheel small_run_sieve)
           (sv_SMALL_THRESHOLD small_run_sieve)).
  vm_compute. reflexivity.
Defined.

Lemma prime_work_keeps_bits_witness :
  bitmaps_kept small_run_after_small small_run_after_medium.
Proof.
  apply (prime_work_keeps_bits small_run_sieve even_K_config 83).
  left. vm_compute. reflexivity.
Defined.

(** ** Phase B: what a medium prime crosses off *)

(** The inner loop over [mi]: the steps that reach [act] are those at an
    [mi] of the walk whose m is coprime to D. *)
Lemma medium_stride_hits {St} (m_not_coprime : list bool) (act : St -> Z -> Res St)
    shift bound : forall fuel x s s',
  for_stride fuel x shift bound
    (fun s mi =>
       let* not_coprime := vget "m_not_coprime[mi]" m_not_coprime mi in
       if (not_coprime : bool) then Ok s else act s mi) s = Ok s' ->
  exists hits,
    foldM act hits s = Ok s' /\
    Forall (fun mi => exists k : nat, mi = x + Z.of_nat k * shift /\ 0 <= mi < bound /\
                      m_not_coprime !! Z.to_nat mi = Some false) hits.
Proof.
  induction fuel as [|fuel IH]; intros x s s' H; cbn [for_stride] in H; [discriminate|].
  destruct (Z.ltb_spec x bound) as [Hlt|Hge].
  - apply bind_ok in H as (s1 & Hstep & H).
    apply bind_ok in Hstep as (nc & Hnc & Hstep). apply vget_ok in Hnc as [Hx Hnc].
    apply IH in H as (hits & Hfold & Hall).
    assert (Hall' : Forall (fun mi => exists k : nat, mi = x + Z.of_nat k * shift /\
                              0 <= mi < bound /\
                              m_not_coprime !! Z.to_nat mi = Some false) hits).
    { eapply Forall_impl; [exact Hall|]. cbn. intros mi (k & -> & Hr & Hc).
      exists (S k). split; [lia|]. split; [exact Hr | exact Hc]. }
    destruct nc.
    + injection Hstep as <-. exists hits. auto.
    + exists (x :: hits). split; [cbn [foldM]; rewrite Hstep; exact Hfold|].
      constructor; [|exact Hall'].
      exists O. split; [lia|]. split; [lia | exact Hnc].
  - injection H as <-. exists []. split; [reflexivity | constructor].
Qed.

(** The number [(M_start + mi) * K + dist] is a multiple of the prime at
    every [mi] of the walk of the offset at the distance [dist]. *)
Lemma medium_walk_divisible prime K M_start dist inv_K mi_0 (j : Z) :
  0 < prime ->
  (inv_K * (K mod prime)) mod prime = 1 ->
  mi_0 = ((prime - dist) * inv_K + (prime - M_start mod prime) mod prime) mod prime ->
  ((M_start + (mi_0 + j * prime)) * K + dist) mod prime = 0.
Proof.
  intros Hp Hinv ->.
  apply Z.mod_divide; [lia|].
  pose proof (Z.div_mod K prime ltac:(lia)) as EK.
  pose proof (Z.div_mod (inv_K * (K mod prime)) prime ltac:(lia)) as Einv.
  rewrite Hinv in Einv.
  pose proof (Z.div_mod M_start prime ltac:(lia)) as EM.
  pose proof (Z.div_mod (prime - M_start mod prime) prime ltac:(lia)) as Es.
  pose proof (Z.div_mod ((prime - dist) * inv_K + (prime - M_start mod prime) mod prime)
                prime ltac:(lia)) as E0.
  set (base_r := K mod prime) in *. set (q1 := K / prime) in *.
  set (q2 := inv_K * base_r / prime) in *.
  set (r0 := M_start mod prime) in *. set (q4 := M_start / prime) in *.
  set (s := (prime - r0) mod prime) in *. set (q3 := (prime - r0) / prime) in *.
  set (e := ((prime - dist) * inv_K + s) mod prime) in *.
  set (q5 := ((prime - dist) * inv_K + s) / prime) in *.
  (* M_start + mi = prime * t - dist * inv_K *)
  set (t := q4 + 1 - q3 + inv_K - q5 + j).
  assert (H1 : M_start + (e + j * prime) = prime * t - dist * inv_K).
  { unfold t. lia. }
  rewrite H1.
  exists (t * K - dist * inv_K * q1 - dist * q2).
  replace ((prime * t - dist * inv_K) * K + dist)
    with (prime * t * K - dist * inv_K * (prime * q1 + base_r)
          + dist * (inv_K * base_r - prime * q2))
    by (rewrite <- EK; rewrite Einv; ring).
  ring.
Qed.

Lemma foldM_pairs {St} (act : St -> Z -> Z -> Res St) (X : Z) (l : list Z) (s : St) :
  foldM (fun s '(mi, X) => act s mi X) (map (fun mi => (mi, X)) l) s
  = foldM (fun s mi => act s mi X) l s.
Proof.
  revert s. induction l as [|mi l IH]; intros s; cbn [map foldM]; [reflexivity|].
  destruct (act s mi X); cbn [bind]; [apply IH | reflexivity].
Qed.

(** Phase B, one medium prime: the bitmaps it leaves are those after
    crossing off, in order, a list of pairs (mi, X) of an m coprime to D
    and an offset coprime to K, and at every one of them the prime
    divides the number [(M_start + mi) * K + (X - SL)]: a medium prime
    crosses off nothing but its multiples. *)
Theorem medium_prime_work_multiples sv config prime composite composite' :
  let M_start := u32 (mstart config) in
  let SL := u32 (sieve_length config) in
  2 * SL < prime < 2 ^ 31 ->
  Forall (fun X => 0 <= X <= 2 * SL) (sv_coprime_X sv) ->
  medium_prime_work sv config prime composite = Ok composite' ->
  exists hits : list (Z * Z),
    foldM (fun composite '(mi, X) => mark_m_X sv M_start mi X composite) hits composite
    = Ok composite' /\
    Forall (fun '(mi, X) =>
              0 <= mi < u32 (minc config) /\
              sv_m_not_coprime sv !! Z.to_nat mi = Some false /\
              In X (sv_coprime_X sv) /\
              ((M_start + mi) * sv_K sv + (X - SL)) mod prime = 0) hits.
Proof.
  intros M_start SL Hprime HX H. unfold medium_prime_work in H.
  apply bind_ok in H as (u1 & _ & H). apply bind_ok in H as (u2 & Hinv & H).
  apply assert_ok, Z.eqb_eq in Hinv.
  fold M_start SL in H.
  assert (HSL : 0 <= SL) by (unfold SL, u32; apply Z.mod_pos_bound; lia).
  assert (HM : 0 <= M_start < 2 ^ 32) by (unfold M_start, u32; apply Z.mod_pos_bound; lia).
  set (inv_K := Z.invmod (sv_K sv mod prime) prime) in *.
  assert (Hinv_range : 0 <= inv_K < prime).
  { unfold inv_K, Z.invmod. apply Z.mod_pos_bound. lia. }
  set (shift0 := (prime - M_start mod prime) mod prime) in *.
  assert (Hshift0 : 0 <= shift0 < prime) by (unfold shift0; apply Z.mod_pos_bound; lia).
  assert (Hi32 : i32 shift0 = shift0).
  { unfold i32. rewrite Z.mod_small by lia.
    destruct (Z.ltb_spec shift0 (2 ^ 31)); [reflexivity | lia]. }
  rewrite Hi32 in H.
  match type of H with foldM ?f _ _ = _ => set (body := f) in * end.
  enough (Hgen : forall Xs composite,
            Forall (fun X => 0 <= X <= 2 * SL) Xs ->
            (forall X, In X Xs -> In X (sv_coprime_X sv)) ->
            foldM body Xs composite = Ok composite' ->
            exists hits : list (Z * Z),
              foldM (fun composite '(mi, X) => mark_m_X sv M_start mi X composite)
                    hits composite = Ok composite' /\
              Forall (fun '(mi, X) =>
                        0 <= mi < u32 (minc config) /\
                        sv_m_not_coprime sv !! Z.to_nat mi = Some false /\
                        In X (sv_coprime_X sv) /\
                        ((M_start + mi) * sv_K sv + (X - SL)) mod prime = 0) hits).
  { apply (Hgen (sv_coprime_X sv) composite HX); [auto | exact H]. }
  clear H HX composite.
  induction Xs as [|X Xs IH]; intros composite HX Hsub H; cbn [foldM] in H.
  - injection H as <-. exists []. split; [reflexivity | constructor].
  - apply Forall_cons in HX as [HXr HX].
    apply bind_ok in H as (c1 & Hstep & H). unfold body in Hstep. cbv zeta in Hstep.
    apply bind_ok in Hstep as (u3 & _ & Hstep).
    apply medium_stride_hits in Hstep as (hitsX & HfoldX & HallX).
    apply IH in H as (hits & Hfold & Hall);
      [|exact HX|intros Y HY; apply Hsub; right; exact HY].
    exists (map (fun mi => (mi, X)) hitsX ++ hits). split.
    + rewrite foldM_app, foldM_pairs, HfoldX. exact Hfold.
    + apply Forall_app. split; [|exact Hall].
      apply Forall_fmap. eapply Forall_impl; [exact HallX|].
      cbn. intros mi (k & Hmi & Hrange & Hnc).
      split; [exact Hrange|]. split; [exact Hnc|].
      split; [apply Hsub; left; reflexivity|].
      rewrite (u64_small (prime - (X - SL))) in Hmi by lia.
      rewrite (u64_small ((prime - (X - SL)) * inv_K + shift0)) in Hmi by nia.
      set (mi_0 := ((prime - (X - SL)) * inv_K + shift0) mod prime) in *.
      assert (Hj : exists j, mi = mi_0 + j * prime).
      { destruct (Z.odd (sv_K sv)); cbn [andb] in Hmi.
        - rewrite (u32_small ((1 + 1) * prime)) in Hmi by lia.
          destruct (Bool.eqb _ _) in Hmi.
          + exists (1 + 2 * Z.of_nat k). lia.
          + exists (2 * Z.of_nat k). lia.
        - rewrite (u32_small ((1 + 0) * prime)) in Hmi by lia.
          exists (Z.of_nat k). lia. }
      destruct Hj as [j ->].
      apply medium_walk_divisible with (inv_K := inv_K); [lia | exact Hinv | reflexivity].
Qed.

Lemma medium_prime_work_multiples_witness :
  exists hits : list (Z * Z),
    foldM (fun composite '(mi, X) =>
             mark_m_X small_run_sieve (u32 (mstart even_K_config)) mi X composite)
          hits small_run_after_small
    = Ok small_run_after_medium /\
    Forall (fun '(mi, X) =>
              0 <= mi < u32 (minc even_K_config) /\
              sv_m_not_coprime small_run_sieve !! Z.to_nat mi = Some false /\
              In X (sv_coprime_X small_run_sieve) /\
              ((u32 (mstart even_K_config) + mi) * sv_K small_run_sieve
               + (X - u32 (sieve_length even_K_config))) mod 83 = 0) hits.
Proof.
  apply (medium_prime_work_multiples small_run_sieve even_K_config 83).
  - vm_compute. split; reflexivity.
  - vm_compute. repeat constructor; discriminate.
  - vm_compute. reflexivity.
Defined.

(** ** Method 1: what the small primes cross off *)

(** A prime of the list divides [n]. *)
Definition has_small_factor (prs : list (Z * Z)) (n : Z) : bool :=
  existsb (fun '(prime, _) => n mod prime =? 0) prs.

Lemma method1_small_primes_loop SL m K : 0 <= SL < 2 ^ 31 -> 0 <= m < 2 ^ 32 ->
  forall (prs : list (Z * Z)) (a0 b0 : list bool),
    Forall (fun '(prime, r) => 0 < prime < 2 ^ 31 /\ r = K mod prime) prs ->
    size a0 = SL + 1 -> size b0 = SL + 1 ->
    b0 !! O = Some true ->
    exists c0 c1,
      foldM (fun '(c0, c1) '(prime, remainder) =>
               let modulo := u64 (remainder * m) mod prime in
               let* c0 :=
                 for_stride (S (Z.to_nat (SL + 1))) modulo prime (SL + 1)
                            (fun c x => vset "composite[0][x]" c x true) c0 in
               let first_negative := i32 (prime - modulo) in
               let* _ := assert (0 <=? first_negative) "first_negative >= 0" in
               let* c1 :=
                 for_stride (S (Z.to_nat (SL + 1))) first_negative prime (SL + 1)
                            (fun c x => vset "composite[1][x]" c x true) c1 in
               Ok (c0, c1))
            prs (a0, b0) = Ok (c0, c1) /\
      size c0 = SL + 1 /\ size c1 = SL + 1 /\
      forall x, 0 <= x <= SL ->
        c0 !! Z.to_nat x
        = (b ← a0 !! Z.to_nat x; Some (b || has_small_factor prs (m * K - x))) /\
        c1 !! Z.to_nat x
        = (b ← b0 !! Z.to_nat x; Some (b || has_small_factor prs (m * K + x))).
Proof.
  intros HSL Hm. induction prs as [|[prime r] prs IH]; intros a0 b0 Hprs Ha Hb Hb0.
  - exists a0, b0. split; [reflexivity|]. split; [exact Ha|]. split; [exact Hb|].
    intros x Hx. cbn.
    destruct (a0 !! Z.to_nat x), (b0 !! Z.to_nat x); cbn; rewrite ?orb_false_r; auto.
  - apply Forall_cons in Hprs as [[Hp ->] Hprs]. cbn [foldM]. cbv zeta.
    pose proof (Z.mod_pos_bound K prime ltac:(lia)) as HK.
    rewrite (u64_small (K mod prime * m)) by nia.
    rewrite Z.mul_mod_idemp_l by lia.
    pose proof (Z.mod_pos_bound (K * m) prime ltac:(lia)) as Hmod.
    pose proof (Z.div_mod (K * m) prime ltac:(lia)) as Ediv.
    set (modulo := (K * m) mod prime) in *.
    assert (Hi32 : i32 (prime - modulo) = prime - modulo).
    { unfold i32. rewrite Z.mod_small by lia.
      destruct (Z.ltb_spec (prime - modulo) (2 ^ 31)); [reflexivity | lia]. }
    rewrite Hi32.
    rewrite !for_stride_spec by lia.
    destruct (fill_offsets "composite[0][x]" true (stride_list modulo prime (SL + 1)) a0)
      as (a1 & Hrun0 & Hlen0 & Hin0 & Hout0).
    { intros x Hx. apply stride_list_In in Hx as (k & Hk & -> & Hbd); [|lia]. nia. }
    rewrite Hrun0. cbn [bind].
    destruct (Z.leb_spec 0 (prime - modulo)); [|lia]. cbn [assert bind].
    destruct (fill_offsets "composite[1][x]" true
                (stride_list (prime - modulo) prime (SL + 1)) b0)
      as (b1 & Hrun1 & Hlen1 & Hin1 & Hout1).
    { intros x Hx. apply stride_list_In in Hx as (k & Hk & -> & Hbd); [|lia]. nia. }
    rewrite Hrun1. cbn [bind].
    destruct (IH a1 b1 Hprs) as (c0 & c1 & Hrun & Hc0 & Hc1 & Hspec).
    { unfold size in *. lia. }
    { unfold size in *. lia. }
    { rewrite <- Hb0. change O with (Z.to_nat 0).
      destruct (in_dec Z.eq_dec 0 (stride_list (prime - modulo) prime (SL + 1))) as [Hi|Hn].
      - apply stride_list_In in Hi as (k & Hk & Hx & _); [|lia]. nia.
      - apply Hout1; [lia | exact Hn]. }
    exists c0, c1. split; [exact Hrun|]. split; [exact Hc0|]. split; [exact Hc1|].
    intros x Hx. destruct (Hspec x Hx) as [-> ->].
    cbn [has_small_factor existsb]. fold (has_small_factor prs). split.
    + destruct ((m * K - x) mod prime =? 0) eqn:Ex.
      * rewrite Hin0; [|lia|].
        -- assert (is_Some (a0 !! Z.to_nat x)) as [b ->]
             by (apply lookup_lt_is_Some; unfold size in Ha; lia).
           cbn. rewrite orb_true_r. reflexivity.
        -- apply stride_list_In; [lia|].
           apply Z.eqb_eq, Z.mod_divide in Ex as [q Hq]; [|lia].
           exists (K * m / prime - q). split; [nia|]. split; lia.
      * rewrite Hout0; [|lia|].
        -- destruct (a0 !! Z.to_nat x); cbn; reflexivity.
        -- intros Hi. apply stride_list_In in Hi as (k & Hk & Hxk & _); [|lia].
           apply Z.eqb_neq in Ex. apply Ex. apply Z.mod_divide; [lia|].
           exists (K * m / prime - k). lia.
    + destruct (Z.eq_dec x 0) as [->|Hx0].
      * (* the centre is marked whatever the primes are *)
        change (Z.to_nat 0) with O.
        assert (Hb1 : b1 !! O = Some true).
        { rewrite <- Hb0. change O with (Z.to_nat 0).
          destruct (in_dec Z.eq_dec 0 (stride_list (prime - modulo) prime (SL + 1)))
            as [Hi|Hn].
          - apply stride_list_In in Hi as (k & Hk & Hx' & _); [|lia]. nia.
          - apply Hout1; [lia | exact Hn]. }
        rewrite Hb1, Hb0. reflexivity.
      * destruct ((m * K + x) mod prime =? 0) eqn:Ex.
        -- rewrite Hin1; [|lia|].
           ++ assert (is_Some (b0 !! Z.to_nat x)) as [b ->]
                by (apply lookup_lt_is_Some; unfold size in Hb; lia).
              cbn. rewrite orb_true_r. reflexivity.
           ++ apply stride_list_In; [lia|].
              apply Z.eqb_eq, Z.mod_divide in Ex as [q Hq]; [|lia].
              exists (q - K * m / prime - 1). split; [nia|]. split; lia.
        -- rewrite Hout1; [|lia|].
           ++ destruct (b0 !! Z.to_nat x); cbn; reflexivity.
           ++ intros Hi. apply stride_list_In in Hi as (k & Hk & Hxk & _); [|lia].
              apply Z.eqb_neq in Ex. apply Ex. apply Z.mod_divide; [lia|].
              exists (K * m / prime + k + 1). lia.
Qed.

(** Method 1, one m: after the small primes the centre is marked on both
    sides, and a distance [x] in [[1, SL]] is marked below the centre
    exactly when a small prime divides [m * K - x], above it exactly when
    one divides [m * K + x]. *)
Theorem method1_small_primes_spec SL m K prs :
  0 <= SL < 2 ^ 31 -> 0 <= m < 2 ^ 32 ->
  Forall (fun '(prime, r) => 0 < prime < 2 ^ 31 /\ r = K mod prime) prs ->
  exists c0 c1,
    method1_small_primes SL m prs = Ok (c0, c1) /\
    size c0 = SL + 1 /\ size c1 = SL + 1 /\
    forall x, 0 <= x <= SL ->
      c0 !! Z.to_nat x = Some ((x =? 0) || has_small_factor prs (m * K - x)) /\
      c1 !! Z.to_nat x = Some ((x =? 0) || has_small_factor prs (m * K + x)).
Proof.
  intros HSL Hm Hprs. unfold method1_small_primes.
  rewrite (u32_small (SL + 1)) by lia.
  set (n := Z.to_nat (SL + 1)).
  assert (Hset : forall what, vset what (replicate n false) 0 true
                              = Ok (<[O := true]> (replicate n false))).
  { intros what. unfold vset. rewrite length_replicate.
    destruct (Z.ltb_spec 0 (Z.of_nat n)); [reflexivity | unfold n in *; lia]. }
  rewrite !Hset. cbn [bind].
  destruct (method1_small_primes_loop SL m K HSL Hm prs
              (<[O := true]> (replicate n false)) (<[O := true]> (replicate n false)) Hprs)
    as (c0 & c1 & Hrun & Hc0 & Hc1 & Hspec).
  - unfold size. rewrite length_insert, length_replicate. unfold n. lia.
  - unfold size. rewrite length_insert, length_replicate. unfold n. lia.
  - apply list_lookup_insert_eq. rewrite length_replicate. unfold n. lia.
  - exists c0, c1. split; [exact Hrun|]. split; [exact Hc0|]. split; [exact Hc1|].
    intros x Hx. destruct (Hspec x Hx) as [-> ->].
    destruct (Z.eqb_spec x 0) as [->|Hne].
    + change (Z.to_nat 0) with O.
      rewrite list_lookup_insert_eq by (rewrite length_replicate; unfold n; lia).
      split; reflexivity.
    + rewrite list_lookup_insert_ne by lia.
      rewrite lookup_replicate_2 by (unfold n; lia). split; reflexivity.
Qed.

Lemma method1_small_primes_spec_witness :
  exists c0 c1,
    method1_small_primes 6 1 [(7, 2); (11, 8)] = Ok (c0, c1) /\
    size c0 = 6 + 1 /\ size c1 = 6 + 1 /\
    forall x, 0 <= x <= 6 ->
      c0 !! Z.to_nat x = Some ((x =? 0) || has_small_factor [(7, 2); (11, 8)] (1 * 30 - x)) /\
      c1 !! Z.to_nat x = Some ((x =? 0) || has_small_factor [(7, 2); (11, 8)] (1 * 30 + x)).
Proof.
  apply (method1_small_primes_spec 6 1 30 [(7, 2); (11, 8)]); [lia | lia |].
  repeat constructor; reflexivity.
Defined.

(** ** Method 1: the line of one m *)

(** The distances in [[1, SL]] that are not marked on a side. *)
Definition method1_offsets (SL : Z) (composite_d : list bool) : list Z :=
  List.filter (fun i => negb (default true (composite_d !! Z.to_nat i))) (seqZ 1 SL).

Lemma method1_side_spec SL c prefix :
  0 <= SL -> size c = SL + 1 ->
  method1_side SL c prefix = Ok (sparse_bytes prefix (method1_offsets SL c)).
Proof.
  intros HSL Hc. unfold method1_side, method1_offsets.
  enough (Hgen : forall l out,
            (forall i, In i l -> 1 <= i <= SL) ->
            foldM (fun out i =>
                     let* c := vget "composite[d][i]" c i in
                     if negb c then Ok (out ++ chars " " ++ [prefix] ++ put_uint i)
                     else Ok out) l out
            = Ok (out ++ sparse_bytes prefix
                           (List.filter (fun i => negb (default true (c !! Z.to_nat i))) l))).
  { apply (Hgen (seqZ 1 SL) []). intros i Hi.
    apply list_elem_of_In, elem_of_seqZ in Hi. lia. }
  induction l as [|i l IH]; intros out Hl.
  - cbn. rewrite app_nil_r. reflexivity.
  - cbn [foldM List.filter].
    assert (Hi : 1 <= i <= SL) by (apply Hl; left; reflexivity).
    assert (is_Some (c !! Z.to_nat i)) as [b Hb]
      by (apply lookup_lt_is_Some; unfold size in Hc; lia).
    assert (Hget : vget "composite[d][i]" c i = Ok b).
    { unfold vget. destruct (Z.ltb_spec i 0); [lia|]. rewrite Hb. reflexivity. }
    rewrite Hget, Hb. cbn [default from_option].
    destruct b; cbn [negb bind id].
    + apply IH. intros j Hj. apply Hl. right. exact Hj.
    + rewrite IH by (intros j Hj; apply Hl; right; exact Hj).
      unfold sparse_bytes. cbn [map concat]. norm_app. reflexivity.
Qed.

(** Counting the unmarked entries of a vector is counting the indices of
    its unmarked entries. *)
Lemma count_by_index (c : list bool) :
  length (List.filter negb c)
  = length (List.filter (fun i => negb (default true (c !! Z.to_nat i)))
                        (seqZ 0 (size c))).
Proof.
  induction c as [|b c IH] using rev_ind; [reflexivity|].
  unfold size. rewrite length_app. cbn [length].
  replace (Z.of_nat (length c + 1)) with (Z.of_nat (S (length c))) by lia.
  rewrite seqZ_S, !List.filter_app, !length_app, IH. f_equal.
  - f_equal. apply List.filter_ext_in. intros i Hi.
    apply list_elem_of_In, elem_of_seqZ in Hi.
    rewrite lookup_app_l by lia. reflexivity.
  - cbn [List.filter]. rewrite Z.add_0_l, Nat2Z.id.
    rewrite lookup_app_r by lia. rewrite Nat.sub_diag. cbn. destruct b; reflexivity.
Qed.

Lemma count_false_offsets SL c :
  0 <= SL < 2 ^ 31 -> size c = SL + 1 -> c !! O = Some true ->
  count_false c = Z.of_nat (length (method1_offsets SL c)).
Proof.
  intros HSL Hc H0. unfold count_false, size. rewrite count_by_index, Hc.
  rewrite seqZ_cons by lia. cbn [List.filter]. change (Z.to_nat 0) with O.
  rewrite H0. cbn [default from_option id negb].
  replace (Z.succ 0) with 1 by lia. replace (Z.pred (SL + 1)) with SL by lia.
  fold (method1_offsets SL c).
  pose proof (List.filter_length_le
                (fun i => negb (default true (c !! Z.to_nat i))) (seqZ 1 SL)) as Hle.
  rewrite length_seqZ in Hle. fold (method1_offsets SL c) in Hle.
  unfold i32. rewrite Z.mod_small by lia.
  destruct (Z.ltb_spec (Z.of_nat (length (method1_offsets SL c))) (2 ^ 31)); [reflexivity|lia].
Qed.

(** The line of one m written by Method 1, with the centre marked on both
    sides: the reader returns the unmarked distances of both sides when
    there is one above the centre, and stops at its assertion on the
    blank after the second bar when there is none. *)
Theorem method1_line_read SL mi c0 c1 rest :
  0 <= mi < 2 ^ 31 -> 0 <= SL < 2 ^ 31 ->
  size c0 = SL + 1 -> size c1 = SL + 1 ->
  c0 !! O = Some true -> c1 !! O = Some true ->
  exists line,
    method1_line SL mi (c0, c1) = Ok line /\
    read_unknown_line false mi (mkIn (line ++ rest) true)
    = match method1_offsets SL c1 with
      | [] => Err (Assertion "delim_char == ' '")
      | _ => Ok (method1_offsets SL c0, method1_offsets SL c1, mkIn (10 :: rest) true)
      end.
Proof.
  intros Hmi HSL Hc0 Hc1 H0 H1.
  unfold method1_line, save_unknowns_method1. cbn [fst snd].
  rewrite (count_false_offsets SL c0 HSL Hc0 H0), (count_false_offsets SL c1 HSL Hc1 H1).
  rewrite !method1_side_spec by (lia || assumption). cbn [bind].
  eexists. split; [reflexivity|].
  assert (Hrange : forall c, Forall (fun i => 0 <= i < 2 ^ 31) (method1_offsets SL c) /\
                             0 <= Z.of_nat (length (method1_offsets SL c)) < 2 ^ 31).
  { intros c. split.
    - apply List.Forall_forall. intros i Hi. unfold method1_offsets in Hi.
      apply List.filter_In in Hi as [Hi _]. apply list_elem_of_In, elem_of_seqZ in Hi. lia.
    - pose proof (List.filter_length_le
                    (fun i => negb (default true (c !! Z.to_nat i))) (seqZ 1 SL)) as Hle.
      rewrite length_seqZ in Hle. fold (method1_offsets SL c) in Hle. lia. }
  destruct (Hrange c0) as [Hl0 Hn0]. destruct (Hrange c1) as [Hl1 Hn1].
  unfold put_int.
  destruct (Z.ltb_spec (Z.of_nat (length (method1_offsets SL c0))) 0); [lia|].
  destruct (Z.ltb_spec (Z.of_nat (length (method1_offsets SL c1))) 0); [lia|].
  change (chars " : -") with [32; 58; 32; 45].
  change (chars " +") with [32; 43]. change (chars " |") with [32; 124].
  rewrite <- (sparse_bytes_read mi (method1_offsets SL c0) (method1_offsets SL c1) rest)
    by assumption.
  do 3 f_equal. norm_app. reflexivity.
Qed.

Lemma method1_line_read_witness :
  exists line,
    method1_line 4 7 ([true; true; false; true; true], [true; true; true; false; true])
    = Ok line /\
    read_unknown_line false 7 (mkIn (line ++ []) true)
    = match method1_offsets 4 [true; true; true; false; true] with
      | [] => Err (Assertion "delim_char == ' '")
      | _ => Ok (method1_offsets 4 [true; true; false; true; true],
                 method1_offsets 4 [true; true; true; false; true], mkIn (10 :: []) true)
      end.
Proof.
  apply (method1_line_read 4 7 [true; true; false; true; true]
           [true; true; true; false; true] []); (lia || reflexivity).
Defined.

(** ** The table of the record gaps *)

Lemma get_record_gaps_fold (n : Z) (g : Z) : 0 <= g < n ->
  forall (rows : list (Z * float)) (recs0 : list float),
  Z.of_nat (length recs0) = n ->
  let recs :=
    fold_left (fun records '(gap, merit) =>
                 let gap := u64 gap in
                 if gap <? n
                 then <[Z.to_nat gap := to_float (of_int gap / merit)]> records
                 else records)
              rows recs0 in
  length recs = length recs0 /\
  ((forall gap merit, In (gap, merit) rows -> u64 gap <> g) ->
   recs !! Z.to_nat g = recs0 !! Z.to_nat g) /\
  (forall rows1 gap merit rows2,
     rows = rows1 ++ (gap, merit) :: rows2 -> u64 gap = g ->
     (forall gap' merit', In (gap', merit') rows2 -> u64 gap' <> g) ->
     recs !! Z.to_nat g = Some (to_float (of_int g / merit))).
Proof.
  intros Hg.
  induction rows as [|[gap merit] rows IH] using rev_ind; intros recs0 Hlen; cbv zeta.
  - cbn. split; [reflexivity|]. split; [reflexivity|].
    intros rows1 gap merit rows2 H. destruct rows1; discriminate H.
  - rewrite fold_left_app. cbn [fold_left]. specialize (IH recs0 Hlen). cbv zeta in IH.
    destruct IH as (Hl & Hnone & Hlast).
    set (recs := fold_left _ rows recs0) in *.
    assert (Hu : 0 <= u64 gap) by (unfold u64; apply Z.mod_pos_bound; lia).
    assert (Hlen' : length (if u64 gap <? n
                            then <[Z.to_nat (u64 gap) := to_float (of_int (u64 gap) / merit)]> recs
                            else recs) = length recs0)
      by (destruct (u64 gap <? n); [rewrite length_insert|]; exact Hl).
    split; [exact Hlen'|]. split.
    + intros Hno.
      assert (Hne : u64 gap <> g) by (apply (Hno gap merit), in_or_app; right; left; reflexivity).
      rewrite <- Hnone by (intros gap' merit' Hin; apply (Hno gap' merit'), in_or_app; left; exact Hin).
      destruct (u64 gap <? n); [|reflexivity].
      apply list_lookup_insert_ne. lia.
    + intros rows1 gap0 merit0 rows2 Heq Hgap Hrest.
      destruct rows2 as [|[gap2 merit2] rows2 _] using rev_ind.
      * apply app_inj_tail in Heq as [-> Hrow]. injection Hrow as -> ->.
        rewrite Hgap. destruct (Z.ltb_spec g n); [|lia].
        apply list_lookup_insert_eq. lia.
      * rewrite app_comm_cons, app_assoc in Heq.
        apply app_inj_tail in Heq as [-> Hrow]. injection Hrow as -> ->.
        assert (Hne : u64 gap2 <> g)
          by (apply (Hrest gap2 merit2), in_or_app; right; left; reflexivity).
        transitivity (recs !! Z.to_nat g).
        -- destruct (u64 gap2 <? n); [|reflexivity].
           apply list_lookup_insert_ne. lia.
        -- apply (Hlast rows1 gap0 merit0 rows2 eq_refl Hgap).
           intros gap' merit' Hin. apply (Hrest gap' merit'), in_or_app. left. exact Hin.
Qed.

(** The record table has [max(MAX_GAP, 2 * SL + 1)] entries.  The entry
    of a gap that no row of the table of the known records has keeps
    [GAP_INF]; the entry of a gap that has rows is the gap divided by the
    merit of the last of them, as a [float].  (Rows of a gap beyond the
    table change nothing.) *)
Theorem get_record_gaps_entries config rows (g : Z) :
  0 <= g < Z.max MAX_GAP (u32 (2 * sieve_length config + 1)) ->
  size (get_record_gaps config rows) = Z.max MAX_GAP (u32 (2 * sieve_length config + 1)) /\
  ((forall gap merit, In (gap, merit) rows -> u64 gap <> g) ->
   get_record_gaps config rows !! Z.to_nat g = Some GAP_INF) /\
  (forall rows1 gap merit rows2,
     rows = rows1 ++ (gap, merit) :: rows2 -> u64 gap = g ->
     (forall gap' merit', In (gap', merit') rows2 -> u64 gap' <> g) ->
     get_record_gaps config rows !! Z.to_nat g = Some (to_float (of_int g / merit))).
Proof.
  unfold get_record_gaps.
  set (n := Z.max MAX_GAP (u32 (2 * sieve_length config + 1))). intros Hg.
  assert (Hn : Z.of_nat (length (replicate (Z.to_nat n) GAP_INF)) = n)
    by (rewrite length_replicate; lia).
  pose proof (get_record_gaps_fold n g Hg rows (replicate (Z.to_nat n) GAP_INF) Hn) as H.
  cbv zeta in H. destruct H as (Hlen & Hnone & Hlast).
  split; [unfold size; rewrite Hlen; exact Hn|]. split; [|exact Hlast].
  intros Hno. rewrite (Hnone Hno). apply lookup_replicate_2. lia.
Qed.

Lemma get_record_gaps_entries_witness :
  get_record_gaps demo_config [(4, 2%float); (6, 3%float); (4, 8%float)] !! Z.to_nat 4
  = Some (to_float (of_int 4 / 8)).
Proof.
  destruct (get_record_gaps_entries demo_config
              [(4, 2%float); (6, 3%float); (4, 8%float)] 4) as (_ & _ & H).
  - vm_compute. split; [discriminate | reflexivity].
  - apply (H [(4, 2%float); (6, 3%float)] 4 8%float []).
    + reflexivity.
    + reflexivity.
    + intros gap' merit' [].
Defined.

(** ** The bitmaps as allocated *)

(** [composite] has one bitmap per valid m: bit 0, which stands for every
    offset that is not coprime, is set, and the bits of the coprime offsets
    of the wheel residue of m are clear. *)
Theorem allocate_composite_bitmaps M_start wheel valid_mi counts composite :
  allocate_composite M_start wheel valid_mi counts = Ok composite ->
  length composite = length valid_mi /\
  forall k mi, valid_mi !! k = Some mi ->
    exists count,
      counts !! Z.to_nat (u32 (M_start + mi) mod wheel) = Some count /\
      composite !! k = Some (true :: replicate (Z.to_nat count) false).
Proof.
  unfold allocate_composite.
  assert (Hgen : forall l (acc res : list (list bool)),
    foldM (fun composite mi =>
             let m_wheel := u32 (M_start + mi) mod wheel in
             let* _ := assert (Z.gcd m_wheel wheel =? 1)
                              "gcd(m_wheel, reindex_m_wheel) == 1" in
             let* count := vget "i_reindex_wheel_count[m_wheel]" counts m_wheel in
             Ok (composite ++ [true :: replicate (Z.to_nat count) false]))
          l acc = Ok res ->
    exists rows, res = acc ++ rows /\ length rows = length l /\
      forall k mi, l !! k = Some mi ->
        exists count,
          counts !! Z.to_nat (u32 (M_start + mi) mod wheel) = Some count /\
          rows !! k = Some (true :: replicate (Z.to_nat count) false)).
  { induction l as [|mi l IH]; intros acc res H; cbn [foldM] in H.
    - injection H as <-. exists []. rewrite app_nil_r. split; [reflexivity|].
      split; [reflexivity|]. intros k mi Hk. rewrite lookup_nil in Hk. discriminate.
    - apply bind_ok in H as (acc' & Hstep & H). cbv zeta in Hstep.
      apply bind_ok in Hstep as (u & _ & Hstep).
      apply bind_ok in Hstep as (count & Hcount & Hstep). injection Hstep as <-.
      apply vget_ok in Hcount as [_ Hcount].
      apply IH in H as (rows & -> & Hlen & Hrows).
      exists ((true :: replicate (Z.to_nat count) false) :: rows).
      rewrite <- app_assoc. split; [reflexivity|]. split; [cbn; lia|].
      intros [|k] mi' Hk; cbn in Hk |- *.
      + injection Hk as <-. eauto.
      + apply Hrows. exact Hk. }
  intros H. apply Hgen in H as (rows & -> & Hlen & Hrows). cbn [app]. auto.
Qed.

Lemma allocate_composite_bitmaps_witness :
  length [[true; false; false]; [true; false]] = length [0; 4] /\
  forall k mi, [0; 4] !! k = Some mi ->
    exists count,
      [0; 2; 0; 0; 0; 1] !! Z.to_nat (u32 (1 + mi) mod 6) = Some count /\
      [[true; false; false]; [true; false]] !! k
      = Some (true :: replicate (Z.to_nat count) false).
Proof. apply (allocate_composite_bitmaps 1 6 [0; 4] [0; 2; 0; 0; 0; 1]). reflexivity. Defined.

(** ** The rows of the statistics *)

Lemma process_line_m senv config K_log records min_record_gap min_gap_min_merit
    gap_probs m unknown_low unknown_high hist row hist' :
  process_line senv config K_log records min_record_gap min_gap_min_merit
               gap_probs m unknown_low unknown_high hist = Ok (row, hist') ->
  ms_m row = m.
Proof.
  unfold process_line. intros H.
  apply bind_ok in H as ([[[norm pr] pm] ph] & _ & H).
  apply bind_ok in H as (erh & _ & H). apply bind_ok in H as (erl & _ & H).
  apply bind_ok in H as ([[[[[pre ep] en] lo] hi] phm] & _ & H).
  apply bind_ok in H as (e2 & _ & H). injection H as <- _. reflexivity.
Qed.

(** [run_gap_file] emits the statistics of the valid m in their order:
    the row of the k-th valid [mi] is the one of [m = mstart + mi]. *)
Theorem run_gap_file_m_values senv config K_log records min_record_gap min_gap_min_merit
    gap_probs valid_m unknown_file rows hist rest :
  run_gap_file senv config K_log records min_record_gap min_gap_min_merit
               gap_probs valid_m unknown_file = Ok (rows, hist, rest) ->
  map ms_m rows = map (fun mi => u64 (mstart config + mi)) valid_m.
Proof.
  unfold run_gap_file. intros H.
  apply bind_ok in H as ([[rows' hist'] file'] & Hfold & H).
  injection H as <- _ _.
  enough (Hgen : forall l (st st' : list MStats * GapHist * istream),
             foldM (fun '(rows, hist, unknown_file) mi =>
                      let m := u64 (mstart config + mi) in
                      let* (unknown_low, unknown_high, unknown_file) :=
                        read_unknown_line (rle config) mi unknown_file in
                      let* (row, hist) :=
                        process_line senv config K_log records min_record_gap
                          min_gap_min_merit gap_probs m unknown_low unknown_high hist in
                      Ok (rows ++ [row], hist, unknown_file)) l st = Ok st' ->
             map ms_m (fst (fst st'))
             = map ms_m (fst (fst st)) ++ map (fun mi => u64 (mstart config + mi)) l).
  { apply Hgen in Hfold. exact Hfold. }
  induction l as [|mi l IH]; intros [[r h] f] st' Hl; cbn [foldM] in Hl.
  - injection Hl as <-. cbn. rewrite app_nil_r. reflexivity.
  - apply bind_ok in Hl as ([[r1 h1] f1] & Hstep & Hl).
    apply IH in Hl. rewrite Hl. cbn [fst map].
    cbv zeta in Hstep.
    apply bind_ok in Hstep as ([[lo hi] f2] & _ & Hstep).
    apply bind_ok in Hstep as ([row h2] & Hrow & Hstep).
    injection Hstep as <- _ _. apply process_line_m in Hrow.
    rewrite map_app. cbn [map]. rewrite Hrow, <- app_assoc. reflexivity.
Qed.

(** ** The tables of the n-th prime *)

(** The body of the loop of [prob_nth_prime]. *)
Definition nth_prime_step (prob_prime : float) (st : float * list float * list float)
  : Res (Flow (float * list float * list float)) :=
  let '(prob_still_prime, prob_prime_nth, prob_great_nth) := st in
  if fgt prob_still_prime DOUBLE_NTH_PRIME_CUTOFF then
    Ok (Continue ((prob_still_prime * (1 - prob_prime))%float,
                  prob_prime_nth ++ [to_float (prob_still_prime * prob_prime)],
                  prob_great_nth ++ [to_float prob_still_prime]))
  else Ok (Break (prob_still_prime, prob_prime_nth, prob_great_nth)).

(** Both vectors have grown from [a0] and [b0], by as many entries. *)
Definition grown (a0 b0 : list float) (st : float * list float * list float) : Prop :=
  exists a b, snd (fst st) = a0 ++ a /\ snd st = b0 ++ b /\ length a = length b.

Lemma nth_prime_step_grown prob_prime a0 b0 st st' :
  grown a0 b0 st ->
  nth_prime_step prob_prime st = Ok (Continue st') \/
  nth_prime_step prob_prime st = Ok (Break st') ->
  grown a0 b0 st'.
Proof.
  destruct st as [[x a] b]. intros (a1 & b1 & Ha & Hb & Hl) H. cbn [fst snd] in Ha, Hb.
  unfold nth_prime_step in H. destruct (fgt x DOUBLE_NTH_PRIME_CUTOFF).
  - destruct H as [H|H]; [|discriminate]. injection H as <-.
    exists (a1 ++ [to_float (x * prob_prime)]), (b1 ++ [to_float x]). cbn [fst snd].
    rewrite Ha, Hb, <- !app_assoc, !length_app. cbn. auto.
  - destruct H as [H|H]; [discriminate|]. injection H as <-.
    exists a1, b1. auto.
Qed.

Lemma nth_prime_iter_grown prob_prime a0 b0 : forall n st st',
  grown a0 b0 st ->
  iter_res n (nth_prime_step prob_prime) st = Ok (Break st') ->
  grown a0 b0 st'.
Proof.
  induction n as [|n IH]; intros st st' Hst H; cbn [iter_res] in H; [discriminate|].
  destruct (nth_prime_step prob_prime st) as [[st1|st1]|f] eqn:E; [| |discriminate].
  - eapply IH; [|exact H]. eapply nth_prime_step_grown; [exact Hst | left; exact E].
  - injection H as <-. eapply nth_prime_step_grown; [exact Hst | right; exact E].
Qed.

(** [prob_nth_prime] appends as many entries to [prob_prime_nth] as to
    [prob_great_nth], at least one, and the first ones are [prob_prime]
    and 1: the probability that no prime is among the first zero
    unknowns is 1. *)
Theorem prob_nth_prime_tables prob_prime prime_nth0 great_nth0 prime_nth great_nth :
  prob_nth_prime prob_prime prime_nth0 great_nth0 = Ok (prime_nth, great_nth) ->
  exists a b,
    prime_nth = prime_nth0 ++ to_float (1 * prob_prime) :: a /\
    great_nth = great_nth0 ++ 1%float :: b /\
    length a = length b.
Proof.
  unfold prob_nth_prime. intros H.
  apply bind_ok in H as (r & Hloop & H).
  change (loop_res max_floats (nth_prime_step prob_prime) (1%float, prime_nth0, great_nth0)
          = Ok r) in Hloop.
  rewrite loop_res_iter in Hloop.
  destruct r as [st|[[x a] b]]; [discriminate|]. injection H as <- <-.
  destruct (Pos2Nat.is_succ max_floats) as [n Hn]. rewrite Hn in Hloop.
  cbn [iter_res] in Hloop.
  change (nth_prime_step prob_prime (1%float, prime_nth0, great_nth0))
    with (Ok (Continue ((1 * (1 - prob_prime))%float,
                        prime_nth0 ++ [to_float (1 * prob_prime)],
                        great_nth0 ++ [1%float]))) in Hloop.
  apply (nth_prime_iter_grown prob_prime (prime_nth0 ++ [to_float (1 * prob_prime)])
           (great_nth0 ++ [1%float])) in Hloop.
  - destruct Hloop as (a1 & b1 & Ha & Hb & Hl). cbn [fst snd] in Ha, Hb.
    exists a1, b1. rewrite Ha, Hb, <- !app_assoc. auto.
  - exists [], []. cbn [fst snd]. rewrite !app_nil_r. auto.
Qed.

(** *** The run of the tables, row by row *)

Definition demo_run : Res (list MStats * GapHist * istream) :=
  run_gap_file demo_env demo_config (to_float (calc_log_K demo_env demo_config))
               (get_record_gaps demo_config demo_rows) 1390 403 demo_tables
               [0; 2] (mkIn demo_file true).

Definition demo_run_rows : list MStats :=
  Eval vm_compute in
    match demo_run return list MStats with Ok (rows, _, _) => rows | Err _ => [] end.

Definition demo_run_hist : GapHist :=
  Eval vm_compute in
    match demo_run return GapHist with
    | Ok (_, hist, _) => hist
    | Err _ => mkHist [] [] []
    end.

Definition demo_run_rest : istream :=
  Eval vm_compute in
    match demo_run return istream with Ok (_, _, rest) => rest | Err _ => mkIn [] false end.

Lemma run_gap_file_m_values_witness :
  map ms_m demo_run_rows = map (fun mi => u64 (mstart demo_config + mi)) [0; 2].
Proof.
  apply (run_gap_file_m_values demo_env demo_config
           (to_float (calc_log_K demo_env demo_config))
           (get_record_gaps demo_config demo_rows) 1390 403 demo_tables
           [0; 2] (mkIn demo_file true) demo_run_rows demo_run_hist demo_run_rest).
  vm_compute. reflexivity.
Defined.

(** *** The tables for a probability of one half *)

Definition half_prime_nth : list float :=
  Eval vm_compute in
    match prob_nth_prime 0.5 [] [] return list float with
    | Ok (prime_nth, _) => prime_nth
    | Err _ => []
    end.

Definition half_great_nth : list float :=
  Eval vm_compute in
    match prob_nth_prime 0.5 [] [] return list float with
    | Ok (_, great_nth) => great_nth
    | Err _ => []
    end.

Lemma prob_nth_prime_tables_witness :
  exists a b,
    half_prime_nth = [] ++ to_float (1 * 0.5) :: a /\
    half_great_nth = [] ++ 1%float :: b /\
    length a = length b.
Proof. apply (prob_nth_prime_tables 0.5 [] []). vm_compute. reflexivity. Defined.

(** ** The writer on a well-formed bitmap *)

(** Every offset of the interval is mapped to a bit of the bitmap. *)
Definition reindex_in_range (SL : Z) (comp : list bool) (i_reindex_m : list Z) : Prop :=
  size i_reindex_m = 2 * SL + 1 /\
  Forall (fun idx => 0 <= idx < size comp) i_reindex_m.

Lemma is_unknown_total SL comp irm a :
  reindex_in_range SL comp irm -> 0 <= a <= 2 * SL ->
  is_unknown comp irm a = Ok (unknown_b comp irm a).
Proof.
  intros [Hsize Hall] Ha. unfold unknown_b, is_unknown, vget.
  destruct (Z.ltb_spec a 0); [lia|].
  assert (is_Some (irm !! Z.to_nat a)) as [idx Hidx]
    by (apply lookup_lt_is_Some; unfold size in Hsize; lia).
  rewrite Hidx. cbn [bind].
  assert (Hr : 0 <= idx < size comp).
  { eapply Forall_lookup_1 in Hall; [|exact Hidx]. exact Hall. }
  destruct (Z.ltb_spec idx 0); [lia|].
  assert (is_Some (comp !! Z.to_nat idx)) as [c Hc]
    by (apply lookup_lt_is_Some; unfold size in Hr; lia).
  rewrite Hc. reflexivity.
Qed.

(** The counting loop: the unknowns up to the centre, and those above. *)
Lemma count_unknowns_fold SL comp irm : reindex_in_range SL comp irm ->
  forall l unknown_l unknown_u,
    (forall i, In i l -> 0 <= i <= 2 * SL) ->
    foldM (fun '(unknown_l, unknown_u) i =>
             let* unk := is_unknown comp irm i in
             Ok (if unk then
                   if i <=? SL then (unknown_l + 1, unknown_u)
                   else (unknown_l, unknown_u + 1)
                 else (unknown_l, unknown_u)))
          l (unknown_l, unknown_u)
    = Ok (unknown_l + Z.of_nat (length (List.filter
                                          (fun i => unknown_b comp irm i && (i <=? SL)) l)),
          unknown_u + Z.of_nat (length (List.filter
                                          (fun i => unknown_b comp irm i && negb (i <=? SL)) l))).
Proof.
  intros Hwf. induction l as [|i l IH]; intros ul uu Hl.
  - cbn. rewrite !Z.add_0_r. reflexivity.
  - cbn [foldM List.filter].
    rewrite (is_unknown_total SL comp irm i Hwf) by (apply Hl; left; reflexivity).
    cbn [bind].
    destruct (unknown_b comp irm i), (i <=? SL); cbn [andb negb];
      rewrite IH by (intros j Hj; apply Hl; right; exact Hj);
      cbn [length]; do 2 f_equal; lia.
Qed.

(** The distances of a side, counted from the centre downwards, are the
    positions below the centre in reverse. *)
Lemma below_centre_rev SL : forall n : nat,
  map (fun i => SL + (2 * 0 - 1) * i) (seqZ 1 (Z.of_nat n))
  = rev (seqZ (SL - Z.of_nat n) (Z.of_nat n)).
Proof.
  induction n as [|n IH]; [reflexivity|].
  rewrite seqZ_S, map_app, IH. cbn [map].
  rewrite (seqZ_cons (SL - Z.of_nat (S n))) by lia. cbn [rev].
  replace (Z.succ (SL - Z.of_nat (S n))) with (SL - Z.of_nat n) by lia.
  replace (Z.pred (Z.of_nat (S n))) with (Z.of_nat n) by lia.
  f_equal. f_equal. lia.
Qed.

Lemma above_centre_shift SL n :
  map (fun i => SL + (2 * 1 - 1) * i) (seqZ 1 n) = seqZ (SL + 1) n.
Proof.
  rewrite <- (fmap_add_seqZ SL 1 n). apply map_ext. intros i. lia.
Qed.

Lemma filter_map_length {A B} (f : A -> B) (P : B -> bool) (l : list A) :
  length (List.filter (fun a => P (f a)) l) = length (List.filter P (map f l)).
Proof.
  induction l as [|a l IH]; [reflexivity|]. cbn. destruct (P (f a)); cbn; rewrite IH; reflexivity.
Qed.

Lemma filter_rev_length {A} (P : A -> bool) (l : list A) :
  length (List.filter P (rev l)) = length (List.filter P l).
Proof.
  induction l as [|a l IH]; [reflexivity|].
  cbn [rev]. rewrite List.filter_app, length_app, IH. cbn.
  destruct (P a); cbn; lia.
Qed.

Lemma filter_none {A} (P : A -> bool) (l : list A) :
  (forall a, In a l -> P a = false) -> length (List.filter P l) = O.
Proof.
  induction l as [|a l IH]; intros H; [reflexivity|].
  cbn. rewrite (H a (or_introl eq_refl)). apply IH. intros b Hb. apply H. right. exact Hb.
Qed.

(** The numbers of unknowns the header announces are those of the two
    sides, when the centre is not an unknown. *)
Lemma count_unknowns_sides SL comp irm :
  0 <= SL -> reindex_in_range SL comp irm -> unknown_b comp irm SL = false ->
  count_unknowns SL comp irm
  = Ok (Z.of_nat (length (side_offsets SL comp irm 0)),
        Z.of_nat (length (side_offsets SL comp irm 1))).
Proof.
  intros HSL Hwf Hcentre. unfold count_unknowns.
  pose proof Hwf as [Hsize Hall]. rewrite Hsize.
  rewrite (count_unknowns_fold SL comp irm Hwf)
    by (intros i Hi; apply list_elem_of_In, elem_of_seqZ in Hi; lia).
  rewrite !Z.add_0_l.
  replace (2 * SL + 1) with (SL + (1 + SL)) by lia.
  rewrite !seqZ_app by lia. rewrite !Z.add_0_l.
  rewrite (seqZ_cons SL 1) by lia. replace (Z.pred 1) with 0 by lia.
  rewrite (seqZ_nil _ 0) by lia.
  rewrite !List.filter_app, !length_app. cbn [List.filter app length].
  rewrite Hcentre. cbn [andb length].
  f_equal. f_equal.
  - (* the low side *)
    rewrite (filter_none _ (seqZ (SL + 1) SL)); cycle 1.
    { intros i Hi. apply list_elem_of_In, elem_of_seqZ in Hi.
      destruct (Z.leb_spec i SL); [lia|]. apply andb_false_r. }
    rewrite !Nat.add_0_r. f_equal. unfold side_offsets.
    rewrite (filter_map_length (fun i => SL + (2 * 0 - 1) * i) (unknown_b comp irm)).
    pose proof (below_centre_rev SL (Z.to_nat SL)) as Hrev.
    rewrite Z2Nat.id, Z.sub_diag in Hrev by lia.
    rewrite Hrev, filter_rev_length.
    f_equal. apply List.filter_ext_in. intros i Hi.
    apply list_elem_of_In, elem_of_seqZ in Hi.
    destruct (Z.leb_spec i SL); [|lia]. apply andb_true_r.
  - (* the high side *)
    rewrite (filter_none _ (seqZ 0 SL)); cycle 1.
    { intros i Hi. apply list_elem_of_In, elem_of_seqZ in Hi.
      destruct (Z.leb_spec i SL); [|lia]. apply andb_false_r. }
    cbn [Nat.add]. f_equal. unfold side_offsets.
    rewrite (filter_map_length (fun i => SL + (2 * 1 - 1) * i) (unknown_b comp irm)).
    rewrite above_centre_shift.
    f_equal. apply List.filter_ext_in. intros i Hi.
    apply list_elem_of_In, elem_of_seqZ in Hi.
    destruct (Z.leb_spec i SL); [lia|]. apply andb_true_r.
Qed.

(** Below 2^30 the index of a distance fits an [int]. *)
Lemma side_index_small SL d i :
  0 <= SL < 2 ^ 30 -> (d = 0 \/ d = 1) -> 1 <= i <= SL ->
  side_index SL d i = SL + (2 * d - 1) * i.
Proof.
  intros HSL Hd Hi. unfold side_index. apply i32_u64_small.
  destruct Hd as [-> | ->]; lia.
Qed.

(** The run-length loop of one side runs to its end when every step fits
    the two bytes. *)
Lemma rle_fold_total SL comp irm d : reindex_in_range SL comp irm ->
  0 <= SL < 128 * 128 -> (d = 0 \/ d = 1) ->
  forall (n : nat) start out found last,
    0 <= last < start -> start + Z.of_nat n <= SL + 1 ->
    exists r,
      foldM (fun '(out, found, last) i =>
               let a := side_index SL d i in
               let* unk := is_unknown comp irm a in
               if unk then
                 let delta := i32 (u64 (i - last)) in
                 let* _ := assert ((0 <=? delta) && (delta <? 128 * 128))
                                  "0 <= delta && delta < (128L*128)" in
                 let upper := 48 + delta / 128 in
                 let lower := 48 + delta mod 128 in
                 Ok (out ++ [upper; lower], found + 1, i32 i)
               else Ok (out, found, last))
            (seqZ start (Z.of_nat n)) (out, found, last) = Ok r.
Proof.
  intros Hwf HSL Hd. induction n as [|n IH]; intros start out found last Hlast Hend.
  - eexists. reflexivity.
  - rewrite seqZ_cons by lia. cbn [foldM]. cbv zeta.
    rewrite (side_index_small SL d start) by (assumption || lia).
    rewrite (is_unknown_total SL comp irm _ Hwf) by (destruct Hd as [-> | ->]; lia).
    cbn [bind].
    replace (Z.pred (Z.of_nat (S n))) with (Z.of_nat n) by lia.
    destruct (unknown_b comp irm _).
    + rewrite (i32_u64_small (start - last)) by lia.
      rewrite (i32_small start) by lia.
      destruct (Z.leb_spec 0 (start - last)); [|lia].
      destruct (Z.ltb_spec (start - last) (128 * 128)); [|lia].
      cbn [andb assert bind]. apply IH; lia.
    + apply IH; lia.
Qed.

Lemma sparse_fold_total SL comp irm d prefix : reindex_in_range SL comp irm ->
  0 <= SL < 2 ^ 30 -> (d = 0 \/ d = 1) ->
  forall l out found,
    (forall i, In i l -> 1 <= i <= SL) ->
    exists r,
      foldM (fun '(out, found) i =>
               let a := side_index SL d i in
               let* unk := is_unknown comp irm a in
               if unk then Ok (out ++ chars " " ++ [prefix] ++ put_uint i, found + 1)
               else Ok (out, found))
            l (out, found) = Ok r.
Proof.
  intros Hwf HSL Hd. induction l as [|i l IH]; intros out found Hl.
  - eexists. reflexivity.
  - cbn [foldM]. cbv zeta.
    assert (Hi : 1 <= i <= SL) by (apply Hl; left; reflexivity).
    rewrite (side_index_small SL d i) by assumption.
    rewrite (is_unknown_total SL comp irm _ Hwf) by (destruct Hd as [-> | ->]; lia).
    cbn [bind].
    destruct (unknown_b comp irm _); apply IH; intros j Hj; apply Hl; right; exact Hj.
Qed.

Lemma write_side_total rle SL comp irm d :
  reindex_in_range SL comp irm -> 0 <= SL < 2 ^ 30 -> (rle = true -> SL < 128 * 128) ->
  (d = 0 \/ d = 1) ->
  exists out,
    write_side rle SL comp irm d
    = Ok (out, Z.of_nat (length (side_offsets SL comp irm d))).
Proof.
  intros Hwf HSL Hrle Hd.
  assert (Hex : exists r, write_side rle SL comp irm d = Ok r).
  { unfold write_side. destruct rle.
    - unfold rle_side.
      destruct (rle_fold_total SL comp irm d Hwf ltac:(specialize (Hrle eq_refl); lia) Hd
                  (Z.to_nat SL) 1 (chars " ") 0 0 ltac:(lia) ltac:(lia))
        as ([[out found] last] & Hr).
      rewrite Z2Nat.id in Hr by lia. cbv zeta in Hr. rewrite Hr. cbn [bind]. eauto.
    - unfold sparse_side.
      apply (sparse_fold_total SL comp irm d); [exact Hwf | exact HSL | exact Hd |].
      intros i Hi. apply list_elem_of_In, elem_of_seqZ in Hi. lia. }
  destruct Hex as ([out found] & Hr). exists out. rewrite Hr.
  apply write_side_spec in Hr as (_ & -> & _); [reflexivity | lia | exact Hd].
Qed.

(** The writer never stops on a well-formed bitmap: for a half length
    below 2^30 (so that every index fits the [int] it is computed in)
    and an [mi] that is a [uint64_t],
    when every offset is mapped to a bit of the bitmap and the centre is
    not an unknown, the line is written, in the sparse form and, for a
    half length below 128^2, in the run-length form; the assertions on
    the numbers of unknowns found hold. *)
Theorem save_unknowns_line_total rle SL mi comp i_reindex_m :
  0 <= SL < 2 ^ 30 -> 0 <= mi < 2 ^ 64 -> (rle = true -> SL < 128 * 128) ->
  reindex_in_range SL comp i_reindex_m ->
  unknown_b comp i_reindex_m SL = false ->
  exists line, save_unknowns_line rle SL mi comp i_reindex_m = Ok line.
Proof.
  intros HSL Hmi Hrle Hwf Hcentre. unfold save_unknowns_line.
  pose proof Hwf as [Hsize _].
  rewrite (u32_small (2 * SL + 1)) by lia.
  rewrite Hsize, Z.eqb_refl. cbn [assert bind].
  rewrite (count_unknowns_sides SL comp i_reindex_m ltac:(lia) Hwf Hcentre). cbn [bind].
  destruct (write_side_total rle SL comp i_reindex_m 0 Hwf HSL Hrle (or_introl eq_refl))
    as (out0 & ->).
  cbn [bind]. rewrite Z.eqb_refl. cbn [assert bind].
  destruct (write_side_total rle SL comp i_reindex_m 1 Hwf HSL Hrle (or_intror eq_refl))
    as (out1 & ->).
  cbn [bind]. rewrite Z.eqb_refl. cbn [assert bind]. eauto.
Qed.

Lemma save_unknowns_line_total_witness :
  exists line, save_unknowns_line true 4 7 one_low_comp one_low_reindex = Ok line.
Proof.
  apply (save_unknowns_line_total true 4 7 one_low_comp one_low_reindex).
  - lia.
  - lia.
  - lia.
  - split; [reflexivity|].
    unfold one_low_reindex.
    repeat (apply List.Forall_cons; [vm_compute; split; [discriminate | reflexivity] |]).
    apply List.Forall_nil.
  - reflexivity.
Defined.
